(** * bibtex-tidy: the [tidy] pipeline, embedded and verified

    The development follows the single source module of the tool: the
    character escaper, the field normaliser, the duplicate index with its
    merge strategies, the multi-key sort and the serialiser.

    JavaScript strings are sequences of 16-bit code units; they are modelled
    as lists of [N].  Objects that the code mutates in place (the parsed
    items) live in a store addressed by their position in the parser's
    result, and the [items] array is a list of such addresses. *)

From Stdlib Require Import ZArith NArith String Ascii.
From stdpp Require Import list sorting gmap.

Local Open Scope N_scope.

(** ** Strings *)

Abbreviation jstring := (list N) (only parsing).

(** The code units of an ASCII literal. *)
Definition js (s : string) : jstring :=
  N_of_ascii <$> list_ascii_of_string s.

Module Chr.
Definition tab : N := 9.
Definition newline : N := 10.
Definition space : N := 32.
Definition quote : N := 34.
Definition hash : N := 35.
Definition ampersand : N := 38.
Definition comma : N := 44.
Definition dash : N := 45.
Definition colon : N := 58.
Definition equals : N := 61.
Definition at_sign : N := 64.
Definition backslash : N := 92.
Definition underscore : N := 95.
Definition lbrace : N := 123.
Definition rbrace : N := 125.
End Chr.

(** [\s] of a JavaScript regular expression; [String.prototype.trim] strips
    the same set (white space and line terminators). *)
Definition is_space (c : N) : bool :=
  (9 <=? c) && (c <=? 13) || (c =? 32) || (c =? 160) || (c =? 5760)
  || (8192 <=? c) && (c <=? 8202) || (c =? 8232) || (c =? 8233)
  || (c =? 8239) || (c =? 8287) || (c =? 12288) || (c =? 65279).

(** [\d] *)
Definition is_digit (c : N) : bool := (48 <=? c) && (c <=? 57).
(** [[a-z]] and [[A-Z]] *)
Definition is_lower (c : N) : bool := (97 <=? c) && (c <=? 122).
Definition is_upper (c : N) : bool := (65 <=? c) && (c <=? 90).
(** [\w] *)
Definition is_word (c : N) : bool :=
  is_digit c || is_lower c || is_upper c || (c =? Chr.underscore).
(** [[0-9A-Za-z]] *)
Definition is_alnum (c : N) : bool := is_digit c || is_lower c || is_upper c.
(** [[ \t]] *)
Definition is_blank (c : N) : bool := (c =? Chr.space) || (c =? Chr.tab).

(** The longest prefix whose characters satisfy [p], and what follows it. *)
Fixpoint span (p : N -> bool) (s : jstring) : jstring * jstring :=
  match s with
  | [] => ([], [])
  | c :: s' =>
      if p c then let '(a, b) := span p s' in (c :: a, b) else ([], s)
  end.

Definition trimStart (s : jstring) : jstring := snd (span is_space s).
Definition trimEnd (s : jstring) : jstring :=
  reverse (snd (span is_space (reverse s))).
Definition trim (s : jstring) : jstring := trimEnd (trimStart s).

Definition startsWith (p s : jstring) : bool :=
  bool_decide (take (length p) s = p).
Definition endsWith (p s : jstring) : bool :=
  bool_decide (drop (length s - length p)%nat s = p).

(** [s.slice(0, n)] *)
Definition slice0 (n : nat) (s : jstring) : jstring := take n s.
(** [s.slice(1)] *)
Definition slice1 (s : jstring) : jstring := drop 1 s.

(** [s.padEnd(n)]: spaces are appended up to length [n]. *)
Definition padEnd (n : nat) (s : jstring) : jstring :=
  s ++ replicate (n - length s)%nat Chr.space.

(** [s.replace(re, ...)] with a global regular expression none of whose
    matches is empty.  [m] tries the expression at the head of its argument
    and answers the replacement text and the length of the match; the scan
    goes on after the match ([skip] counts the matched characters still to
    be passed over). *)
Fixpoint replaceAll (m : jstring -> option (jstring * nat))
    (skip : nat) (s : jstring) : jstring :=
  match s with
  | [] => []
  | c :: s' =>
      match skip with
      | S k => replaceAll m k s'
      | O =>
          match m (c :: s') with
          | Some (rep, len) => rep ++ replaceAll m (pred len) s'
          | None => c :: replaceAll m 0 s'
          end
      end
  end.

Definition hex_digit (d : N) : N := if d <? 10 then 48 + d else 87 + d.

(** [c.toString(16).padStart(4, '0')] for a code unit [c]. *)
Definition hex4 (c : N) : jstring :=
  [hex_digit (c / 4096 mod 16); hex_digit (c / 256 mod 16);
   hex_digit (c / 16 mod 16); hex_digit (c mod 16)].

(** ** JavaScript [Map] and [Set]: insertion order is kept *)

Section JsMap.
Context {K V : Type} `{EqDecision K}.

Definition jsmap := list (K * V).

Fixpoint map_get (k : K) (m : list (K * V)) : option V :=
  match m with
  | [] => None
  | (k', v) :: m' => if decide (k = k') then Some v else map_get k m'
  end.

Definition map_has (k : K) (m : list (K * V)) : bool :=
  match map_get k m with Some _ => true | None => false end.

(** [set] on a present key replaces the value where the key stands; a new
    key goes to the end. *)
Fixpoint map_set (k : K) (v : V) (m : list (K * V)) : list (K * V) :=
  match m with
  | [] => [(k, v)]
  | (k', v') :: m' =>
      if decide (k = k') then (k', v) :: m' else (k', v') :: map_set k v m'
  end.

(** [new Map(entries)] *)
Definition map_of_entries (l : list (K * V)) : list (K * V) :=
  fold_left (fun m kv => map_set (fst kv) (snd kv) m) l [].

Definition map_keys (m : list (K * V)) : list K := fst <$> m.

(** [new Set(l)], then iterated: first occurrences, in order. *)
Fixpoint set_of_list (seen l : list K) : list K :=
  match l with
  | [] => []
  | k :: l' =>
      if decide (k ∈ seen) then set_of_list seen l'
      else k :: set_of_list (k :: seen) l'
  end.
End JsMap.
Arguments jsmap : clear implicits.

(** ** The data model *)

(** Modelled from the spec: the value kinds of a field.  The parser's
    typings are not among the sources; the code tests for [braced],
    [quoted] and [concatinate] and treats the others alike. *)
Module Datatype.
Inductive t := braced | quoted | number | identifier | concatinate.
#[global] Instance eq_dec : EqDecision t.
Proof. solve_decision. Defined.
End Datatype.

(** Modelled from the spec: a raw field of an entry, with the attributes
    the pipeline reads. *)
Module Field.
Record t := mk {
  name : jstring;
  value : jstring;    (* [String(field.value)] *)
  raw : jstring;
  datatype : Datatype.t }.
End Field.

(** Modelled from the spec: a normalised field, the value of [fieldMap]. *)
Module ValueString.
Record t := mk { value : jstring; datatype : Datatype.t }.
End ValueString.

(** Modelled from the spec: an entry, with the attributes the pipeline
    reads and writes; [fieldMap] is absent until the first loop sets it and
    after the output loop deletes it, and an absent [duplicate] is false. *)
Module Entry.
Record t := mk {
  key : option jstring;
  type : jstring;
  fields : list Field.t;
  fieldMap : option (jsmap jstring ValueString.t);
  duplicate : bool }.

Definition set_fields (l : list Field.t) (e : t) : t :=
  mk (key e) (type e) l (fieldMap e) (duplicate e).
Definition set_fieldMap (m : option (jsmap jstring ValueString.t)) (e : t) : t :=
  mk (key e) (type e) (fields e) m (duplicate e).
Definition set_duplicate (b : bool) (e : t) : t :=
  mk (key e) (type e) (fields e) (fieldMap e) b.
End Entry.

(** Modelled from the spec: the four kinds of item, told apart by
    [itemtype]. *)
Inductive BibTeXItem :=
| StringItem (name raw : jstring)
| PreambleItem (raw : jstring)
| CommentItem (comment : jstring)
| EntryItem (e : Entry.t).

Definition is_entry (i : BibTeXItem) : bool :=
  match i with EntryItem _ => true | _ => false end.

(** The parsed items are objects; [ref] is the address of one of them. *)
Abbreviation ref := nat (only parsing).
Abbreviation store := (list BibTeXItem) (only parsing).

Definition getEntry (h : store) (r : ref) : option Entry.t :=
  match h !! r with Some (EntryItem e) => Some e | _ => None end.

Inductive WarningCode := DUPLICATE_KEY | MISSING_KEY | DUPLICATE_ENTRY.

Record Warning := mkWarning {
  code : WarningCode;
  message : jstring;
  entry : ref;
  duplicateOf : option ref }.

Module UniqueKey.
Inductive t := doi | key | abstract | citation.
#[global] Instance eq_dec : EqDecision t.
Proof. solve_decision. Defined.
End UniqueKey.

Module MergeStrategy.
Inductive t := first | last | combine | overwrite.
End MergeStrategy.

(** An option that is [false], [true] or a list. *)
Inductive BoolOrList (A : Type) :=
| IsFalse
| IsTrue
| IsList (l : list A).
Arguments IsFalse {A}.
Arguments IsTrue {A}.
Arguments IsList {A} l.

(** [space] and [align] as the caller gives them: a boolean or a count.
    The counts are those that [' '.repeat] and [padEnd] accept; on a
    negative or infinite [space] the code throws at [' '.repeat(space)], and
    such a configuration is not among those of the model. *)
Inductive Space := SpaceTrue | SpaceNumber (n : nat).
Inductive Align := AlignFalse | AlignNumber (n : nat).

Module Opt.
Record t := mk {
  omit : list jstring;
  curly : bool;
  numeric : bool;
  space : Space;
  tab : bool;
  align : Align;
  sort : BoolOrList jstring;
  merge : BoolOrList UniqueKey.t;
  mergeStrategy : MergeStrategy.t;
  stripEnclosingBraces : bool;
  dropAllCaps : bool;
  escape : bool;
  sortFields : BoolOrList jstring;
  sortProperties : option (BoolOrList jstring);
  stripComments : bool;
  encodeUrls : bool;
  tidyComments : bool }.

(** The defaults of the destructuring in [tidy]'s signature. *)
Definition default : t :=
  {| omit := []; curly := false; numeric := false; space := SpaceNumber 2;
     tab := false; align := AlignNumber 14; sort := IsFalse;
     merge := IsFalse; mergeStrategy := MergeStrategy.combine;
     stripEnclosingBraces := false; dropAllCaps := false; escape := true;
     sortFields := IsFalse; sortProperties := None; stripComments := false;
     encodeUrls := false; tidyComments := true |}.

(** An option given by the caller. *)
Definition set_numeric (x : bool) (o : t) : t :=
  mk (omit o) (curly o) x (space o) (tab o) (align o) (sort o) (merge o)
    (mergeStrategy o) (stripEnclosingBraces o) (dropAllCaps o) (escape o)
    (sortFields o) (sortProperties o) (stripComments o) (encodeUrls o)
    (tidyComments o).
Definition set_curly (x : bool) (o : t) : t :=
  mk (omit o) x (numeric o) (space o) (tab o) (align o) (sort o) (merge o)
    (mergeStrategy o) (stripEnclosingBraces o) (dropAllCaps o) (escape o)
    (sortFields o) (sortProperties o) (stripComments o) (encodeUrls o)
    (tidyComments o).
Definition set_escape (x : bool) (o : t) : t :=
  mk (omit o) (curly o) (numeric o) (space o) (tab o) (align o) (sort o)
    (merge o) (mergeStrategy o) (stripEnclosingBraces o) (dropAllCaps o) x
    (sortFields o) (sortProperties o) (stripComments o) (encodeUrls o)
    (tidyComments o).
Definition set_sort (x : BoolOrList jstring) (o : t) : t :=
  mk (omit o) (curly o) (numeric o) (space o) (tab o) (align o) x (merge o)
    (mergeStrategy o) (stripEnclosingBraces o) (dropAllCaps o) (escape o)
    (sortFields o) (sortProperties o) (stripComments o) (encodeUrls o)
    (tidyComments o).
Definition set_merge (x : BoolOrList UniqueKey.t) (o : t) : t :=
  mk (omit o) (curly o) (numeric o) (space o) (tab o) (align o) (sort o) x
    (mergeStrategy o) (stripEnclosingBraces o) (dropAllCaps o) (escape o)
    (sortFields o) (sortProperties o) (stripComments o) (encodeUrls o)
    (tidyComments o).
Definition set_mergeStrategy (x : MergeStrategy.t) (o : t) : t :=
  mk (omit o) (curly o) (numeric o) (space o) (tab o) (align o) (sort o)
    (merge o) x (stripEnclosingBraces o) (dropAllCaps o) (escape o)
    (sortFields o) (sortProperties o) (stripComments o) (encodeUrls o)
    (tidyComments o).
End Opt.

(** ** Host functions

    The string comparison and the case conversions belong to the JavaScript
    runtime, the escape table to a data file, and the reader of the input
    text to the parser package; the pipeline takes them as given. *)

Record Host := mkHost {
  localeCompare : jstring -> jstring -> Z;
  toLowerCase : jstring -> jstring;
  toLocaleLowerCase : jstring -> jstring;
  toLocaleUpperCase : jstring -> jstring;
  (** the rows of [unicode.tsv]: a four-digit hexadecimal code point and the
      LaTeX text that stands for it *)
  unicode : list (jstring * jstring);
  (** [parser.parse], on the texts it reads; a text on which the parser
      throws is not among the inputs of the model *)
  parse : jstring -> store }.

Definition DEFAULT_ENTRY_ORDER : list jstring := [js "key"].
Definition DEFAULT_INDEX_STRATEGY : list UniqueKey.t :=
  [UniqueKey.doi; UniqueKey.citation; UniqueKey.abstract].
Definition DEFAULT_FIELD_ORDER : list jstring :=
  js <$> ["title"; "shorttitle"; "author"; "year"; "month"; "day"; "journal";
          "booktitle"; "location"; "on"; "publisher"; "address"; "series";
          "volume"; "number"; "pages"; "doi"; "isbn"; "issn"; "url";
          "urldate"; "copyright"; "category"; "note"; "metadata"]%string.
Definition MONTHS : list jstring :=
  js <$> ["jan"; "feb"; "mar"; "apr"; "may"; "jun"; "jul"; "aug"; "sep";
          "oct"; "nov"; "dec"]%string.

(** ** The character escaper *)

Definition specialCharacters (H : Host) : jsmap jstring jstring :=
  map_of_entries (unicode H).

(** [specialCharacters.get(c) || str[i]] *)
Definition escapeChar (H : Host) (ch : N) : jstring :=
  match map_get (hex4 ch) (specialCharacters H) with
  | Some ((_ :: _) as latex) => latex
  | _ => [ch]
  end.

(** One turn of the loop, on the pair of [newstr] and [escapeMode]. *)
Definition escape_step (H : Host) (st : jstring * bool) (ch : N)
    : jstring * bool :=
  let '(newstr, escapeMode) := st in
  if escapeMode then (newstr ++ [ch], false)
  else if ch =? Chr.backslash then (newstr ++ [ch], true)
  else (newstr ++ escapeChar H ch, false).

Definition escape_loop (H : Host) (str : jstring) : jstring * bool :=
  fold_left (escape_step H) str ([], false).

Definition escapeSpecialCharacters (H : Host) (str : jstring) : jstring :=
  fst (escape_loop H str).

(** The value of [escapeMode] when the loop leaves [str]. *)
Definition escapeMode_after (H : Host) (str : jstring) : bool :=
  snd (escape_loop H str).

(** ** The field normaliser *)

(** The expression of [titleCase]: one word character [\w], then the
    longest run of non-blank characters [\S]. *)
Definition word_match (H : Host) (s : jstring) : option (jstring * nat) :=
  match s with
  | c :: s' =>
      if is_word c then
        let rest := fst (span (fun x => negb (is_space x)) s') in
        Some (toLocaleUpperCase H [c] ++ toLocaleLowerCase H rest,
              S (length rest))
      else None
  | [] => None
  end.

Definition titleCase (H : Host) (str : jstring) : jstring :=
  replaceAll (word_match H) 0 str.

(** [str.replace(/[^0-9A-Za-z]/g, '').toLocaleLowerCase()] *)
Definition alphaNum (H : Host) (str : jstring) : jstring :=
  toLocaleLowerCase H (List.filter is_alnum str).

(** [/\s*\n\s*/]: greedy on both sides, so a match at the head of [s] is the
    whole run of white space there, provided a newline is in it. *)
Definition newline_run_match (s : jstring) : option (jstring * nat) :=
  let ws := fst (span is_space s) in
  if bool_decide (Chr.newline ∈ ws) then Some ([Chr.space], length ws)
  else None.

(** The double-brace rule: a value that opens with a brace, closes with a
    brace and has no brace in between loses the pair. *)
Definition stripBraces (val : jstring) : jstring :=
  match val with
  | c :: rest =>
      match reverse rest with
      | d :: rinner =>
          if (c =? Chr.lbrace) && (d =? Chr.rbrace)
             && forallb (fun x => negb ((x =? Chr.lbrace) || (x =? Chr.rbrace)))
                  rinner
          then reverse rinner else val
      | [] => val
      end
  | [] => val
  end.

(** [val.match(/^[^a-z]+$/)] *)
Definition allCaps (val : jstring) : bool :=
  match val with
  | [] => false
  | _ => forallb (fun x => negb (is_lower x)) val
  end.

(** [/\\?_/], replaced by [\%5F] *)
Definition underscore_match (s : jstring) : option (jstring * nat) :=
  match s with
  | c :: s' =>
      if c =? Chr.underscore then Some (js "\%5F", 1%nat)
      else match s' with
           | d :: _ =>
               if (c =? Chr.backslash) && (d =? Chr.underscore)
               then Some (js "\%5F", 2%nat) else None
           | [] => None
           end
  | [] => None
  end.

(** The page-range rule: a digit, white space, a dash, white space and a
    digit become the two digits with a double dash between them. *)
Definition page_dash_match (s : jstring) : option (jstring * nat) :=
  match s with
  | d1 :: s1 =>
      if is_digit d1 then
        let '(ws1, r1) := span is_space s1 in
        match r1 with
        | h :: s2 =>
            if h =? Chr.dash then
              let '(ws2, r2) := span is_space s2 in
              match r2 with
              | d2 :: _ =>
                  if is_digit d2
                  then Some ([d1; Chr.dash; Chr.dash; d2],
                             (3 + length ws1 + length ws2)%nat)
                  else None
              | [] => None
              end
            else None
        | [] => None
        end
      else None
  | [] => None
  end.

(** [value.replace(/\s*\n\s*/g, ' ')] *)
Definition collapseNewlines (value : jstring) : jstring :=
  replaceAll newline_run_match 0 value.

(** The first step on a value that is not a concatenation:
    [String(field.value).replace(/\s*\n\s*/g, ' ').trim()]. *)
Definition removeWhitespace (value : jstring) : jstring :=
  trim (collapseNewlines value).

(** The steps that follow, in the order of the code. *)
Definition laterSteps (H : Host) (o : Opt.t) (lname val : jstring) : jstring :=
  let val := if Opt.stripEnclosingBraces o then stripBraces val else val in
  let val := if Opt.dropAllCaps o && allCaps val then titleCase H val else val in
  let val := if bool_decide (lname = js "url") && Opt.encodeUrls o
             then replaceAll underscore_match 0 val else val in
  let val := if Opt.escape o then escapeSpecialCharacters H val else val in
  let val := if bool_decide (lname = js "pages")
             then replaceAll page_dash_match 0 val else val in
  val.

Definition normalizeValue (H : Host) (o : Opt.t) (lname : jstring)
    (field : Field.t) : jstring :=
  match Field.datatype field with
  | Datatype.concatinate => Field.raw field
  | _ => laterSteps H o lname (removeWhitespace (Field.value field))
  end.

(** One turn of the loop over [item.fields]. *)
Definition addField (H : Host) (o : Opt.t)
    (fieldMap : jsmap jstring ValueString.t) (field : Field.t)
    : jsmap jstring ValueString.t :=
  let lname := toLocaleLowerCase H (Field.name field) in
  if bool_decide (lname ∈ Opt.omit o) || map_has lname fieldMap then fieldMap
  else map_set lname
         (ValueString.mk (trim (normalizeValue H o lname field))
            (Field.datatype field))
         fieldMap.

Definition buildFieldMap (H : Host) (o : Opt.t) (fields : list Field.t)
    : jsmap jstring ValueString.t :=
  fold_left (addField H o) fields [].

(** ** The duplicate index and the merge strategies *)

(** [!x] is false: [x] is a string that is not empty. *)
Definition truthy (x : option jstring) : bool :=
  match x with Some (_ :: _) => true | _ => false end.

(** What a template literal prints for [item.key]. *)
Definition showKey (x : option jstring) : jstring :=
  match x with Some s => s | None => js "undefined" end.

(** [merge] once [true] has been replaced by the default strategy. *)
Definition mergeKeys (merge : BoolOrList UniqueKey.t) : list UniqueKey.t :=
  match merge with
  | IsFalse => []
  | IsTrue => DEFAULT_INDEX_STRATEGY
  | IsList l => l
  end.

(** The map [uniqCheck]: the requested criteria, flagged for merging, and
    [key] for the warning when it was not requested. *)
Definition uniqCheck (merge : BoolOrList UniqueKey.t)
    : jsmap UniqueKey.t bool :=
  let requested :=
    fold_left (fun m key => map_set key true m) (mergeKeys merge) [] in
  if map_has UniqueKey.key requested then requested
  else map_set UniqueKey.key false requested.

Record State := mkState {
  heap : store;
  keys : gmap jstring ref;
  dois : gmap jstring ref;
  citations : gmap jstring ref;
  abstracts : gmap jstring ref;
  warnings : list Warning }.

Definition set_heap (h : store) (st : State) : State :=
  mkState h (keys st) (dois st) (citations st) (abstracts st) (warnings st).
Definition push_warning (w : Warning) (st : State) : State :=
  mkState (heap st) (keys st) (dois st) (citations st) (abstracts st)
    (warnings st ++ [w]).

(** The map a criterion owns. *)
Definition indexOf (key : UniqueKey.t) (st : State) : gmap jstring ref :=
  match key with
  | UniqueKey.key => keys st
  | UniqueKey.doi => dois st
  | UniqueKey.citation => citations st
  | UniqueKey.abstract => abstracts st
  end.

Definition set_indexOf (key : UniqueKey.t) (m : gmap jstring ref) (st : State)
    : State :=
  match key with
  | UniqueKey.key =>
      mkState (heap st) m (dois st) (citations st) (abstracts st) (warnings st)
  | UniqueKey.doi =>
      mkState (heap st) (keys st) m (citations st) (abstracts st) (warnings st)
  | UniqueKey.citation =>
      mkState (heap st) (keys st) (dois st) m (abstracts st) (warnings st)
  | UniqueKey.abstract =>
      mkState (heap st) (keys st) (dois st) (citations st) m (warnings st)
  end.

(** [item.fieldMap.get(name)?.value] *)
Definition fieldValue (name : jstring) (fieldMap : jsmap jstring ValueString.t)
    : option jstring :=
  ValueString.value <$> map_get name fieldMap.

(** [aut.split(/,| and/)[0]]: what stands before the first comma or the
    first [ and]. *)
Fixpoint firstAuthor (aut : jstring) : jstring :=
  match aut with
  | [] => []
  | c :: rest =>
      if (c =? Chr.comma) || startsWith (js " and") aut then []
      else c :: firstAuthor rest
  end.

(** The text that [doi], [citation] and [abstract] look an entry up by,
    read from its [fieldMap]; [None] where the code says [continue].  The
    [key] criterion does not read the map (see [signature]). *)
Definition signatureOf (H : Host) (key : UniqueKey.t)
    (fieldMap : jsmap jstring ValueString.t) : option jstring :=
  match key with
  | UniqueKey.key => None
  | UniqueKey.doi =>
      let doi := alphaNum H <$> fieldValue (js "doi") fieldMap in
      if truthy doi then doi else None
  | UniqueKey.citation =>
      let ttl := fieldValue (js "title") fieldMap in
      let aut := fieldValue (js "author") fieldMap in
      match ttl, aut with
      | Some ((_ :: _) as ttl), Some ((_ :: _) as aut) =>
          Some (alphaNum H (firstAuthor aut) ++ [Chr.colon]
                ++ slice0 50 (alphaNum H ttl))
      | _, _ => None
      end
  | UniqueKey.abstract =>
      let abs := slice0 100 <$> (alphaNum H <$> fieldValue (js "abstract") fieldMap) in
      if truthy abs then abs else None
  end.

(** The same for an entry: the [key] criterion reads [item.key], the others
    read [item.fieldMap]; the outer [None] where an absent [fieldMap] would
    be dereferenced. *)
Definition signature (H : Host) (key : UniqueKey.t) (item : Entry.t)
    : option (option jstring) :=
  match key with
  | UniqueKey.key =>
      Some (if truthy (Entry.key item) then Entry.key item else None)
  | _ => fieldMap ← Entry.fieldMap item; Some (signatureOf H key fieldMap)
  end.

(** The loops of [combine] and [overwrite] over the absorbed entry's map. *)
Definition combineFields (from into : jsmap jstring ValueString.t)
    : jsmap jstring ValueString.t :=
  fold_left (fun m kv => if map_has (fst kv) m then m
                         else map_set (fst kv) (snd kv) m) from into.

Definition overwriteFields (from into : jsmap jstring ValueString.t)
    : jsmap jstring ValueString.t :=
  fold_left (fun m kv => map_set (fst kv) (snd kv) m) from into.

(** The strategy, applied to the kept entry [duplicateOf]; [None] where an
    absent [fieldMap] would be dereferenced. *)
Definition applyStrategy (strategy : MergeStrategy.t)
    (item duplicateOf : Entry.t) : option Entry.t :=
  match strategy with
  | MergeStrategy.first => Some duplicateOf
  | MergeStrategy.last =>
      Some (Entry.set_fields (Entry.fields item) duplicateOf)
  | MergeStrategy.combine =>
      from ← Entry.fieldMap item;
      match from, Entry.fieldMap duplicateOf with
      | [], _ => Some duplicateOf
      | _, None => None
      | _, Some into =>
          Some (Entry.set_fieldMap (Some (combineFields from into)) duplicateOf)
      end
  | MergeStrategy.overwrite =>
      from ← Entry.fieldMap item;
      match from, Entry.fieldMap duplicateOf with
      | [], _ => Some duplicateOf
      | _, None => None
      | _, Some into =>
          Some (Entry.set_fieldMap (Some (overwriteFields from into)) duplicateOf)
      end
  end.

(** The branch taken when a merge-enabled criterion has found [item] to be
    a duplicate of [duplicateOf]. *)
Definition mergeDuplicate (strategy : MergeStrategy.t) (item duplicateOf : ref)
    (st : State) : option State :=
  e ← getEntry (heap st) item;
  let flagged := Entry.set_duplicate true e in
  let h := <[item := EntryItem flagged]> (heap st) in
  d ← getEntry h duplicateOf;
  let w := mkWarning DUPLICATE_ENTRY
             (showKey (Entry.key e) ++ js " appears to be a duplicate of "
              ++ showKey (Entry.key d) ++ js " and was removed.")
             item (Some duplicateOf) in
  d' ← applyStrategy strategy flagged d;
  Some (push_warning w (set_heap (<[duplicateOf := EntryItem d']> h) st)).

Definition warnDuplicateKey (item : ref) (st : State) : option State :=
  e ← getEntry (heap st) item;
  Some (push_warning
          (mkWarning DUPLICATE_KEY
             (showKey (Entry.key e) ++ js " is a duplicate entry key.")
             item None) st).

(** The loop over [uniqCheck] for one entry. *)
Fixpoint checkUniq (H : Host) (strategy : MergeStrategy.t)
    (criteria : jsmap UniqueKey.t bool) (item : ref) (st : State)
    : option State :=
  match criteria with
  | [] => Some st
  | (key, merge) :: rest =>
      e ← getEntry (heap st) item;
      sig ← signature H key e;
      match sig with
      | None => checkUniq H strategy rest item st
      | Some sig =>
          match indexOf key st !! sig with
          | None =>
              checkUniq H strategy rest item
                (set_indexOf key (<[sig := item]> (indexOf key st)) st)
          | Some duplicateOf =>
              if merge then mergeDuplicate strategy item duplicateOf st
              else warnDuplicateKey item st
          end
      end
  end.

(** One turn of the first loop over [items]. *)
Definition indexItem (H : Host) (o : Opt.t) (criteria : jsmap UniqueKey.t bool)
    (st : State) (item : ref) : option State :=
  match getEntry (heap st) item with
  | None => Some st
  | Some e =>
      let st :=
        if truthy (Entry.key e) then st
        else push_warning
               (mkWarning MISSING_KEY
                  (showKey (Entry.key e) ++ js " does not have an entry key.")
                  item None) st in
      let fieldMap := buildFieldMap H o (Entry.fields e) in
      let st :=
        set_heap (<[item := EntryItem (Entry.set_fieldMap (Some fieldMap) e)]>
                    (heap st)) st in
      checkUniq H (Opt.mergeStrategy o) criteria item st
  end.

(** A loop whose body may throw. *)
Fixpoint forEach {S A : Type} (body : S -> A -> option S) (l : list A) (s : S)
    : option S :=
  match l with
  | [] => Some s
  | a :: l' => s' ← body s a; forEach body l' s'
  end.

Definition indexItems (H : Host) (o : Opt.t) (items : list ref) (h : store)
    : option State :=
  forEach (indexItem H o (uniqCheck (Opt.merge o))) items
    (mkState h ∅ ∅ ∅ ∅ []).

(** ** The sort *)

Local Open Scope Z_scope.

(** [Array.prototype.sort] is stable; with a consistent comparator its
    result is the one of the insertion sort below.  [a] goes before [b] when
    the comparator does not answer a positive number. *)
Fixpoint insertInOrder {A : Type} (cmp : A -> A -> Z) (a : A) (l : list A) : list A :=
  match l with
  | [] => [a]
  | b :: l' => if cmp a b <=? 0 then a :: l else b :: insertInOrder cmp a l'
  end.

Definition array_sort {A : Type} (cmp : A -> A -> Z) (l : list A) : list A :=
  foldr (insertInOrder cmp) [] l.

(** A sort key without its dash. *)
Definition stripDash (key : jstring) : jstring :=
  if startsWith [Chr.dash] key then slice1 key else key.

(** The value an entry is sorted by under [key]. *)
Definition sortValue (H : Host) (item : Entry.t) (key : jstring) : jstring :=
  toLowerCase H
    (if bool_decide (key = js "key") then
       (if truthy (Entry.key item) then default [] (Entry.key item) else [])
     else if bool_decide (key = js "type") then Entry.type item
     else default [] (Entry.fieldMap item ≫= fieldValue key)).

Definition makeSortIndex (H : Host) (sort : list jstring) (item : Entry.t)
    : jsmap jstring jstring :=
  fold_left (fun sortIndex key =>
               let key := stripDash key in
               map_set key (sortValue H item key) sortIndex)
    sort [].

(** One turn of the loop that fills [sortIndexes]; the second component is
    the stack [preceedingMeta]. *)
Definition sortIndexStep (H : Host) (sort : list jstring) (h : store)
    (st : gmap ref (jsmap jstring jstring) * list ref) (item : ref)
    : gmap ref (jsmap jstring jstring) * list ref :=
  let '(sortIndexes, preceedingMeta) := st in
  match getEntry h item with
  | None => (sortIndexes, preceedingMeta ++ [item])
  | Some e =>
      let sortIndex := makeSortIndex H sort e in
      (fold_left (fun m meta => <[meta := sortIndex]> m)
         (reverse preceedingMeta) (<[item := sortIndex]> sortIndexes), [])
  end.

Definition makeSortIndexes (H : Host) (sort : list jstring) (h : store)
    (items : list ref) : gmap ref (jsmap jstring jstring) :=
  fst (fold_left (sortIndexStep H sort h) items (∅, [])).

(** U+FFF0 *)
Definition sentinel : jstring := [65520%N].

(** [sortIndexes.get(a)?.get(key) ?? sentinel] *)
Definition indexValue (sortIndexes : gmap ref (jsmap jstring jstring))
    (key : jstring) (a : ref) : jstring :=
  default sentinel (sortIndexes !! a ≫= map_get key).

(** The comparator of one pass, for the sort key [sortKey] as configured
    (with its dash). *)
Definition compareBy (H : Host) (sortIndexes : gmap ref (jsmap jstring jstring))
    (sortKey : jstring) (a b : ref) : Z :=
  let desc := startsWith [Chr.dash] sortKey in
  let key := if desc then slice1 sortKey else sortKey in
  let ia := indexValue sortIndexes key a in
  let ib := indexValue sortIndexes key b in
  localeCompare H (if desc then ib else ia) (if desc then ia else ib).

(** The passes, from the last sort key to the first. *)
Definition sortPasses (H : Host) (sortIndexes : gmap ref (jsmap jstring jstring))
    (sort : list jstring) (items : list ref) : list ref :=
  foldr (fun sortKey items => array_sort (compareBy H sortIndexes sortKey) items)
    items sort.

Definition sortItems (H : Host) (sort : list jstring) (h : store)
    (items : list ref) : list ref :=
  sortPasses H (makeSortIndexes H sort h items) sort items.

(** ** The serialiser *)

(** [val.match(/^[1-9][0-9]*$/)] *)
Definition isNumeric (val : jstring) : bool :=
  match val with
  | c :: rest => (49 <=? c)%N && (c <=? 57)%N && forallb is_digit rest
  | [] => false
  end.

(** What is written after the equals sign. *)
Definition renderValue (H : Host) (o : Opt.t) (k : jstring)
    (field : ValueString.t) : jstring :=
  let val := ValueString.value field in
  let dig3 := toLowerCase H (slice0 3 val) in
  if Opt.numeric o && isNumeric val then val
  else if Opt.numeric o && bool_decide (k = js "month")
          && bool_decide (dig3 ∈ MONTHS) then dig3
  else if bool_decide (ValueString.datatype field = Datatype.braced)
          || Opt.curly o then [Chr.lbrace] ++ val ++ [Chr.rbrace]
  else if bool_decide (ValueString.datatype field = Datatype.quoted)
       then [Chr.quote] ++ val ++ [Chr.quote]
  else val.

Definition indentOf (o : Opt.t) : jstring :=
  if Opt.tab o then [Chr.tab]
  else replicate (match Opt.space o with SpaceTrue => 2 | SpaceNumber n => n end)
         Chr.space.

Definition alignOf (o : Opt.t) : nat :=
  match Opt.align o with AlignFalse => 1 | AlignNumber n => n end.

(** [sortFields] once [sortProperties] and [true] have been resolved. *)
Definition sortFieldsOf (o : Opt.t) : list jstring :=
  let sortFields :=
    match Opt.sortProperties o with
    | Some IsTrue => IsTrue
    | Some (IsList l) => IsList l
    | _ => Opt.sortFields o
    end in
  match sortFields with
  | IsFalse => []
  | IsTrue => DEFAULT_FIELD_ORDER
  | IsList l => l
  end.

Definition renderField (H : Host) (o : Opt.t)
    (fieldMap : jsmap jstring ValueString.t) (k : jstring) : jstring :=
  match map_get k fieldMap with
  | None => []
  | Some field =>
      js "," ++ [Chr.newline] ++ indentOf o
      ++ padEnd (alignOf o - 1) k ++ js " = " ++ renderValue H o k field
  end.

Definition renderEntry (H : Host) (o : Opt.t) (item : Entry.t)
    (fieldMap : jsmap jstring ValueString.t) : jstring :=
  let sortedFieldNames :=
    set_of_list [] (sortFieldsOf o ++ map_keys fieldMap) in
  [Chr.at_sign] ++ toLowerCase H (Entry.type item) ++ [Chr.lbrace]
  ++ (if truthy (Entry.key item) then default [] (Entry.key item) else [])
  ++ concat (renderField H o fieldMap <$> sortedFieldNames)
  ++ [Chr.newline; Chr.rbrace; Chr.newline].

(** [item.comment.replace(/^[ \t]*\n|[ \t]*$/g, '')]: the blank first line
    goes, and so do the blanks at the end. *)
Definition trimComment (comment : jstring) : jstring :=
  let '(_, r) := span is_blank comment in
  let body := match r with
              | c :: r' => if (c =? Chr.newline)%N then r' else comment
              | [] => comment
              end in
  reverse (snd (span is_blank (reverse body))).

(** One turn of the output loop, on the text so far and the store; [None]
    where an absent [fieldMap] would be dereferenced. *)
Definition writeItem (H : Host) (o : Opt.t) (st : jstring * store) (item : ref)
    : option (jstring * store) :=
  let '(bibtex, h) := st in
  match h !! item with
  | None => Some st
  | Some (StringItem name raw) =>
      Some (bibtex ++ js "@string{" ++ name ++ js " = " ++ raw
            ++ [Chr.rbrace; Chr.newline], h)
  | Some (PreambleItem raw) =>
      Some (bibtex ++ js "@preamble{" ++ raw ++ [Chr.rbrace; Chr.newline], h)
  | Some (CommentItem comment) =>
      if Opt.stripComments o then Some st
      else if Opt.tidyComments o then
        Some (bibtex ++ (match trim comment with
                         | [] => []
                         | c => c ++ [Chr.newline]
                         end), h)
      else Some (bibtex ++ trimComment comment, h)
  | Some (EntryItem e) =>
      if Entry.duplicate e then Some st
      else
        fieldMap ← Entry.fieldMap e;
        Some (bibtex ++ renderEntry H o e fieldMap,
              <[item := EntryItem (Entry.set_fieldMap None e)]> h)
  end.

Definition writeItems (H : Host) (o : Opt.t) (items : list ref) (h : store)
    : option (jstring * store) :=
  forEach (writeItem H o) items ([], h).

(** ** The pipeline *)

Record Result := mkResult {
  bibtex : jstring;
  result_warnings : list Warning;
  (** the entries, as references into [objects] *)
  entries : list ref;
  (** the objects as [tidy] leaves them *)
  objects : store }.

(** The entries of a result, dereferenced. *)
Definition entriesOf (r : Result) : list Entry.t :=
  omap (getEntry (objects r)) (entries r).

Definition sortOf (o : Opt.t) : option (list jstring) :=
  match Opt.sort o with
  | IsFalse => None
  | IsTrue => Some DEFAULT_ENTRY_ORDER
  | IsList l => Some l
  end.

(** [tidy] from the parsed items on. *)
Definition tidyItems (H : Host) (o : Opt.t) (parsed : store) : option Result :=
  let items := seq 0 (length parsed) in
  st ← indexItems H o items parsed;
  let items :=
    match sortOf o with
    | Some sort => sortItems H sort (heap st) items
    | None => items
    end in
  '(bibtex, h) ← writeItems H o items (heap st);
  let bibtex :=
    if endsWith [Chr.newline] bibtex then bibtex else bibtex ++ [Chr.newline] in
  Some (mkResult bibtex (warnings st)
          (List.filter (fun item => bool_decide (is_Some (getEntry h item))) items)
          h).

Definition tidy (H : Host) (input : jstring) (o : Opt.t) : option Result :=
  tidyItems H o (parse H input).

Local Open Scope N_scope.

(** ** Notions of the statements *)

(** A comparator is consistent when swapping its arguments flips the sign
    of its answer and [<= 0] is transitive: what [Array.prototype.sort]
    asks of it, and what [localeCompare] provides. *)
Definition consistent {A : Type} (cmp : A -> A -> Z) : Prop :=
  (forall a b, Z.sgn (cmp b a) = (- Z.sgn (cmp a b))%Z)
  /\ (forall a b c, (cmp a b <= 0 -> cmp b c <= 0 -> cmp a c <= 0)%Z).

(** The first comparator decides; the second breaks its ties. *)
Definition lexCompare {A : Type} (c1 c2 : A -> A -> Z) (a b : A) : Z :=
  let r := c1 a b in if (r =? 0)%Z then c2 a b else r.

(** The single comparator the specification words: the sort keys in their
    order of priority, each with the comparison of its pass. *)
Fixpoint compositeCompare (H : Host)
    (sortIndexes : gmap ref (jsmap jstring jstring)) (sort : list jstring)
    : ref -> ref -> Z :=
  match sort with
  | [] => fun _ _ => 0%Z
  | sortKey :: rest =>
      lexCompare (compareBy H sortIndexes sortKey)
        (compositeCompare H sortIndexes rest)
  end.

(** The items of [l] that the comparator does not tell apart from [a], in
    their order in [l]. *)
Definition tiesOf {A : Type} (cmp : A -> A -> Z) (a : A) (l : list A) : list A :=
  List.filter (fun x => (cmp a x =? 0)%Z) l.

(** [l'] is [l] sorted by a stable sort: the same items, in the order of
    the comparator, the items it does not tell apart in their order in
    [l]. *)
Definition stablySorted {A : Type} (cmp : A -> A -> Z) (l l' : list A) : Prop :=
  l' ≡ₚ l
  /\ StronglySorted (fun x y => (cmp x y <= 0)%Z) l'
  /\ forall a, tiesOf cmp a l' = tiesOf cmp a l.

(** [s] does not begin with white space. *)
Definition noLeadingSpace (s : jstring) : bool :=
  match s with c :: _ => negb (is_space c) | [] => true end.

(** The entry at [item] carries the duplicate flag. *)
Definition isDropped (h : store) (item : ref) : bool :=
  match getEntry h item with Some e => Entry.duplicate e | None => false end.

(** The keys of the returned entries, in the order of the list. *)
Definition keysInOrder (r : Result) : list (option jstring) :=
  Entry.key <$> entriesOf r.

(** The criteria in the order in which the loop over [uniqCheck] meets
    them. *)
Definition criteriaOrder (merge : BoolOrList UniqueKey.t) : list UniqueKey.t :=
  map_keys (uniqCheck merge).

(** ** Readings of the loops used in the proofs *)

(** What the escaper's loop appends when it is entered with [escapeMode]. *)
Fixpoint escapeFrom (H : Host) (escapeMode : bool) (str : jstring) : jstring :=
  match str with
  | [] => []
  | ch :: rest =>
      if escapeMode then ch :: escapeFrom H false rest
      else if ch =? Chr.backslash then ch :: escapeFrom H true rest
      else escapeChar H ch ++ escapeFrom H false rest
  end.

(** The [escapeMode] the loop ends with when it is entered with a given one. *)
Fixpoint modeFrom (escapeMode : bool) (str : jstring) : bool :=
  match str with
  | [] => escapeMode
  | ch :: rest =>
      if escapeMode then modeFrom false rest
      else modeFrom (ch =? Chr.backslash) rest
  end.

(** The text the output loop appends for [item]. *)
Definition itemText (H : Host) (o : Opt.t) (h : store) (item : ref) : jstring :=
  match h !! item with
  | None => []
  | Some (StringItem name raw) =>
      js "@string{" ++ name ++ js " = " ++ raw ++ [Chr.rbrace; Chr.newline]
  | Some (PreambleItem raw) =>
      js "@preamble{" ++ raw ++ [Chr.rbrace; Chr.newline]
  | Some (CommentItem comment) =>
      if Opt.stripComments o then []
      else if Opt.tidyComments o then
        match trim comment with [] => [] | c => c ++ [Chr.newline] end
      else trimComment comment
  | Some (EntryItem e) =>
      if Entry.duplicate e then []
      else renderEntry H o e (default [] (Entry.fieldMap e))
  end.

(** What the output loop leaves of an object it has passed. *)
Definition written (x : BibTeXItem) : BibTeXItem :=
  match x with
  | EntryItem e =>
      if Entry.duplicate e then x else EntryItem (Entry.set_fieldMap None e)
  | _ => x
  end.

(** The store after the turn of the output loop for [item]. *)
Definition passed (h : store) (item : ref) : store :=
  match h !! item with Some x => <[item := written x]> h | None => h end.

(** [bibtex] with the final newline seen to. *)
Definition withFinalNewline (bibtex : jstring) : jstring :=
  if endsWith [Chr.newline] bibtex then bibtex else bibtex ++ [Chr.newline].

(** The first loop has passed the items below [k]: the entries among them
    have their [fieldMap], and so has every entry that a criterion's map
    holds. *)
Definition indexed (parsed : store) (k : nat) (st : State) : Prop :=
  (forall i, is_entry <$> heap st !! i = is_entry <$> parsed !! i)
  /\ (forall i e, (i < k)%nat -> getEntry (heap st) i = Some e ->
                  is_Some (Entry.fieldMap e))
  /\ (forall key sig d, indexOf key st !! sig = Some d ->
        exists e, getEntry (heap st) d = Some e /\ is_Some (Entry.fieldMap e)).

(** ** The claims that the code does not meet, as the specification words
    them *)

(** The order the specification words: [key] first, then the requested
    criteria in their configured order. *)
Definition statedOrder (merge : BoolOrList UniqueKey.t) : list UniqueKey.t :=
  UniqueKey.key :: set_of_list [UniqueKey.key] (mergeKeys merge).

(** The first step as the specification words it: every run of white space
    becomes one space, and the ends are trimmed. *)
Definition space_run_match (s : jstring) : option (jstring * nat) :=
  match fst (span is_space s) with
  | [] => None
  | ws => Some ([Chr.space], length ws)
  end.

Definition statedWhitespace (value : jstring) : jstring :=
  trim (replaceAll space_run_match 0 value).

(** A bare non-negative integer, as the specification words the numeric
    rule: digits and nothing else. *)
Definition isNonNegativeInteger (val : jstring) : bool :=
  match val with [] => false | _ => forallb is_digit val end.

(** ** A host and inputs for the examples

    ASCII case conversion, comparison by code units, a few rows of the
    escape table.  The general statements hold for every host; this one
    serves the examples, whose texts are ASCII. *)

Definition asciiLower (s : jstring) : jstring :=
  (fun c => if is_upper c then c + 32 else c) <$> s.
Definition asciiUpper (s : jstring) : jstring :=
  (fun c => if is_lower c then c - 32 else c) <$> s.

Fixpoint codeUnitCompare (a b : jstring) : Z :=
  match a, b with
  | [], [] => 0%Z
  | [], _ :: _ => (-1)%Z
  | _ :: _, [] => 1%Z
  | x :: a', y :: b' =>
      if x <? y then (-1)%Z else if y <? x then 1%Z else codeUnitCompare a' b'
  end.

Definition sampleTable : list (jstring * jstring) :=
  [(js "0023", js "\#"); (js "0025", js "\%"); (js "0026", js "\&")].

Definition sampleHost (parse : jstring -> store) : Host :=
  mkHost codeUnitCompare asciiLower asciiLower asciiUpper sampleTable parse.

(** The host of the examples that do not read a text. *)
Definition asciiHost : Host := sampleHost (fun _ => []).

Definition sampleField (name value : string) (d : Datatype.t) : Field.t :=
  Field.mk (js name) (js value) (js value) d.

(** Two entries under the same key, indexed, the second about to be merged
    into the first. *)
Definition sampleKept : Entry.t :=
  Entry.mk (Some (js "sweig42")) (js "book")
    [sampleField "title" "The impossible book" Datatype.braced;
     sampleField "year" "1942" Datatype.number]
    (Some [(js "title", ValueString.mk (js "The impossible book") Datatype.braced);
           (js "year", ValueString.mk (js "1942") Datatype.number)])
    false.

Definition sampleAbsorbed : Entry.t :=
  Entry.mk (Some (js "sweig42")) (js "book")
    [sampleField "title" "Foo" Datatype.braced;
     sampleField "n" "1" Datatype.number]
    (Some [(js "title", ValueString.mk (js "Foo") Datatype.braced);
           (js "n", ValueString.mk (js "1") Datatype.number)])
    false.

Definition sampleState : State :=
  mkState [EntryItem sampleKept; EntryItem sampleAbsorbed]
    {[ js "sweig42" := 0%nat ]} ∅ ∅ ∅ [].

(** The two entries of [sampleState], as the parser returns them. *)
Definition samplePair : store :=
  [EntryItem (Entry.set_fieldMap None sampleKept);
   EntryItem (Entry.set_fieldMap None sampleAbsorbed)].

(** An entry without a year before an entry with one. *)
Definition sampleUndated : BibTeXItem :=
  EntryItem (Entry.mk (Some (js "a")) (js "misc")
               [sampleField "title" "Undated" Datatype.braced] None false).

Definition sampleDated : BibTeXItem :=
  EntryItem (Entry.mk (Some (js "b")) (js "misc")
               [sampleField "title" "Dated" Datatype.braced;
                sampleField "year" "2009" Datatype.braced] None false).

Definition yearHost : Host := sampleHost (fun _ => [sampleUndated; sampleDated]).

(** Two entries with the same key and the same DOI. *)
Definition sampleTwins : store :=
  [EntryItem (Entry.mk (Some (js "k")) (js "misc")
                [sampleField "doi" "10.1/x" Datatype.braced] None false);
   EntryItem (Entry.mk (Some (js "k")) (js "misc")
                [sampleField "doi" "10.1/X" Datatype.braced] None false)].

(** [{ numeric: true }] *)
Definition numericOptions : Opt.t := Opt.set_numeric true Opt.default.

(** [{ sort: [...] }] *)
Definition sortOptions (sort : list string) : Opt.t :=
  Opt.set_sort (IsList (js <$> sort)) Opt.default.

(** [{ escape: false }] *)
Definition plainOptions : Opt.t := Opt.set_escape false Opt.default.

(** [{ merge: [...] }] *)
Definition mergeOptions (merge : list UniqueKey.t) : Opt.t :=
  Opt.set_merge (IsList merge) Opt.default.

(** [{ merge: ['key'], mergeStrategy: 'last' }] *)
Definition lastOptions : Opt.t :=
  Opt.set_mergeStrategy MergeStrategy.last (mergeOptions [UniqueKey.key]).

(** An entry with one braced field, as the serialiser prints it. *)
Definition pagesText (pages : string) : jstring :=
  js "@article{k,
  pages         = {" ++ js pages ++ js "}
}
".

(** The item the parser returns for that text. *)
Definition pagesItems (pages : string) : store :=
  [EntryItem (Entry.mk (Some (js "k")) (js "article")
                [Field.mk (js "pages") (js pages)
                   ([Chr.lbrace] ++ js pages ++ [Chr.rbrace]) Datatype.braced]
                None false)].

(** A reader of the two texts of the example; what it answers for them is
    what the parser answers. *)
Definition pagesReader (input : jstring) : store :=
  if bool_decide (input = pagesText "1-2-3") then pagesItems "1-2-3"
  else if bool_decide (input = pagesText "1--2-3") then pagesItems "1--2-3"
  else [].

(** ** Further notions: the field map, the warnings, the order of the
    output *)

(** The name a field is stored under: [field.name.toLocaleLowerCase()]. *)
Definition lnameOf (H : Host) (field : Field.t) : jstring :=
  toLocaleLowerCase H (Field.name field).

(** What the normaliser stores for a field. *)
Definition storedField (H : Host) (o : Opt.t) (field : Field.t) : ValueString.t :=
  ValueString.mk (trim (normalizeValue H o (lnameOf H field) field))
    (Field.datatype field).

(** The first field of the list that is stored under [name]. *)
Definition firstNamed (H : Host) (name : jstring) (fields : list Field.t)
    : option Field.t :=
  head (List.filter (fun field => bool_decide (lnameOf H field = name)) fields).

(** The entry at [item] has no key, or an empty one. *)
Definition keyless (h : store) (item : ref) : bool :=
  match getEntry h item with
  | Some e => negb (truthy (Entry.key e))
  | None => false
  end.

Definition isMissingKey (w : Warning) : bool :=
  match code w with MISSING_KEY => true | _ => false end.

Definition isDuplicateEntry (w : Warning) : bool :=
  match code w with DUPLICATE_ENTRY => true | _ => false end.

(** What a warning says of the store [h]: a missing key is missing, a
    duplicate key is a key, and a duplicate entry is flagged and names an
    entry that stands before it. *)
Definition soundWarning (h : store) (w : Warning) : Prop :=
  match code w with
  | MISSING_KEY => keyless h (entry w) = true /\ duplicateOf w = None
  | DUPLICATE_KEY =>
      (exists e, getEntry h (entry w) = Some e /\ truthy (Entry.key e) = true)
      /\ duplicateOf w = None
  | DUPLICATE_ENTRY =>
      exists d, duplicateOf w = Some d /\ (d < entry w)%nat
                /\ is_Some (getEntry h d) /\ isDropped h (entry w) = true
  end.

(** [h'] is [h] after some turns of the first loop: the entries are the
    same objects, with their keys, and a flag once set stays set. *)
Definition evolves (h h' : store) : Prop :=
  forall i,
    match getEntry h i with
    | None => getEntry h' i = None
    | Some e =>
        exists e', getEntry h' i = Some e'
                   /\ Entry.key e' = Entry.key e
                   /\ (Entry.duplicate e = true -> Entry.duplicate e' = true)
    end.

(** The first loop has passed the items below [k] (the warnings' side). *)
Definition warned (parsed : store) (k : nat) (st : State) : Prop :=
  evolves parsed (heap st)
  /\ (forall key sig d, indexOf key st !! sig = Some d -> (d < k)%nat)
  /\ Forall (soundWarning (heap st)) (warnings st)
  /\ entry <$> List.filter isMissingKey (warnings st)
     = List.filter (keyless parsed) (seq 0 k)
  /\ (forall i, isDropped (heap st) i = true ->
        isDropped parsed i = true
        \/ exists w, w ∈ warnings st /\ isDuplicateEntry w = true /\ entry w = i).

(** A warning of the duplicate loop comes from a criterion of the map: a
    dropped entry from one that merges, a repeated key from one that does
    not. *)
Definition fromCriterion (criteria : jsmap UniqueKey.t bool) (w : Warning) : Prop :=
  match code w with
  | DUPLICATE_ENTRY => exists key, (key, true) ∈ criteria
  | DUPLICATE_KEY => exists key, (key, false) ∈ criteria
  | MISSING_KEY => True
  end.

Definition isDuplicateKey (w : Warning) : bool :=
  match code w with DUPLICATE_KEY => true | _ => false end.

(** The item at [j] is an entry under the key [sig]. *)
Definition hasKey (parsed : store) (sig : jstring) (j : ref) : bool :=
  bool_decide (Entry.key <$> getEntry parsed j = Some (Some sig)).

(** The first entry that has the key of the entry at [i], when one stands
    before it. *)
Definition firstWithKey (parsed : store) (i : ref) : option ref :=
  match getEntry parsed i with
  | Some e =>
      match Entry.key e with
      | Some ((_ :: _) as sig) => List.find (hasKey parsed sig) (seq 0 i)
      | _ => None
      end
  | None => None
  end.

(** The entries below [k] that repeat a key, each with the first entry
    under that key. *)
Definition repeatedKeys (parsed : store) (k : nat) : list (ref * ref) :=
  omap (fun i => (fun d => (i, d)) <$> firstWithKey parsed i) (seq 0 k).

(** The warnings of the duplicate loop. *)
Definition hits (st : State) : list Warning :=
  List.filter (fun w => negb (isMissingKey w)) (warnings st).

(** The first loop has passed the items below [k], [key] being the only
    criterion, with the flag [merge]. *)
Definition keyIndexed (merge : bool) (parsed : store) (k : nat) (st : State)
    : Prop :=
  (forall sig, sig <> [] ->
     keys st !! sig = List.find (hasKey parsed sig) (seq 0 k))
  /\ (fun w => (entry w, duplicateOf w)) <$> hits st
     = (fun p => (p.1, if merge then Some p.2 else None))
       <$> repeatedKeys parsed k
  /\ Forall (fun w => code w = if merge then DUPLICATE_ENTRY else DUPLICATE_KEY)
       (hits st).

(** The names the serialiser writes a field for, in the order of the text:
    the names of [sortFields] that the entry has, each once, then the other
    names of the entry. *)
Definition fieldOrder (sortFields : list jstring)
    (fieldMap : jsmap jstring ValueString.t) : list jstring :=
  List.filter (fun k => map_has k fieldMap) (set_of_list [] sortFields)
  ++ List.filter (fun k => bool_decide (k ∉ sortFields)) (map_keys fieldMap).

(** The items in the order of the output loop. *)
Definition finalOrder (H : Host) (o : Opt.t) (h : store) (n : nat) : list ref :=
  match sortOf o with
  | Some sort => sortItems H sort h (seq 0 n)
  | None => seq 0 n
  end.

(** [val.replace(/\\?_/g, '\\%5F')] *)
Definition encodeUnderscores (val : jstring) : jstring :=
  replaceAll underscore_match 0 val.

(** [{ sortFields: [...] }] *)
Definition sortFieldsOptions (names : list string) : Opt.t :=
  let o := Opt.default in
  Opt.mk (Opt.omit o) (Opt.curly o) (Opt.numeric o) (Opt.space o) (Opt.tab o)
    (Opt.align o) (Opt.sort o) (Opt.merge o) (Opt.mergeStrategy o)
    (Opt.stripEnclosingBraces o) (Opt.dropAllCaps o) (Opt.escape o)
    (IsList (js <$> names)) (Opt.sortProperties o) (Opt.stripComments o)
    (Opt.encodeUrls o) (Opt.tidyComments o).

(** [{ encodeUrls: true, escape: false }] *)
Definition urlOptions : Opt.t :=
  let o := Opt.default in
  Opt.mk (Opt.omit o) (Opt.curly o) (Opt.numeric o) (Opt.space o) (Opt.tab o)
    (Opt.align o) (Opt.sort o) (Opt.merge o) (Opt.mergeStrategy o)
    (Opt.stripEnclosingBraces o) (Opt.dropAllCaps o) false
    (Opt.sortFields o) (Opt.sortProperties o) (Opt.stripComments o)
    true (Opt.tidyComments o).

(** Neither brace. *)
Definition no_brace (x : N) : bool :=
  negb ((x =? Chr.lbrace) || (x =? Chr.rbrace)).

(** Three indexed entries: [c] and [a] of 2001, then [b] of 1999. *)
Definition sampleShelf : store :=
  (fun '(key, year) =>
     EntryItem (Entry.mk (Some (js key)) (js "misc")
                  [sampleField "year" year Datatype.number]
                  (Some [(js "year", ValueString.mk (js year) Datatype.number)])
                  false))
  <$> [("c", "2001"); ("a", "2001"); ("b", "1999")]%string.

(** ** Notions for the comparison of two runs *)

(** An item without the raw field list of its entry. *)
Definition withoutFields (x : BibTeXItem) : BibTeXItem :=
  match x with
  | EntryItem e => EntryItem (Entry.set_fields [] e)
  | _ => x
  end.

(** Two stores that differ at most in the raw field lists of their
    entries. *)
Definition sameButFields (h h' : store) : Prop :=
  withoutFields <$> h = withoutFields <$> h'.

(** Two runs of the first loop that have passed the items below [k] and
    differ at most in the raw field lists of the entries they have
    passed. *)
Definition inStep (k : nat) (st st' : State) : Prop :=
  sameButFields (heap st) (heap st')
  /\ (forall i, (k <= i)%nat -> heap st !! i = heap st' !! i)
  /\ (forall key, indexOf key st = indexOf key st')
  /\ warnings st = warnings st'.

(** * Theorems *)

(** ** The character escaper *)

Section EscaperFacts.
Variable H : Host.

Lemma escape_loop_from (str acc : jstring) (mode : bool) :
  fold_left (escape_step H) str (acc, mode)
  = (acc ++ escapeFrom H mode str, modeFrom mode str).
Proof.
  revert acc mode.
  induction str as [|ch rest IH]; intros acc mode; simpl.
  - by rewrite app_nil_r.
  - destruct mode; simpl.
    + rewrite IH. by rewrite <- app_assoc.
    + destruct (ch =? Chr.backslash); rewrite IH; by rewrite <- app_assoc.
Qed.

Lemma escape_is_escapeFrom (str : jstring) :
  escapeSpecialCharacters H str = escapeFrom H false str.
Proof. unfold escapeSpecialCharacters, escape_loop. by rewrite escape_loop_from. Qed.

Lemma escapeMode_is_modeFrom (str : jstring) :
  escapeMode_after H str = modeFrom false str.
Proof. unfold escapeMode_after, escape_loop. by rewrite escape_loop_from. Qed.

Lemma escapeFrom_app (a b : jstring) (mode : bool) :
  escapeFrom H mode (a ++ b)
  = escapeFrom H mode a ++ escapeFrom H (modeFrom mode a) b.
Proof.
  revert mode. induction a as [|ch a IH]; intros mode; simpl; [done|].
  destruct mode; [by rewrite IH|].
  destruct (ch =? Chr.backslash); rewrite IH; [done|].
  by rewrite <- app_assoc.
Qed.

Lemma modeFrom_app (a b : jstring) (mode : bool) :
  modeFrom mode (a ++ b) = modeFrom (modeFrom mode a) b.
Proof.
  revert mode. induction a as [|ch a IH]; intros mode; simpl; [done|].
  destruct mode; by rewrite IH.
Qed.

(** C8, as the code has it.  A backslash that the escaper reads outside its
    skip mode (the scan of what stands before it, [before], ends with
    [escapeMode] off) turns the mode on; the character after it is copied as
    it is, whatever the table holds for it, and the mode is off again after
    that one character, so that the rest, [rest], is escaped as a text of
    its own.  Hence an existing [\&] comes out as [\&] and is not escaped
    again, while a [#] outside an escape sequence is replaced by the table's
    text, [\#] in the table of the tool. *)
Theorem escape_backslash_verbatim (before rest : jstring) (ch : N) :
  escapeMode_after H before = false ->
  map_get (hex4 Chr.hash) (specialCharacters H) = Some (js "\#") ->
  escapeSpecialCharacters H (before ++ Chr.backslash :: ch :: rest)
  = escapeSpecialCharacters H before ++ Chr.backslash :: ch
      :: escapeSpecialCharacters H rest
  /\ escapeMode_after H (before ++ [Chr.backslash]) = true
  /\ escapeMode_after H (before ++ [Chr.backslash; ch]) = false
  /\ escapeSpecialCharacters H (before ++ js "\&" ++ rest)
     = escapeSpecialCharacters H before ++ js "\&"
         ++ escapeSpecialCharacters H rest
  /\ escapeSpecialCharacters H (before ++ Chr.hash :: rest)
     = escapeSpecialCharacters H before ++ js "\#"
         ++ escapeSpecialCharacters H rest.
Proof.
  rewrite !escapeMode_is_modeFrom, !escape_is_escapeFrom.
  intros Hmode Htable.
  rewrite !escapeFrom_app, !modeFrom_app, Hmode.
  repeat split; try done.
  cbn [escapeFrom]. unfold escapeChar. rewrite Htable. reflexivity.
Qed.

(** The escaper never reads the table for the character after such a
    backslash: two hosts that differ in their tables only agree on it. *)
Lemma escapeFrom_skip (ch : N) (rest : jstring) :
  escapeFrom H true (ch :: rest) = ch :: escapeFrom H false rest.
Proof. done. Qed.
End EscaperFacts.

Lemma escape_backslash_verbatim_witness :
  escapeSpecialCharacters asciiHost (js "a" ++ Chr.backslash :: Chr.ampersand :: js "#")
  = escapeSpecialCharacters asciiHost (js "a") ++ Chr.backslash :: Chr.ampersand
      :: escapeSpecialCharacters asciiHost (js "#")
  /\ escapeMode_after asciiHost (js "a" ++ [Chr.backslash]) = true
  /\ escapeMode_after asciiHost (js "a" ++ [Chr.backslash; Chr.ampersand]) = false
  /\ escapeSpecialCharacters asciiHost (js "a" ++ js "\&" ++ js "#")
     = escapeSpecialCharacters asciiHost (js "a") ++ js "\&"
         ++ escapeSpecialCharacters asciiHost (js "#")
  /\ escapeSpecialCharacters asciiHost (js "a" ++ Chr.hash :: js "#")
     = escapeSpecialCharacters asciiHost (js "a") ++ js "\#"
         ++ escapeSpecialCharacters asciiHost (js "#").
Proof.
  apply (escape_backslash_verbatim asciiHost (js "a") (js "#") Chr.ampersand);
    reflexivity.
Defined.

(** A backslash that is itself the character skipped after a backslash
    starts no skip: in [\\&] the ampersand follows a backslash and is
    replaced by the table's text all the same. *)
Lemma escaped_backslash_starts_no_skip :
  escapeSpecialCharacters asciiHost
    ([Chr.backslash] ++ Chr.backslash :: Chr.ampersand :: [])
  = [Chr.backslash; Chr.backslash; Chr.backslash; Chr.ampersand]
  /\ escapeSpecialCharacters asciiHost
       ([Chr.backslash] ++ Chr.backslash :: Chr.ampersand :: [])
     <> escapeSpecialCharacters asciiHost [Chr.backslash]
        ++ Chr.backslash :: Chr.ampersand :: escapeSpecialCharacters asciiHost [].
Proof. split; [reflexivity | discriminate]. Qed.

Example escape_examples :
  escapeSpecialCharacters asciiHost (js "a # b") = js "a \# b"
  /\ escapeSpecialCharacters asciiHost (js "R\&D") = js "R\&D"
  /\ escapeSpecialCharacters asciiHost (js "R&D") = js "R\&D"
  /\ escapeSpecialCharacters asciiHost (js "\\&") = js "\\\&".
Proof. split; [|split; [|split]]; reflexivity. Qed.

(** ** Maps and sets in insertion order *)

Section JsMapFacts.
Context {K V : Type} `{EqDecision K}.
Implicit Types (m : list (K * V)) (k : K) (v : V).

Lemma map_get_None k m : map_get k m = None <-> k ∉ m.*1.
Proof.
  induction m as [|[k' v'] m IH]; simpl.
  - split; [intros _; apply not_elem_of_nil | done].
  - rewrite not_elem_of_cons. destruct (decide (k = k')); [|tauto].
    split; [done|]. intros [? _]. done.
Qed.

Lemma map_has_elem k m : map_has k m = true <-> k ∈ m.*1.
Proof.
  unfold map_has. destruct (map_get k m) eqn:E.
  - split; [intros _|done]. destruct (decide (k ∈ m.*1)); [done|].
    apply map_get_None in n. congruence.
  - apply map_get_None in E. split; [done|]. intros; contradiction.
Qed.

Lemma map_set_fresh k v m : k ∉ m.*1 -> map_set k v m = m ++ [(k, v)].
Proof.
  induction m as [|[k' v'] m IH]; simpl; [done|].
  rewrite not_elem_of_cons. intros [Hne Hnotin].
  destruct (decide (k = k')); [done|]. by rewrite IH.
Qed.

Lemma map_set_same k v m : (k, v) ∈ m -> NoDup m.*1 -> map_set k v m = m.
Proof.
  induction m as [|[k' v'] m IH]; simpl.
  { intros Hin. by apply elem_of_nil in Hin. }
  intros Hin Hnd. apply NoDup_cons in Hnd as [Hnotin Hnd].
  apply elem_of_cons in Hin as [Heq|Hin].
  - inversion Heq; subst. by rewrite decide_True.
  - destruct (decide (k = k')) as [->|Hne].
    + exfalso. apply Hnotin. apply list_elem_of_fmap. by exists (k', v).
    + by rewrite IH.
Qed.

Lemma map_get_set k k' v m :
  map_get k (map_set k' v m) = if decide (k = k') then Some v else map_get k m.
Proof.
  induction m as [|[k0 v0] m IH]; simpl.
  - by destruct (decide (k = k')).
  - destruct (decide (k' = k0)) as [->|Hne]; simpl.
    + by destruct (decide (k = k0)).
    + destruct (decide (k = k0)) as [->|Hne'].
      * rewrite decide_False; [done|congruence].
      * apply IH.
Qed.

Lemma map_set_NoDup k v m : NoDup m.*1 -> NoDup (map_set k v m).*1.
Proof.
  induction m as [|[k0 v0] m IH]; simpl.
  - intros _. apply NoDup_singleton.
  - rewrite NoDup_cons. intros [Hnotin Hnd].
    destruct (decide (k = k0)) as [->|Hne]; simpl.
    + by apply NoDup_cons.
    + apply NoDup_cons. split; [|by apply IH].
      intros Hin. apply Hnotin.
      destruct (decide (k0 ∈ m.*1)) as [|Hout]; [done|].
      apply map_get_None in Hout.
      assert (Hget : map_get k0 (map_set k v m) = None).
      { rewrite map_get_set. by rewrite decide_False. }
      apply map_get_None in Hget. done.
Qed.

(** Only the members of [seen] matter to [set_of_list]. *)
Lemma set_of_list_ext (seen seen' l : list K) :
  (forall x, x ∈ seen <-> x ∈ seen') ->
  set_of_list seen l = set_of_list seen' l.
Proof.
  revert seen seen'. induction l as [|k l IH]; intros seen seen' Hext; simpl; [done|].
  destruct (decide (k ∈ seen)) as [Hin|Hnotin].
  - rewrite decide_True by (by apply Hext). by apply IH.
  - rewrite decide_False by (by rewrite <- Hext). f_equal. apply IH.
    intros x. rewrite !elem_of_cons. by rewrite Hext.
Qed.

Lemma set_of_list_not_seen (seen l : list K) k :
  k ∈ set_of_list seen l -> (k ∉ seen) /\ (k ∈ l).
Proof.
  revert seen. induction l as [|k0 l IH]; intros seen; simpl.
  - intros Hin. by apply elem_of_nil in Hin.
  - destruct (decide (k0 ∈ seen)).
    + intros Hin. apply IH in Hin as [? ?]. split; [done|by apply list_elem_of_further].
    + intros Hin. apply elem_of_cons in Hin as [->|Hin].
      * split; [done|apply list_elem_of_here].
      * apply IH in Hin as [Hns ?]. rewrite not_elem_of_cons in Hns.
        split; [tauto|by apply list_elem_of_further].
Qed.
End JsMapFacts.

(** ** The duplicate criteria *)

Lemma requested_criteria (l : list UniqueKey.t) (m : jsmap UniqueKey.t bool) :
  Forall (fun kv => kv.2 = true) m -> NoDup m.*1 ->
  fold_left (fun m key => map_set key true m) l m
  = m ++ ((fun key => (key, true)) <$> set_of_list m.*1 l).
Proof.
  revert m. induction l as [|k l IH]; intros m Htrue Hnd; simpl.
  - by rewrite app_nil_r.
  - destruct (decide (k ∈ m.*1)) as [Hin|Hnotin].
    + rewrite map_set_same; [by apply IH| |done].
      apply list_elem_of_fmap in Hin as [[k' b] [-> Hin]].
      rewrite Forall_forall in Htrue. specialize (Htrue _ Hin). simpl in *.
      by subst.
    + rewrite map_set_fresh by done. rewrite IH.
      * rewrite <- app_assoc. simpl. do 3 f_equal.
        apply set_of_list_ext. intros x.
        rewrite fmap_app, elem_of_app, elem_of_cons. simpl.
        rewrite list_elem_of_singleton. tauto.
      * apply Forall_app. split; [done|]. by repeat constructor.
      * rewrite fmap_app. simpl. apply NoDup_app. split; [done|].
        split; [|apply NoDup_singleton].
        intros x Hx Hx'. apply list_elem_of_singleton in Hx'. by subst.
Qed.

(** C2, as the code has it.  The loop over [uniqCheck] meets the requested
    criteria first, each once, in the order of their first mention in the
    [merge] option, all flagged for merging; [key] is met where it was
    requested, and when it was not requested it comes last, flagged for the
    warning only. *)
Theorem uniqCheck_order (merge : BoolOrList UniqueKey.t) :
  uniqCheck merge
  = ((fun key => (key, true)) <$> set_of_list [] (mergeKeys merge))
    ++ (if bool_decide (UniqueKey.key ∈ mergeKeys merge) then []
        else [(UniqueKey.key, false)]).
Proof.
  unfold uniqCheck.
  rewrite (requested_criteria _ []) by (constructor).
  simpl. set (req := set_of_list [] (mergeKeys merge)).
  assert (Hkeys : ((fun key => (key, true)) <$> req).*1 = req).
  { rewrite <- list_fmap_compose. apply list_fmap_id. }
  destruct (map_has UniqueKey.key _) eqn:Hhas.
  - apply map_has_elem in Hhas. rewrite Hkeys in Hhas.
    apply set_of_list_not_seen in Hhas as [_ Hin].
    rewrite bool_decide_eq_true_2 by done. by rewrite app_nil_r.
  - assert (Hnot : UniqueKey.key ∉ req).
    { intros Hin. rewrite <- Hkeys in Hin. apply map_has_elem in Hin. congruence. }
    rewrite map_set_fresh by (by rewrite Hkeys).
    rewrite bool_decide_eq_false_2; [done|].
    intros Hin. apply Hnot. unfold req.
    clear -Hin. generalize (@nil UniqueKey.t) (not_elem_of_nil UniqueKey.key).
    induction (mergeKeys merge) as [|k l IH]; intros seen Hseen.
    + by apply elem_of_nil in Hin.
    + simpl. apply elem_of_cons in Hin as [<-|Hin].
      * rewrite decide_False by done. apply list_elem_of_here.
      * destruct (decide (k ∈ seen)); [by apply IH|].
        destruct (decide (UniqueKey.key = k)) as [<-|Hne]; [apply list_elem_of_here|].
        apply list_elem_of_further, IH; [done|].
        rewrite not_elem_of_cons. done.
Qed.

(** With [merge: ['doi']] the loop meets [doi] before [key]: the order is
    not the one the specification words. *)
Lemma key_is_not_checked_first :
  criteriaOrder (IsList [UniqueKey.doi]) = [UniqueKey.doi; UniqueKey.key]
  /\ criteriaOrder (IsList [UniqueKey.doi]) <> statedOrder (IsList [UniqueKey.doi]).
Proof. split; [reflexivity | discriminate]. Qed.

(** ** The field normaliser: white space *)

Lemma span_app (p : N -> bool) (a b : jstring) :
  forallb p a = true ->
  match b with c :: _ => p c = false | [] => True end ->
  span p (a ++ b) = (a, b).
Proof.
  intros Ha Hb. induction a as [|c a IH]; simpl in *.
  - destruct b as [|c b]; [done|]. simpl. by rewrite Hb.
  - apply andb_prop in Ha as [Hc Ha]. rewrite Hc, IH; done.
Qed.

Lemma span_all (p : N -> bool) (a : jstring) :
  forallb p a = true -> span p a = (a, []).
Proof.
  intros Ha. rewrite <- (app_nil_r a) at 1. by apply span_app.
Qed.

Lemma replaceAll_skip m (a b : jstring) :
  replaceAll m (length a) (a ++ b) = replaceAll m 0 b.
Proof. induction a as [|c a IH]; simpl; [by destruct b|done]. Qed.

Lemma noLeadingSpace_head (s : jstring) :
  noLeadingSpace s = true ->
  match s with c :: _ => is_space c = false | [] => True end.
Proof. destruct s; simpl; [done|]. by intros ->%negb_true_iff. Qed.

Lemma collapseNewlines_run (ws rest : jstring) :
  ws <> [] -> forallb is_space ws = true -> noLeadingSpace rest = true ->
  collapseNewlines (ws ++ rest)
  = (if bool_decide (Chr.newline ∈ ws) then [Chr.space] else ws)
    ++ collapseNewlines rest.
Proof.
  unfold collapseNewlines. intros Hne Hws Hrest.
  apply noLeadingSpace_head in Hrest.
  destruct (bool_decide (Chr.newline ∈ ws)) eqn:Hnl.
  - destruct ws as [|c ws]; [done|]. clear Hne.
    change ((c :: ws) ++ rest) with (c :: (ws ++ rest)).
    cbn [replaceAll]. unfold newline_run_match at 1.
    change (c :: (ws ++ rest)) with ((c :: ws) ++ rest).
    rewrite span_app by done. cbn [fst]. rewrite Hnl.
    cbn [length Nat.pred]. by rewrite replaceAll_skip.
  - clear Hne. apply bool_decide_eq_false in Hnl.
    induction ws as [|c ws IH]; [done|].
    change ((c :: ws) ++ rest) with (c :: (ws ++ rest)).
    cbn [replaceAll]. unfold newline_run_match at 1.
    change (c :: (ws ++ rest)) with ((c :: ws) ++ rest).
    rewrite span_app by done. cbn [fst].
    rewrite bool_decide_eq_false_2 by done.
    simpl in Hws. apply andb_prop in Hws as [_ Hws].
    rewrite IH; [done|done|].
    intros Hin. apply Hnl. by apply list_elem_of_further.
Qed.

Lemma collapseNewlines_char (c : N) (rest : jstring) :
  is_space c = false ->
  collapseNewlines (c :: rest) = c :: collapseNewlines rest.
Proof.
  unfold collapseNewlines. intros Hc. cbn [replaceAll].
  unfold newline_run_match at 1. cbn [span]. rewrite Hc. cbn [fst].
  rewrite bool_decide_eq_false_2; [done|apply not_elem_of_nil].
Qed.

Lemma trim_spec (a m b : jstring) :
  forallb is_space a = true -> forallb is_space b = true ->
  noLeadingSpace m = true -> noLeadingSpace (reverse m) = true ->
  trim (a ++ m ++ b) = m.
Proof.
  intros Ha Hb Hm Hm'. unfold trim, trimStart, trimEnd.
  assert (Hb' : forallb is_space (reverse b) = true).
  { apply forallb_forall. intros x Hx. rewrite forallb_forall in Hb.
    apply Hb. apply list_elem_of_In. apply list_elem_of_In in Hx.
    by rewrite elem_of_reverse in Hx. }
  destruct m as [|c m].
  - cbn [app]. rewrite (span_all _ (a ++ b)).
    + reflexivity.
    + rewrite forallb_app. by rewrite Ha, Hb.
  - rewrite span_app; [|done|by apply noLeadingSpace_head in Hm].
    cbn [snd]. rewrite reverse_app.
    rewrite span_app; [|done|by apply noLeadingSpace_head in Hm'].
    cbn [snd]. apply reverse_involutive.
Qed.

(** C3, as the code has it.  On a value that is not a concatenation the
    normaliser first replaces every run of white space in which a newline
    occurs by one space, leaves the runs of white space without a newline as
    they are, and trims the white space at both ends; the later steps work
    on the result. *)
Theorem removeWhitespace_newline_runs :
  (forall H o lname field,
      Field.datatype field <> Datatype.concatinate ->
      normalizeValue H o lname field
      = laterSteps H o lname (trim (collapseNewlines (Field.value field))))
  /\ collapseNewlines [] = []
  /\ (forall c rest,
        is_space c = false ->
        collapseNewlines (c :: rest) = c :: collapseNewlines rest)
  /\ (forall ws rest,
        ws <> [] -> forallb is_space ws = true -> noLeadingSpace rest = true ->
        collapseNewlines (ws ++ rest)
        = (if bool_decide (Chr.newline ∈ ws) then [Chr.space] else ws)
          ++ collapseNewlines rest)
  /\ (forall a m b,
        forallb is_space a = true -> forallb is_space b = true ->
        noLeadingSpace m = true -> noLeadingSpace (reverse m) = true ->
        trim (a ++ m ++ b) = m).
Proof.
  split; [|split; [done|split; [|split]]].
  - intros H o lname field Hdt. unfold normalizeValue, removeWhitespace.
    by destruct (Field.datatype field).
  - apply collapseNewlines_char.
  - apply collapseNewlines_run.
  - apply trim_spec.
Qed.

Lemma removeWhitespace_newline_runs_witness :
  normalizeValue asciiHost Opt.default (js "title")
    (Field.mk (js "title") (js " a  b") (js "{ a  b}") Datatype.braced)
  = laterSteps asciiHost Opt.default (js "title") (trim (collapseNewlines (js " a  b")))
  /\ collapseNewlines (js "a b") = 97%N :: collapseNewlines (js " b")
  /\ collapseNewlines ([Chr.space; Chr.newline; Chr.tab] ++ js "b")
     = [Chr.space] ++ collapseNewlines (js "b")
  /\ collapseNewlines (js "  " ++ js "b") = js "  " ++ collapseNewlines (js "b")
  /\ trim (js " " ++ js "a  b" ++ [Chr.newline]) = js "a  b".
Proof.
  destruct removeWhitespace_newline_runs as (Hfirst & _ & Hchar & Hrun & Htrim).
  split; [by apply Hfirst|].
  split; [by apply Hchar|].
  split; [by apply (Hrun [Chr.space; Chr.newline; Chr.tab])|].
  split; [by apply (Hrun (js "  "))|].
  by apply Htrim.
Defined.

(** Two spaces between two words stay two spaces: the first step is not the
    one the specification words. *)
Lemma inner_spaces_are_kept :
  removeWhitespace (js "a  b") = js "a  b"
  /\ statedWhitespace (js "a  b") = js "a b"
  /\ removeWhitespace (js "a  b") <> statedWhitespace (js "a  b").
Proof. split; [reflexivity | split; [reflexivity | discriminate]]. Qed.

(** ** The serialiser: numeric values *)

Lemma isNumeric_iff (val : jstring) :
  isNumeric val = true
  <-> isNonNegativeInteger val = true /\ head val <> Some 48%N.
Proof.
  destruct val as [|c rest]; simpl; [by split; [|intros [? _]]|].
  unfold is_digit.
  rewrite !andb_true_iff, !N.leb_le. split.
  - intros [[Hlo Hhi] Hrest]. repeat split; [lia|done|done|].
    intros [= ->]. lia.
  - intros [[[Hlo Hhi] Hrest] Hne]. repeat split; [|done|done].
    assert (c <> 48%N) by congruence. lia.
Qed.

(** C6, as the code has it.  With numeric rendering on, a value that is a
    positive integer written without a leading zero (digits only, the first
    of them not [0]) is emitted as it is, without braces or quotes, whatever
    its datatype and the setting of [curly]. *)
Theorem numeric_value_is_bare (H : Host) (o : Opt.t) (k : jstring)
    (field : ValueString.t) (fieldMap : jsmap jstring ValueString.t) :
  Opt.numeric o = true ->
  isNonNegativeInteger (ValueString.value field) = true ->
  head (ValueString.value field) <> Some 48%N ->
  map_get k fieldMap = Some field ->
  renderValue H o k field = ValueString.value field
  /\ renderField H o fieldMap k
     = js "," ++ [Chr.newline] ++ indentOf o ++ padEnd (alignOf o - 1) k
       ++ js " = " ++ ValueString.value field.
Proof.
  intros Hnum Hint Hzero Hget.
  assert (Hv : renderValue H o k field = ValueString.value field).
  { unfold renderValue. rewrite Hnum.
    rewrite (proj2 (isNumeric_iff _)) by done. done. }
  split; [done|]. unfold renderField. by rewrite Hget, Hv.
Qed.

Lemma numeric_value_is_bare_witness :
  renderValue asciiHost numericOptions (js "year")
    (ValueString.mk (js "1998") Datatype.braced) = js "1998"
  /\ renderField asciiHost numericOptions
       [(js "year", ValueString.mk (js "1998") Datatype.braced)] (js "year")
     = js "," ++ [Chr.newline] ++ indentOf numericOptions
       ++ padEnd (alignOf numericOptions - 1) (js "year")
       ++ js " = " ++ js "1998".
Proof.
  apply (numeric_value_is_bare asciiHost numericOptions (js "year")
           (ValueString.mk (js "1998") Datatype.braced)
           [(js "year", ValueString.mk (js "1998") Datatype.braced)]).
  - reflexivity.
  - reflexivity.
  - discriminate.
  - reflexivity.
Defined.

(** [0] is a bare non-negative integer, and with numeric rendering on a
    braced [0] keeps its braces; so does, when [curly] is on as well, a [0]
    that stood without braces or quotes in the source. *)
Lemma zero_keeps_its_braces :
  isNonNegativeInteger (js "0") = true
  /\ renderValue asciiHost numericOptions (js "volume")
       (ValueString.mk (js "0") Datatype.braced) = js "{0}"
  /\ renderValue asciiHost numericOptions (js "volume")
       (ValueString.mk (js "0") Datatype.braced) <> js "0"
  /\ renderValue asciiHost (Opt.set_curly true numericOptions) (js "volume")
       (ValueString.mk (js "0") Datatype.number) = js "{0}".
Proof.
  split; [reflexivity | split; [reflexivity | split; [discriminate | reflexivity]]].
Qed.

(** ** The merge strategies *)

Section MergeFacts.
Implicit Types (from into : jsmap jstring ValueString.t) (k : jstring)
  (v : ValueString.t).

Lemma combineFields_keeps from into k v :
  map_get k into = Some v -> map_get k (combineFields from into) = Some v.
Proof.
  unfold combineFields. revert into.
  induction from as [|[k0 v0] from IH]; intros into Hget; simpl; [done|].
  destruct (map_has k0 into) eqn:Hhas; [by apply IH|].
  apply IH. rewrite map_get_set. destruct (decide (k = k0)) as [->|]; [|done].
  unfold map_has in Hhas. by rewrite Hget in Hhas.
Qed.

Lemma combineFields_adds from into k :
  map_get k into = None ->
  map_get k (combineFields from into) = map_get k from.
Proof.
  revert into.
  induction from as [|[k0 v0] from IH]; intros into Hget; [done|].
  unfold combineFields. cbn [fold_left fst snd map_get].
  destruct (map_has k0 into) eqn:Hhas.
  - destruct (decide (k = k0)) as [->|Hne]; [|by apply IH].
    unfold map_has in Hhas. by rewrite Hget in Hhas.
  - destruct (decide (k = k0)) as [->|Hne].
    + apply combineFields_keeps. rewrite map_get_set. by rewrite decide_True.
    + apply IH. rewrite map_get_set. by rewrite decide_False.
Qed.

Lemma combineFields_prefix from into :
  into `prefix_of` combineFields from into.
Proof.
  unfold combineFields. revert into.
  induction from as [|[k0 v0] from IH]; intros into; simpl; [done|].
  destruct (map_has k0 into) eqn:Hhas; [apply IH|].
  etrans; [|apply IH]. rewrite map_set_fresh.
  - by apply prefix_app_r.
  - intros Hin. apply map_has_elem in Hin. congruence.
Qed.

Lemma overwriteFields_other from into k :
  map_get k from = None ->
  map_get k (overwriteFields from into) = map_get k into.
Proof.
  unfold overwriteFields. revert into.
  induction from as [|[k0 v0] from IH]; intros into Hget; simpl in *; [done|].
  destruct (decide (k = k0)); [done|].
  rewrite IH by done. rewrite map_get_set. by rewrite decide_False.
Qed.

Lemma overwriteFields_takes from into k v :
  NoDup (map_keys from) -> map_get k from = Some v ->
  map_get k (overwriteFields from into) = Some v.
Proof.
  unfold map_keys. revert into.
  induction from as [|[k0 v0] from IH]; intros into Hnd Hget; simpl in *; [done|].
  apply NoDup_cons in Hnd as [Hnotin Hnd].
  destruct (decide (k = k0)) as [->|Hne].
  - injection Hget as ->.
    pose proof (overwriteFields_other from (map_set k0 v into) k0) as Hother.
    rewrite Hother.
    + rewrite map_get_set. by rewrite decide_True.
    + by apply map_get_None.
  - by apply IH.
Qed.
Lemma combineFields_NoDup from into :
  NoDup (map_keys into) -> NoDup (map_keys (combineFields from into)).
Proof.
  unfold combineFields, map_keys. revert into.
  induction from as [|[k0 v0] from IH]; intros into Hnd; simpl; [done|].
  apply IH. destruct (map_has k0 into); [done|by apply map_set_NoDup].
Qed.

Lemma overwriteFields_NoDup from into :
  NoDup (map_keys into) -> NoDup (map_keys (overwriteFields from into)).
Proof.
  unfold overwriteFields, map_keys. revert into.
  induction from as [|[k0 v0] from IH]; intros into Hnd; simpl; [done|].
  apply IH. by apply map_set_NoDup.
Qed.

(** The map that the normaliser builds holds every name once. *)
Lemma buildFieldMap_NoDup (H : Host) (o : Opt.t) (fields : list Field.t) :
  NoDup (map_keys (buildFieldMap H o fields)).
Proof.
  unfold buildFieldMap, map_keys.
  assert (Hnil : NoDup (@nil (jstring * ValueString.t)).*1) by constructor.
  revert Hnil. generalize (@nil (jstring * ValueString.t)).
  induction fields as [|field fields IH]; intros m Hnd; simpl; [done|].
  apply IH. unfold addField.
  destruct (bool_decide _ || map_has _ m); [done|by apply map_set_NoDup].
Qed.
End MergeFacts.

(** The merge branch, strategy by strategy.  When a merge-enabled
    criterion finds the entry [item] to be a duplicate of the earlier entry
    [duplicateOf], the kept entry is changed
    by the strategy and by nothing else.  Under [combine] every field of its
    map keeps its value and its place, and the names it lacks get the
    absorbed entry's values; under [overwrite] every name the absorbed entry
    defines gets the absorbed entry's value, the other names keeping theirs;
    under [first] the kept entry is what it was; under [last] its field list
    is the absorbed entry's field list.  The absorbed entry is flagged as a
    duplicate in every case. *)
Theorem mergeDuplicate_strategies (strategy : MergeStrategy.t)
    (item duplicateOf : ref) (st : State) (absorbed kept : Entry.t)
    (from into : jsmap jstring ValueString.t) :
  item <> duplicateOf ->
  getEntry (heap st) item = Some absorbed ->
  getEntry (heap st) duplicateOf = Some kept ->
  Entry.fieldMap absorbed = Some from ->
  Entry.fieldMap kept = Some into ->
  NoDup (map_keys from) ->
  exists st' kept',
    mergeDuplicate strategy item duplicateOf st = Some st'
    /\ getEntry (heap st') item = Some (Entry.set_duplicate true absorbed)
    /\ getEntry (heap st') duplicateOf = Some kept'
    /\ match strategy with
       | MergeStrategy.combine =>
           exists m, kept' = Entry.set_fieldMap (Some m) kept
             /\ into `prefix_of` m
             /\ (forall k v, map_get k into = Some v -> map_get k m = Some v)
             /\ (forall k, map_get k into = None -> map_get k m = map_get k from)
       | MergeStrategy.overwrite =>
           exists m, kept' = Entry.set_fieldMap (Some m) kept
             /\ (forall k v, map_get k from = Some v -> map_get k m = Some v)
             /\ (forall k, map_get k from = None -> map_get k m = map_get k into)
       | MergeStrategy.first => kept' = kept
       | MergeStrategy.last =>
           kept' = Entry.set_fields (Entry.fields absorbed) kept
           /\ Entry.fields kept' = Entry.fields absorbed
       end.
Proof.
  intros Hne Hitem Hdup Hfrom Hinto Hnd.
  unfold mergeDuplicate, getEntry in *.
  destruct (heap st !! item) as [[| | |e]|] eqn:Hi; try done.
  injection Hitem as ->.
  destruct (heap st !! duplicateOf) as [[| | |d]|] eqn:Hd; try done.
  injection Hdup as ->.
  cbn [mbind option_bind].
  rewrite list_lookup_insert_ne by done. rewrite Hd. cbn [mbind option_bind].
  assert (Hlen1 : (item < length (heap st))%nat) by (by eapply lookup_lt_Some).
  assert (Hlen2 : (duplicateOf < length (heap st))%nat) by (by eapply lookup_lt_Some).
  assert (Happly : exists kept', applyStrategy strategy
            (Entry.set_duplicate true absorbed) kept = Some kept'
          /\ match strategy with
       | MergeStrategy.combine =>
           exists m, kept' = Entry.set_fieldMap (Some m) kept
             /\ into `prefix_of` m
             /\ (forall k v, map_get k into = Some v -> map_get k m = Some v)
             /\ (forall k, map_get k into = None -> map_get k m = map_get k from)
       | MergeStrategy.overwrite =>
           exists m, kept' = Entry.set_fieldMap (Some m) kept
             /\ (forall k v, map_get k from = Some v -> map_get k m = Some v)
             /\ (forall k, map_get k from = None -> map_get k m = map_get k into)
       | MergeStrategy.first => kept' = kept
       | MergeStrategy.last =>
           kept' = Entry.set_fields (Entry.fields absorbed) kept
           /\ Entry.fields kept' = Entry.fields absorbed
       end).
  { destruct strategy;
      cbn [applyStrategy Entry.set_duplicate Entry.fieldMap Entry.fields].
    - by eexists.
    - by eexists.
    - rewrite Hfrom, Hinto. cbn [mbind option_bind].
      destruct from as [|kv from'] eqn:Efrom.
      + eexists; split; [done|]. exists into. repeat split; try done.
        destruct kept; simpl in *; by subst.
      + rewrite <- Efrom in *. eexists; split; [done|].
        exists (combineFields from into). split; [done|].
        split; [apply combineFields_prefix|].
        split; [intros; by apply combineFields_keeps|].
        intros; by apply combineFields_adds.
    - rewrite Hfrom, Hinto. cbn [mbind option_bind].
      destruct from as [|kv from'] eqn:Efrom.
      + eexists; split; [done|]. exists into. repeat split; try done.
        destruct kept; simpl in *; by subst.
      + rewrite <- Efrom in *. eexists; split; [done|].
        exists (overwriteFields from into). split; [done|].
        split; [intros; by apply overwriteFields_takes|].
        intros; by apply overwriteFields_other. }
  destruct Happly as (kept' & -> & Hspec). cbn [mbind option_bind].
  eexists _, kept'. split; [done|]. cbn [heap push_warning set_heap].
  split; [|split; [|done]].
  - rewrite list_lookup_insert_ne by done.
    rewrite list_lookup_insert_eq by done. done.
  - rewrite list_lookup_insert_eq; [done|]. by rewrite length_insert.
Qed.

Lemma mergeDuplicate_strategies_witness :
  exists st' kept',
    mergeDuplicate MergeStrategy.combine 1 0 sampleState = Some st'
    /\ getEntry (heap st') 1 = Some (Entry.set_duplicate true sampleAbsorbed)
    /\ getEntry (heap st') 0 = Some kept'
    /\ exists m, kept' = Entry.set_fieldMap (Some m) sampleKept
         /\ default [] (Entry.fieldMap sampleKept) `prefix_of` m
         /\ (forall k v, map_get k (default [] (Entry.fieldMap sampleKept)) = Some v
                         -> map_get k m = Some v)
         /\ (forall k, map_get k (default [] (Entry.fieldMap sampleKept)) = None
                       -> map_get k m
                          = map_get k (default [] (Entry.fieldMap sampleAbsorbed))).
Proof.
  apply (mergeDuplicate_strategies MergeStrategy.combine 1 0 sampleState
           sampleAbsorbed sampleKept
           (default [] (Entry.fieldMap sampleAbsorbed))
           (default [] (Entry.fieldMap sampleKept))).
  - discriminate.
  - reflexivity.
  - reflexivity.
  - reflexivity.
  - reflexivity.
  - apply (bool_decide_unpack _). vm_compute. exact I.
Defined.

Example merge_examples :
  (Entry.fieldMap <$> (mergeDuplicate MergeStrategy.combine 1 0 sampleState
                       ≫= fun st => getEntry (heap st) 0))
  = Some (Some [(js "title", ValueString.mk (js "The impossible book") Datatype.braced);
                (js "year", ValueString.mk (js "1942") Datatype.number);
                (js "n", ValueString.mk (js "1") Datatype.number)])
  /\ (Entry.fieldMap <$> (mergeDuplicate MergeStrategy.overwrite 1 0 sampleState
                          ≫= fun st => getEntry (heap st) 0))
     = Some (Some [(js "title", ValueString.mk (js "Foo") Datatype.braced);
                   (js "year", ValueString.mk (js "1942") Datatype.number);
                   (js "n", ValueString.mk (js "1") Datatype.number)])
  /\ (mergeDuplicate MergeStrategy.first 1 0 sampleState
      ≫= fun st => getEntry (heap st) 0) = Some sampleKept
  /\ (mergeDuplicate MergeStrategy.last 1 0 sampleState
      ≫= fun st => getEntry (heap st) 0)
     = Some (Entry.set_fields (Entry.fields sampleAbsorbed) sampleKept).
Proof. split; [|split; [|split]]; reflexivity. Qed.

(** ** The sort: stable passes and the composite comparator *)

Section SortFacts.
Context {A : Type}.
Implicit Types (cmp c : A -> A -> Z) (a b x y : A) (l m s : list A).

Local Open Scope Z_scope.

Lemma consistent_total cmp a b : consistent cmp -> cmp a b <= 0 \/ cmp b a <= 0.
Proof. intros [Hsgn _]. specialize (Hsgn a b). lia. Qed.

Lemma consistent_flip cmp a b : consistent cmp -> 0 < cmp a b -> cmp b a < 0.
Proof. intros [Hsgn _]. specialize (Hsgn a b). lia. Qed.

Lemma consistent_zero cmp a b : consistent cmp -> cmp a b = 0 -> cmp b a = 0.
Proof. intros [Hsgn _]. specialize (Hsgn a b). lia. Qed.

Lemma lexCompare_le c1 c2 a b :
  lexCompare c1 c2 a b <= 0
  <-> c1 a b < 0 \/ (c1 a b = 0 /\ c2 a b <= 0).
Proof. unfold lexCompare. destruct (Z.eqb_spec (c1 a b) 0); lia. Qed.

Lemma lexCompare_consistent c1 c2 :
  consistent c1 -> consistent c2 -> consistent (lexCompare c1 c2).
Proof.
  intros H1 H2. split.
  - intros a b. unfold lexCompare.
    destruct H1 as [S1 _], H2 as [S2 _].
    specialize (S1 a b). specialize (S2 a b).
    destruct (Z.eqb_spec (c1 a b) 0), (Z.eqb_spec (c1 b a) 0); lia.
  - intros a b c. rewrite !lexCompare_le. intros Hab Hbc.
    pose proof (proj2 H1 a b c) as T1.
    pose proof (proj2 H1 b c a) as T2.
    pose proof (proj2 H1 c a b) as T3.
    pose proof (proj2 H2 a b c) as T4.
    pose proof (proj1 H1 a b) as Sab.
    pose proof (proj1 H1 b c) as Sbc.
    pose proof (proj1 H1 a c) as Sac.
    destruct (Z.eq_dec (c1 a c) 0) as [Hac|Hac]; lia.
Qed.

Lemma zero_consistent : consistent (fun _ _ : A => 0).
Proof. split; intros; lia. Qed.

(** *** Insertion keeps the elements and the order *)

Lemma insertInOrder_Permutation cmp a l : insertInOrder cmp a l ≡ₚ a :: l.
Proof.
  induction l as [|b l IH]; simpl; [done|].
  destruct (cmp a b <=? 0); [done|]. rewrite IH. apply Permutation_swap.
Qed.

Lemma array_sort_Permutation cmp l : array_sort cmp l ≡ₚ l.
Proof.
  induction l as [|a l IH]; simpl; [done|].
  rewrite insertInOrder_Permutation. by rewrite IH.
Qed.

Lemma insertInOrder_StronglySorted cmp a l :
  consistent cmp ->
  StronglySorted (fun x y => cmp x y <= 0) l ->
  StronglySorted (fun x y => cmp x y <= 0) (insertInOrder cmp a l).
Proof.
  intros Hc Hs. induction Hs as [|b l Hs IH Hb]; simpl.
  - repeat constructor.
  - destruct (Z.leb_spec (cmp a b) 0) as [Hle|Hgt].
    + constructor; [by constructor|]. constructor; [done|].
      eapply Forall_impl; [exact Hb|]. intros z Hz. simpl in Hz.
      by apply (proj2 Hc a b z).
    + constructor; [done|]. rewrite insertInOrder_Permutation.
      constructor; [|done]. apply consistent_flip in Hgt; [lia|done].
Qed.

Lemma array_sort_StronglySorted cmp l :
  consistent cmp ->
  StronglySorted (fun x y => cmp x y <= 0) (array_sort cmp l).
Proof.
  intros Hc. induction l as [|a l IH]; simpl; [constructor|].
  by apply insertInOrder_StronglySorted.
Qed.

(** A list in order is left as it is: the sort is stable. *)
Lemma array_sort_sorted cmp l :
  StronglySorted (fun x y => cmp x y <= 0) l -> array_sort cmp l = l.
Proof.
  induction 1 as [|a l Hs IH Ha]; simpl; [done|]. rewrite IH.
  destruct l as [|b l]; simpl; [done|].
  apply Forall_cons in Ha as [Hab _].
  by rewrite (proj2 (Z.leb_le _ _) Hab).
Qed.

Lemma array_sort_zero l : array_sort (fun _ _ => 0) l = l.
Proof.
  apply array_sort_sorted. induction l; constructor; [done|].
  apply Forall_forall. intros; lia.
Qed.

(** *** Two passes *)

(** Below elements that the second comparator does not put before [x],
    the first comparator inserts [x] like the composite one. *)
Lemma insertInOrder_lexCompare c1 c2 x s :
  Forall (fun z => c2 x z <= 0) s ->
  insertInOrder c1 x s = insertInOrder (lexCompare c1 c2) x s.
Proof.
  induction 1 as [|z s Hz Hs IH]; simpl; [done|]. rewrite IH.
  destruct (Z.leb_spec (c1 x z) 0) as [Hle|Hgt];
    destruct (Z.leb_spec (lexCompare c1 c2 x z) 0) as [Hle'|Hgt'];
    try done; exfalso; unfold lexCompare in *;
    destruct (Z.eqb_spec (c1 x z) 0); lia.
Qed.

(** Two elements that the comparator tells apart can be inserted in
    either order. *)
Lemma insertInOrder_swap cmp x y s :
  consistent cmp -> cmp x y <> 0 ->
  insertInOrder cmp y (insertInOrder cmp x s)
  = insertInOrder cmp x (insertInOrder cmp y s).
Proof.
  intros Hc Hxy.
  pose proof (proj1 Hc x y) as Sxy.
  induction s as [|z s IH]; simpl.
  - destruct (Z.leb_spec (cmp y x) 0), (Z.leb_spec (cmp x y) 0);
      try done; lia.
  - pose proof (proj2 Hc x z y) as T1. pose proof (proj2 Hc y z x) as T2.
    pose proof (proj2 Hc x y z) as T3. pose proof (proj2 Hc y x z) as T4.
    pose proof (proj1 Hc x z) as Sxz. pose proof (proj1 Hc y z) as Syz.
    destruct (Z.leb_spec (cmp x z) 0) as [Hxz|Hxz];
      destruct (Z.leb_spec (cmp y z) 0) as [Hyz|Hyz]; simpl.
    + destruct (Z.leb_spec (cmp y x) 0), (Z.leb_spec (cmp x y) 0);
        try lia; try done.
      * rewrite (proj2 (Z.leb_le _ _) Hxz). done.
      * rewrite (proj2 (Z.leb_le _ _) Hyz). done.
    + destruct (Z.leb_spec (cmp y x) 0); [lia|].
      rewrite (proj2 (Z.leb_le _ _) Hxz).
      destruct (Z.leb_spec (cmp y z) 0); [lia|]. done.
    + destruct (Z.leb_spec (cmp x y) 0); [lia|].
      rewrite (proj2 (Z.leb_le _ _) Hyz).
      destruct (Z.leb_spec (cmp x z) 0); [lia|]. done.
    + destruct (Z.leb_spec (cmp y z) 0); [lia|].
      destruct (Z.leb_spec (cmp x z) 0); [lia|]. by rewrite IH.
Qed.

Lemma array_sort_insert c1 c2 x m :
  consistent c1 -> consistent c2 ->
  StronglySorted (fun a b => c2 a b <= 0) m ->
  array_sort c1 (insertInOrder c2 x m)
  = insertInOrder (lexCompare c1 c2) x (array_sort c1 m).
Proof.
  intros H1 H2 Hs. induction Hs as [|y m Hs IH Hy]; simpl; [done|].
  assert (Hy' : Forall (fun z => c2 y z <= 0) (array_sort c1 m)).
  { by rewrite array_sort_Permutation. }
  destruct (Z.leb_spec (c2 x y) 0) as [Hle|Hgt]; simpl.
  - apply insertInOrder_lexCompare. rewrite insertInOrder_Permutation.
    constructor; [done|]. eapply Forall_impl; [exact Hy'|].
    intros z Hz. simpl in Hz. by apply (proj2 H2 x y z).
  - rewrite IH.
    rewrite (insertInOrder_lexCompare c1 c2 y (insertInOrder _ x _)).
    + rewrite (insertInOrder_lexCompare c1 c2 y (array_sort c1 m)) by done.
      apply insertInOrder_swap; [by apply lexCompare_consistent|].
      unfold lexCompare. destruct (Z.eqb_spec (c1 x y) 0); lia.
    + rewrite insertInOrder_Permutation. constructor; [|done].
      apply consistent_flip in Hgt; [lia|done].
Qed.

(** A stable pass by [c2] followed by a stable pass by [c1] is one sort
    by [c1] with [c2] breaking the ties. *)
Lemma array_sort_twice c1 c2 l :
  consistent c1 -> consistent c2 ->
  array_sort c1 (array_sort c2 l) = array_sort (lexCompare c1 c2) l.
Proof.
  intros H1 H2. induction l as [|x l IH]; simpl; [done|].
  rewrite array_sort_insert; [|done|done|by apply array_sort_StronglySorted].
  by rewrite IH.
Qed.
(** *** The insertion sort is the stable sort *)

Lemma consistent_refl cmp a : consistent cmp -> cmp a a = 0.
Proof. intros [Hsgn _]. specialize (Hsgn a a). lia. Qed.

Lemma tiesOf_insertInOrder cmp a x s :
  consistent cmp ->
  tiesOf cmp a (insertInOrder cmp x s) = tiesOf cmp a (x :: s).
Proof.
  intros Hc. induction s as [|b s IH]; [done|]. cbn [insertInOrder].
  destruct (Z.leb_spec (cmp x b) 0) as [Hle|Hgt]; [done|].
  unfold tiesOf in *. cbn [List.filter] in *. rewrite IH.
  destruct (Z.eqb_spec (cmp a x) 0) as [Hax|Hax];
    destruct (Z.eqb_spec (cmp a b) 0) as [Hab|Hab]; try done.
  exfalso.
  pose proof (proj2 Hc x a b). pose proof (consistent_zero cmp a x Hc Hax).
  lia.
Qed.

Lemma array_sort_stable cmp l :
  consistent cmp -> stablySorted cmp l (array_sort cmp l).
Proof.
  intros Hc. split; [apply array_sort_Permutation|].
  split; [by apply array_sort_StronglySorted|].
  intros a. induction l as [|x l IH]; [done|]. cbn [array_sort foldr].
  rewrite tiesOf_insertInOrder by done.
  unfold tiesOf in *. cbn [List.filter]. change (foldr (insertInOrder cmp) [] l)
    with (array_sort cmp l). by rewrite IH.
Qed.

(** Two stable sorts of a list by a consistent comparator agree. *)
Lemma stablySorted_unique cmp l s t :
  consistent cmp -> stablySorted cmp l s -> stablySorted cmp l t -> s = t.
Proof.
  intros Hc (Hps & Hss & Hts) (Hpt & Hst & Htt).
  assert (Hperm : s ≡ₚ t) by (by rewrite Hps, Hpt).
  assert (Hties : forall a, tiesOf cmp a s = tiesOf cmp a t)
    by (intros a; by rewrite Hts, Htt).
  clear Hps Hpt Hts Htt l. revert t Hst Hperm Hties.
  induction Hss as [|x s Hss IH Hx]; intros t Hst Hperm Hties.
  - by apply Permutation_nil_l in Hperm.
  - destruct Hst as [|y t Hst Hy].
    { by apply Permutation_nil_r in Hperm. }
    assert (Hxy : cmp x y <= 0).
    { assert (Hin : y ∈ x :: s) by (rewrite Hperm; apply list_elem_of_here).
      apply elem_of_cons in Hin as [->|Hin].
      - by rewrite consistent_refl.
      - rewrite Forall_forall in Hx. by apply Hx. }
    assert (Hyx : cmp y x <= 0).
    { assert (Hin : x ∈ y :: t) by (rewrite <- Hperm; apply list_elem_of_here).
      apply elem_of_cons in Hin as [->|Hin].
      - by rewrite consistent_refl.
      - rewrite Forall_forall in Hy. by apply Hy. }
    assert (Hzero : cmp x y = 0).
    { pose proof (proj1 Hc x y). lia. }
    assert (Heq : x = y).
    { specialize (Hties x). unfold tiesOf in Hties. cbn [List.filter] in Hties.
      rewrite (consistent_refl cmp x Hc), Hzero in Hties. cbn in Hties.
      by injection Hties. }
    subst y. f_equal. apply IH; [done|by eapply Permutation_cons_inv|].
    intros a. specialize (Hties a). unfold tiesOf in *.
    cbn [List.filter] in Hties. destruct (cmp a x =? 0); [by injection Hties|done].
Qed.

End SortFacts.

Section SortPasses.
Variable H : Host.
Variable sortIndexes : gmap ref (jsmap jstring jstring).
Hypothesis localeCompare_consistent : consistent (localeCompare H).

Lemma compareBy_consistent (sortKey : jstring) :
  consistent (compareBy H sortIndexes sortKey).
Proof.
  destruct localeCompare_consistent as [Hsgn Htrans].
  unfold compareBy. destruct (startsWith _ sortKey); split; intros; eauto.
Qed.

Lemma compositeCompare_consistent (sort : list jstring) :
  consistent (compositeCompare H sortIndexes sort).
Proof.
  induction sort as [|sortKey rest IH]; simpl.
  - apply zero_consistent.
  - apply lexCompare_consistent; [apply compareBy_consistent|done].
Qed.

Lemma sortPasses_composite (sort : list jstring) (items : list ref) :
  sortPasses H sortIndexes sort items
  = array_sort (compositeCompare H sortIndexes sort) items.
Proof.
  induction sort as [|sortKey rest IH].
  - simpl. by rewrite array_sort_zero.
  - change (sortPasses H sortIndexes (sortKey :: rest) items)
      with (array_sort (compareBy H sortIndexes sortKey)
              (sortPasses H sortIndexes rest items)).
    rewrite IH.
    apply array_sort_twice;
      [apply compareBy_consistent|apply compositeCompare_consistent].
Qed.
End SortPasses.

(** The same holds of every sort that is stable, whatever its algorithm. *)
Lemma stable_passes_composite (H : Host)
    (sortIndexes : gmap ref (jsmap jstring jstring))
    (stableSort : (ref -> ref -> Z) -> list ref -> list ref)
    (sort : list jstring) (items : list ref) :
  consistent (localeCompare H) ->
  (forall cmp l, consistent cmp -> stablySorted cmp l (stableSort cmp l)) ->
  foldr (fun sortKey items => stableSort (compareBy H sortIndexes sortKey) items)
    items sort
  = stableSort (compositeCompare H sortIndexes sort) items.
Proof.
  intros Hc Hstable.
  assert (Hsame : forall cmp l, consistent cmp ->
                                stableSort cmp l = array_sort cmp l).
  { intros cmp l Hcmp. apply (stablySorted_unique cmp l); [done|by apply Hstable|].
    by apply array_sort_stable. }
  rewrite Hsame by (by apply compositeCompare_consistent).
  rewrite <- sortPasses_composite by done. unfold sortPasses.
  induction sort as [|sortKey rest IH]; [done|]. cbn [foldr].
  rewrite Hsame by (by apply compareBy_consistent). by rewrite IH.
Qed.

(** C7.  With a consistent [localeCompare], the stable passes of the sort,
    one for each sort key from the last to the first, leave the items in
    the order of a single stable sort by the composite comparator (the
    first sort key decides, the next one breaks its ties, and so on): the
    result is a permutation of the items, in the order of that comparator,
    the items it does not tell apart in the order they had; and it is the
    only list that is. *)
Theorem sortItems_composite (H : Host) (sort : list jstring) (h : store)
    (items : list ref) :
  consistent (localeCompare H) ->
  sortItems H sort h items
  = array_sort (compositeCompare H (makeSortIndexes H sort h items) sort) items
  /\ stablySorted (compositeCompare H (makeSortIndexes H sort h items) sort)
       items (sortItems H sort h items)
  /\ forall sorted,
       stablySorted (compositeCompare H (makeSortIndexes H sort h items) sort)
         items sorted ->
       sorted = sortItems H sort h items.
Proof.
  intros Hc. unfold sortItems.
  set (cmp := compositeCompare H (makeSortIndexes H sort h items) sort).
  assert (Hcmp : consistent cmp) by (by apply compositeCompare_consistent).
  rewrite sortPasses_composite by done. fold cmp.
  split; [done|]. split; [by apply array_sort_stable|].
  intros sorted Hsorted.
  apply (stablySorted_unique cmp items); [done|done|by apply array_sort_stable].
Qed.

(** *** The comparison by code units is consistent *)

Lemma codeUnitCompare_sgn (a b : jstring) :
  Z.sgn (codeUnitCompare b a) = (- Z.sgn (codeUnitCompare a b))%Z.
Proof.
  revert b. induction a as [|x a IH]; intros [|y b]; simpl; try done.
  destruct (N.ltb_spec x y), (N.ltb_spec y x); try done; lia.
Qed.

Lemma codeUnitCompare_trans (a b c : jstring) :
  (codeUnitCompare a b <= 0 -> codeUnitCompare b c <= 0
   -> codeUnitCompare a c <= 0)%Z.
Proof.
  revert b c. induction a as [|x a IH]; intros [|y b] [|z c]; simpl; try lia.
  destruct (N.ltb_spec x y), (N.ltb_spec y x), (N.ltb_spec y z),
    (N.ltb_spec z y), (N.ltb_spec x z), (N.ltb_spec z x); try lia.
  apply IH.
Qed.

Lemma codeUnitCompare_consistent : consistent codeUnitCompare.
Proof. split; [apply codeUnitCompare_sgn | apply codeUnitCompare_trans]. Qed.

Lemma sortItems_composite_witness :
  consistent (localeCompare asciiHost)
  /\ sortItems asciiHost [js "year"; js "key"] sampleShelf [0; 1; 2]%nat
     = [2; 1; 0]%nat
  /\ sortItems asciiHost [js "year"; js "key"] sampleShelf [0; 1; 2]%nat
     = array_sort
         (compositeCompare asciiHost
            (makeSortIndexes asciiHost [js "year"; js "key"] sampleShelf
               [0; 1; 2]%nat)
            [js "year"; js "key"])
         [0; 1; 2]%nat
  /\ stablySorted
       (compositeCompare asciiHost
          (makeSortIndexes asciiHost [js "year"; js "key"] sampleShelf
             [0; 1; 2]%nat)
          [js "year"; js "key"])
       [0; 1; 2]%nat
       (sortItems asciiHost [js "year"; js "key"] sampleShelf [0; 1; 2]%nat)
  /\ forall sorted,
       stablySorted
         (compositeCompare asciiHost
            (makeSortIndexes asciiHost [js "year"; js "key"] sampleShelf
               [0; 1; 2]%nat)
            [js "year"; js "key"])
         [0; 1; 2]%nat sorted ->
       sorted
       = sortItems asciiHost [js "year"; js "key"] sampleShelf [0; 1; 2]%nat.
Proof.
  split; [apply codeUnitCompare_consistent|].
  split; [vm_compute; reflexivity|].
  apply (sortItems_composite asciiHost [js "year"; js "key"] sampleShelf
           [0; 1; 2]%nat).
  apply codeUnitCompare_consistent.
Defined.

(** On the shelf the order of the keys matters, and so does the dash. *)
Example passes_against_keys :
  sortPasses asciiHost
    (makeSortIndexes asciiHost [js "year"; js "key"] sampleShelf [0; 1; 2]%nat)
    [js "key"] [0; 1; 2]%nat = [1; 2; 0]%nat
  /\ sortItems asciiHost [js "key"; js "year"] sampleShelf [0; 1; 2]%nat
     = [1; 2; 0]%nat
  /\ sortItems asciiHost [js "-year"; js "key"] sampleShelf [0; 1; 2]%nat
     = [1; 0; 2]%nat.
Proof. vm_compute. done. Qed.

(** ** The sort: entries without the sort field *)

(** C1, on the code.  Sorted by [year], the entry that has no year is
    indexed under the empty text, not under the sentinel, and comes out
    before the entry of 2009. *)
Theorem missing_sort_field_goes_first :
  (keysInOrder <$> tidy yearHost [] (sortOptions ["year"%string]))
  = Some [Some (js "a"); Some (js "b")]
  /\ (fun st => indexValue
                  (makeSortIndexes yearHost [js "year"] (heap st) [0; 1]%nat)
                  (js "year") 0%nat)
     <$> indexItems yearHost (sortOptions ["year"%string]) [0; 1]%nat (parse yearHost [])
     = Some []
  /\ (Z.sgn (localeCompare yearHost [] (js "2009")) = -1)%Z.
Proof. split; [|split]; reflexivity. Qed.

(** ** The first loop always completes *)

Lemma getEntry_insert_ne (h : store) (i j : ref) (x : BibTeXItem) :
  i <> j -> getEntry (<[j := x]> h) i = getEntry h i.
Proof. intros Hne. unfold getEntry. by rewrite list_lookup_insert_ne. Qed.

Lemma getEntry_insert_eq (h : store) (j : ref) (e e' : Entry.t) :
  getEntry h j = Some e -> getEntry (<[j := EntryItem e']> h) j = Some e'.
Proof.
  unfold getEntry. intros Hj.
  destruct (h !! j) as [x|] eqn:Hx; [|done].
  rewrite list_lookup_insert_eq; [done|]. by eapply lookup_lt_Some.
Qed.

Lemma is_entry_insert (h : store) (i j : ref) (e e' : Entry.t) :
  getEntry h j = Some e ->
  is_entry <$> <[j := EntryItem e']> h !! i = is_entry <$> h !! i.
Proof.
  unfold getEntry. intros Hj.
  destruct (h !! j) as [[| | |e0]|] eqn:Hx; try done.
  destruct (decide (i = j)) as [->|Hne].
  - rewrite list_lookup_insert_eq by (by eapply lookup_lt_Some). by rewrite Hx.
  - by rewrite list_lookup_insert_ne.
Qed.

Section IndexFacts.
Variable H : Host.
Variable parsed : store.

Lemma indexed_update k st j e e' :
  indexed parsed k st ->
  getEntry (heap st) j = Some e -> is_Some (Entry.fieldMap e') ->
  indexed parsed k (set_heap (<[j := EntryItem e']> (heap st)) st).
Proof.
  intros (Hkind & Hmaps & Hidx) Hj He'. split; [|split]; cbn [heap set_heap].
  - intros i. erewrite is_entry_insert by done. apply Hkind.
  - intros i x Hi. destruct (decide (i = j)) as [->|Hne].
    + erewrite getEntry_insert_eq by done. by intros [= <-].
    + rewrite getEntry_insert_ne by done. by apply Hmaps.
  - intros key sig d Hd.
    assert (Hd' : indexOf key st !! sig = Some d) by (by destruct key).
    destruct (Hidx _ _ _ Hd') as (x & Hx & Hfm).
    destruct (decide (d = j)) as [->|Hne].
    + exists e'. by erewrite getEntry_insert_eq.
    + exists x. by rewrite getEntry_insert_ne.
Qed.

Lemma indexed_warning k st w :
  indexed parsed k st -> indexed parsed k (push_warning w st).
Proof.
  intros (Hkind & Hmaps & Hidx). split; [done|split; [done|]].
  intros key sig d Hd. apply (Hidx key sig d). by destruct key.
Qed.

Lemma indexed_register k st key sig item e :
  indexed parsed k st ->
  getEntry (heap st) item = Some e -> is_Some (Entry.fieldMap e) ->
  indexed parsed k (set_indexOf key (<[sig := item]> (indexOf key st)) st).
Proof.
  intros (Hkind & Hmaps & Hidx) Hitem Hfm.
  split; [by destruct key|split; [by destruct key|]].
  intros key' sig' d Hd.
  assert (Hheap : heap (set_indexOf key (<[sig := item]> (indexOf key st)) st)
                  = heap st) by (by destruct key).
  rewrite Hheap.
  destruct (decide (key' = key)) as [->|Hne].
  - assert (Hd' : <[sig := item]> (indexOf key st) !! sig' = Some d)
      by (by destruct key).
    destruct (decide (sig = sig')) as [->|Hsig].
    + rewrite lookup_insert_eq in Hd'. injection Hd' as <-. by exists e.
    + rewrite lookup_insert_ne in Hd' by done. by apply (Hidx key sig' d).
  - apply (Hidx key' sig' d). by destruct key, key'.
Qed.

Lemma applyStrategy_ok strategy item d :
  is_Some (Entry.fieldMap item) -> is_Some (Entry.fieldMap d) ->
  exists d', applyStrategy strategy item d = Some d'
             /\ is_Some (Entry.fieldMap d')
             /\ Entry.duplicate d' = Entry.duplicate d
             /\ Entry.key d' = Entry.key d /\ Entry.type d' = Entry.type d.
Proof.
  intros [from Hfrom] [into Hinto].
  destruct strategy; cbn [applyStrategy]; rewrite ?Hfrom, ?Hinto;
    cbn [mbind option_bind].
  - by exists d.
  - eexists; split; [done|]. by cbn.
  - destruct from; [by exists d|]. eexists; split; [done|]. by cbn.
  - destruct from; [by exists d|]. eexists; split; [done|]. by cbn.
Qed.

Lemma mergeDuplicate_ok k st strategy item d e x :
  indexed parsed k st ->
  getEntry (heap st) item = Some e -> is_Some (Entry.fieldMap e) ->
  getEntry (heap st) d = Some x -> is_Some (Entry.fieldMap x) ->
  exists st', mergeDuplicate strategy item d st = Some st'
              /\ indexed parsed k st'.
Proof.
  intros Hinv Hitem Hfm Hd Hfmd. unfold mergeDuplicate.
  rewrite Hitem. cbn [mbind option_bind].
  set (flagged := Entry.set_duplicate true e).
  assert (Hflag : is_Some (Entry.fieldMap flagged)) by done.
  pose proof (indexed_update k st item e flagged Hinv Hitem Hflag) as Hinv1.
  assert (Hd1 : exists x1, getEntry (<[item := EntryItem flagged]> (heap st)) d
                           = Some x1 /\ is_Some (Entry.fieldMap x1)).
  { destruct (decide (d = item)) as [->|Hne].
    - exists flagged. by erewrite getEntry_insert_eq.
    - exists x. by rewrite getEntry_insert_ne. }
  destruct Hd1 as (x1 & Hx1 & Hfm1). rewrite Hx1. cbn [mbind option_bind].
  destruct (applyStrategy_ok strategy flagged x1 Hflag Hfm1)
    as (d' & -> & Hfm' & _).
  cbn [mbind option_bind]. eexists; split; [done|].
  apply indexed_warning.
  by apply (indexed_update k (set_heap _ st) d x1 d' Hinv1).
Qed.

Lemma checkUniq_ok k st strategy criteria item e :
  indexed parsed k st ->
  getEntry (heap st) item = Some e -> is_Some (Entry.fieldMap e) ->
  exists st', checkUniq H strategy criteria item st = Some st'
              /\ indexed parsed k st'.
Proof.
  revert st. induction criteria as [|[key merge] rest IH];
    intros st Hinv Hitem Hfm; cbn [checkUniq]; [by exists st|].
  rewrite Hitem. cbn [mbind option_bind].
  assert (Hsig : is_Some (signature H key e)).
  { destruct Hfm as [fieldMap Hfm]. unfold signature. rewrite Hfm.
    by destruct key. }
  destruct Hsig as [sig ->]. cbn [mbind option_bind].
  destruct sig as [sig|]; [|by apply IH].
  destruct (indexOf key st !! sig) as [d|] eqn:Hd.
  - destruct (proj2 (proj2 Hinv) key sig d Hd) as (x & Hx & Hfmx).
    destruct merge.
    + by eapply mergeDuplicate_ok.
    + unfold warnDuplicateKey. rewrite Hitem. cbn [mbind option_bind].
      eexists; split; [done|]. by apply indexed_warning.
  - apply IH.
    + by eapply indexed_register.
    + by destruct key.
    + done.
Qed.

Lemma indexItem_ok o criteria k st :
  indexed parsed k st ->
  exists st', indexItem H o criteria st k = Some st'
              /\ indexed parsed (S k) st'.
Proof.
  intros Hinv. unfold indexItem.
  destruct (getEntry (heap st) k) as [e|] eqn:Hk.
  - set (st1 := if truthy (Entry.key e) then st else push_warning _ st).
    assert (Hinv1 : indexed parsed k st1).
    { unfold st1. destruct (truthy _); [done|by apply indexed_warning]. }
    assert (Hk1 : getEntry (heap st1) k = Some e).
    { unfold st1. by destruct (truthy _). }
    set (e' := Entry.set_fieldMap (Some (buildFieldMap H o (Entry.fields e))) e).
    assert (Hfm : is_Some (Entry.fieldMap e')) by done.
    pose proof (indexed_update k st1 k e e' Hinv1 Hk1 Hfm) as Hinv2.
    assert (Hinv3 : indexed parsed (S k)
                      (set_heap (<[k := EntryItem e']> (heap st1)) st1)).
    { destruct Hinv2 as (Hkind & Hmaps & Hidx). split; [done|split; [|done]].
      intros i x Hi Hx. destruct (decide (i = k)) as [->|Hne].
      - cbn [heap set_heap] in Hx. erewrite getEntry_insert_eq in Hx by done.
        by injection Hx as <-.
      - apply (Hmaps i x); [lia|done]. }
    eapply checkUniq_ok; [exact Hinv3| |exact Hfm].
    cbn [heap set_heap]. by erewrite getEntry_insert_eq.
  - exists st. split; [done|].
    destruct Hinv as (Hkind & Hmaps & Hidx). split; [done|split; [|done]].
    intros i x Hi Hx. destruct (decide (i = k)) as [->|Hne]; [congruence|].
    apply (Hmaps i x); [lia|done].
Qed.

Lemma forEach_indexItem_ok o criteria k n st :
  indexed parsed k st ->
  exists st', forEach (indexItem H o criteria) (seq k n) st = Some st'
              /\ indexed parsed (k + n) st'.
Proof.
  revert k st. induction n as [|n IH]; intros k st Hinv; simpl.
  - exists st. by rewrite Nat.add_0_r.
  - destruct (indexItem_ok o criteria k st Hinv) as (st1 & -> & Hinv1).
    cbn [mbind option_bind].
    destruct (IH (S k) st1 Hinv1) as (st' & -> & Hinv').
    exists st'. split; [done|]. by rewrite Nat.add_succ_r.
Qed.

Lemma indexItems_ok o :
  exists st, indexItems H o (seq 0 (length parsed)) parsed = Some st
             /\ indexed parsed (length parsed) st.
Proof.
  apply (forEach_indexItem_ok o _ 0 (length parsed)).
  split; [done|split]; [intros; lia|].
  intros key sig d Hd. destruct key; cbn in Hd; by rewrite lookup_empty in Hd.
Qed.
End IndexFacts.

(** ** The output loop *)

Section WriteFacts.
Variable H : Host.
Variable o : Opt.t.

Lemma writeItem_spec (bibtex : jstring) (h : store) (item : ref) :
  (forall e, getEntry h item = Some e -> Entry.duplicate e = false ->
             is_Some (Entry.fieldMap e)) ->
  writeItem H o (bibtex, h) item
  = Some (bibtex ++ itemText H o h item, passed h item).
Proof.
  intros Hfm. unfold writeItem, itemText, passed, getEntry in *.
  destruct (h !! item) as [[name raw|raw|comment|e]|] eqn:Hx.
  - cbn [written]. by rewrite list_insert_id.
  - cbn [written]. by rewrite list_insert_id.
  - cbn [written]. rewrite list_insert_id by done.
    destruct (Opt.stripComments o); [by rewrite app_nil_r|].
    by destruct (Opt.tidyComments o).
  - cbn [written]. destruct (Entry.duplicate e) eqn:Hdup.
    + rewrite list_insert_id by done. by rewrite app_nil_r.
    + destruct (Hfm e eq_refl Hdup) as [fieldMap ->]. done.
  - by rewrite app_nil_r.
Qed.

Lemma passed_lookup (h : store) (item i : ref) :
  passed h item !! i
  = if decide (i = item) then written <$> h !! i else h !! i.
Proof.
  unfold passed. destruct (decide (i = item)) as [->|Hne].
  - destruct (h !! item) as [x|] eqn:Hx; [|by rewrite Hx].
    rewrite list_lookup_insert_eq; [done|by eapply lookup_lt_Some].
  - destruct (h !! item); [by rewrite list_lookup_insert_ne|done].
Qed.

Lemma writeItems_spec (items : list ref) (bibtex : jstring) (h : store) :
  NoDup items ->
  (forall i e, i ∈ items -> getEntry h i = Some e ->
               Entry.duplicate e = false -> is_Some (Entry.fieldMap e)) ->
  exists h',
    forEach (writeItem H o) items (bibtex, h)
    = Some (bibtex ++ concat (itemText H o h <$> items), h')
    /\ forall i, h' !! i
                 = if decide (i ∈ items) then written <$> h !! i else h !! i.
Proof.
  revert bibtex h. induction items as [|a items IH]; intros bibtex h Hnd Hfm.
  - exists h. cbn [forEach fmap list_fmap concat]. rewrite app_nil_r.
    split; [done|].
    intros i. rewrite decide_False; [done|apply not_elem_of_nil].
  - apply NoDup_cons in Hnd as [Hnotin Hnd].
    cbn [forEach]. rewrite writeItem_spec.
    2:{ intros e. apply Hfm. apply list_elem_of_here. }
    cbn [mbind option_bind].
    assert (Hsame : forall i, i ∈ items -> passed h a !! i = h !! i).
    { intros i Hi. rewrite passed_lookup. rewrite decide_False; [done|].
      intros ->. done. }
    destruct (IH (bibtex ++ itemText H o h a) (passed h a) Hnd)
      as (h' & Hrun & Hlook).
    { intros i e Hi. unfold getEntry. rewrite Hsame by done.
      apply Hfm. by apply list_elem_of_further. }
    exists h'. split.
    + rewrite Hrun. do 2 f_equal. rewrite <- app_assoc. f_equal.
      cbn [fmap list_fmap concat]. f_equal. f_equal.
      apply list_fmap_ext. intros j i Hi. unfold itemText.
      rewrite Hsame; [done|]. by eapply list_elem_of_lookup_2.
    + intros i. rewrite Hlook. rewrite passed_lookup.
      destruct (decide (i = a)) as [->|Hne].
      * rewrite decide_False by done.
        rewrite decide_True; [done|apply list_elem_of_here].
      * destruct (decide (i ∈ items)).
        -- rewrite decide_True; [done|by apply list_elem_of_further].
        -- rewrite decide_False; [done|]. rewrite not_elem_of_cons. done.
Qed.
End WriteFacts.

(** ** The pipeline as a whole *)

Lemma sortPasses_Permutation (H : Host) sortIndexes (sort : list jstring)
    (items : list ref) :
  sortPasses H sortIndexes sort items ≡ₚ items.
Proof.
  induction sort as [|sortKey rest IH]; [done|].
  change (sortPasses H sortIndexes (sortKey :: rest) items)
    with (array_sort (compareBy H sortIndexes sortKey)
            (sortPasses H sortIndexes rest items)).
  by rewrite array_sort_Permutation.
Qed.

Lemma getEntry_written (h h' : store) (i : ref) :
  h' !! i = written <$> h !! i ->
  getEntry h' i
  = (fun e => if Entry.duplicate e then e else Entry.set_fieldMap None e)
    <$> getEntry h i.
Proof.
  unfold getEntry. intros ->.
  destruct (h !! i) as [[| | |e]|]; try done.
  cbn. by destruct (Entry.duplicate e).
Qed.

(** [tidy] returns for every input and every configuration; the text is
    the texts of the items, in their final order, one after the other; the
    objects are the indexed ones as the output loop leaves them. *)
Lemma tidy_spec (H : Host) (input : jstring) (o : Opt.t) :
  exists st order r,
    indexItems H o (seq 0 (length (parse H input))) (parse H input) = Some st
    /\ indexed (parse H input) (length (parse H input)) st
    /\ order ≡ₚ seq 0 (length (parse H input))
    /\ tidy H input o = Some r
    /\ bibtex r = withFinalNewline (concat (itemText H o (heap st) <$> order))
    /\ result_warnings r = warnings st
    /\ (forall item, item ∈ entries r <-> is_Some (getEntry (heap st) item))
    /\ (forall i, objects r !! i = written <$> heap st !! i).
Proof.
  unfold tidy, tidyItems. set (parsed := parse H input).
  destruct (indexItems_ok H parsed o) as (st & Hst & Hinv).
  rewrite Hst. cbn [mbind option_bind].
  set (order := match sortOf o with
                | Some sort => sortItems H sort (heap st) (seq 0 (length parsed))
                | None => seq 0 (length parsed)
                end).
  assert (Hperm : order ≡ₚ seq 0 (length parsed)).
  { unfold order. destruct (sortOf o); [|done]. apply sortPasses_Permutation. }
  assert (Hlen : length (heap st) = length parsed).
  { destruct Hinv as (Hkind & _).
    destruct (Nat.lt_trichotomy (length (heap st)) (length parsed))
      as [Hlt|[Heq|Hgt]]; [|done|].
    - specialize (Hkind (length (heap st))).
      rewrite (lookup_ge_None_2 (heap st)) in Hkind by lia.
      destruct (lookup_lt_is_Some_2 parsed _ Hlt) as [x Hx].
      by rewrite Hx in Hkind.
    - specialize (Hkind (length parsed)).
      rewrite (lookup_ge_None_2 parsed) in Hkind by lia.
      destruct (lookup_lt_is_Some_2 (heap st) _ Hgt) as [x Hx].
      by rewrite Hx in Hkind. }
  assert (Hin : forall i, i ∈ order <-> (i < length parsed)%nat).
  { intros i. rewrite Hperm. rewrite elem_of_seq. lia. }
  destruct (writeItems_spec H o order [] (heap st)) as (h' & Hrun & Hlook).
  { rewrite Hperm. apply NoDup_seq. }
  { intros i e Hi He _. destruct Hinv as (_ & Hmaps & _).
    apply (Hmaps i e); [by apply Hin|done]. }
  unfold writeItems. rewrite Hrun. cbn [mbind option_bind app].
  assert (Hobj : forall i, h' !! i = written <$> heap st !! i).
  { intros i. rewrite Hlook. destruct (decide (i ∈ order)) as [|Hout]; [done|].
    rewrite Hin in Hout. rewrite lookup_ge_None_2 by lia. done. }
  exists st, order. eexists. split; [done|]. split; [done|]. split; [done|].
  split; [done|]. cbn [bibtex result_warnings entries objects].
  split; [done|]. split; [done|]. split; [|done].
  intros item. rewrite list_elem_of_In, filter_In, <- list_elem_of_In.
  rewrite bool_decide_eq_true. rewrite (getEntry_written (heap st) h') by done.
  rewrite fmap_is_Some. split; [tauto|]. intros Hsome. split; [|done].
  apply Hin. destruct Hsome as [e He]. unfold getEntry in He.
  destruct (heap st !! item) eqn:Hx; [|done].
  rewrite <- Hlen. by eapply lookup_lt_Some.
Qed.

Lemma itemText_dropped (H : Host) (o : Opt.t) (h : store) (item : ref) :
  isDropped h item = true -> itemText H o h item = [].
Proof.
  unfold isDropped, getEntry, itemText.
  destruct (h !! item) as [[| | |e]|]; try done. by intros ->.
Qed.

Lemma concat_without_dropped (H : Host) (o : Opt.t) (h : store)
    (items : list ref) :
  concat (itemText H o h <$> items)
  = concat (itemText H o h
            <$> List.filter (fun item => negb (isDropped h item)) items).
Proof.
  induction items as [|a items IH]; [done|]. cbn [fmap list_fmap concat List.filter].
  destruct (isDropped h a) eqn:Ha; cbn [negb].
  - rewrite itemText_dropped by done. apply IH.
  - cbn [fmap list_fmap concat]. f_equal. apply IH.
Qed.

Lemma NoDup_filter_bool (p : ref -> bool) (items : list ref) :
  NoDup items -> NoDup (List.filter p items).
Proof.
  induction 1 as [|a items Hnotin Hnd IH]; simpl; [constructor|].
  destruct (p a); [|done]. constructor; [|done].
  rewrite list_elem_of_In, filter_In, <- list_elem_of_In. tauto.
Qed.

(** C5.  [tidy] returns for every input and every configuration.  An entry
    that the first loop has flagged as a duplicate adds nothing to the text:
    the output loop writes what it would write for the items without the
    flagged entries.  The entry is nonetheless a member of the returned
    list, and the object returned for it is the flagged entry. *)
Theorem dropped_duplicates_are_returned_unwritten (H : Host)
    (input : jstring) (o : Opt.t) :
  exists st order r text h,
    indexItems H o (seq 0 (length (parse H input))) (parse H input) = Some st
    /\ order ≡ₚ seq 0 (length (parse H input))
    /\ tidy H input o = Some r
    /\ writeItems H o order (heap st) = Some (text, objects r)
    /\ bibtex r = withFinalNewline text
    /\ writeItems H o
         (List.filter (fun item => negb (isDropped (heap st) item)) order)
         (heap st) = Some (text, h)
    /\ forall item e,
         getEntry (heap st) item = Some e -> Entry.duplicate e = true ->
         itemText H o (heap st) item = []
         /\ item ∈ entries r
         /\ getEntry (objects r) item = Some e.
Proof.
  destruct (tidy_spec H input o)
    as (st & order & r & Hst & Hinv & Hperm & Hr & Htext & _ & Hentries & Hobj).
  assert (Hnd : NoDup order) by (rewrite Hperm; apply NoDup_seq).
  assert (Hfm : forall i e, getEntry (heap st) i = Some e ->
                            is_Some (Entry.fieldMap e)).
  { intros i e He. destruct Hinv as (Hkind & Hmaps & _). apply (Hmaps i e); [|done].
    unfold getEntry in He. destruct (heap st !! i) eqn:Hx; [|done].
    assert (Hp : is_Some (parse H input !! i)).
    { specialize (Hkind i). rewrite Hx in Hkind.
      destruct (parse H input !! i); [by eexists|done]. }
    by apply lookup_lt_is_Some_1. }
  destruct (writeItems_spec H o order [] (heap st) Hnd) as (h1 & Hrun1 & Hlook1).
  { intros i e _ He _. by apply (Hfm i e). }
  destruct (writeItems_spec H o
              (List.filter (fun item => negb (isDropped (heap st) item)) order)
              [] (heap st)) as (h2 & Hrun2 & _).
  { by apply NoDup_filter_bool. }
  { intros i e _ He _. by apply (Hfm i e). }
  cbn [app] in Hrun1, Hrun2.
  assert (Hobj1 : objects r = h1).
  { apply list_eq. intros i. rewrite Hobj, Hlook1.
    destruct (decide (i ∈ order)) as [|Hout]; [done|].
    assert (Hge : heap st !! i = None).
    { destruct (heap st !! i) as [x|] eqn:Hx; [|done]. exfalso. apply Hout.
      rewrite Hperm, elem_of_seq.
      destruct Hinv as (Hkind & _). specialize (Hkind i). rewrite Hx in Hkind.
      destruct (parse H input !! i) eqn:Hp; [|done].
      apply lookup_lt_Some in Hp. lia. }
    by rewrite Hge. }
  exists st, order, r, (concat (itemText H o (heap st) <$> order)), h2.
  split; [done|]. split; [done|]. split; [done|].
  split; [by rewrite Hobj1|]. split; [done|].
  split; [unfold writeItems; by rewrite Hrun2, <- concat_without_dropped|].
  intros item e He Hdup. split; [|split].
  - apply itemText_dropped. unfold isDropped. by rewrite He.
  - apply Hentries. by rewrite He.
  - rewrite (getEntry_written (heap st)) by apply Hobj.
    rewrite He. cbn. by rewrite Hdup.
Qed.

(** C10.  In the list that [tidy] returns, which holds every entry of the
    input, the object of an entry that was written has no [fieldMap], and
    the object of an entry flagged as a duplicate is the entry as the first
    loop left it, [fieldMap] included. *)
Theorem fieldMap_is_deleted_on_written_entries_only (H : Host)
    (input : jstring) (o : Opt.t) :
  exists st r,
    indexItems H o (seq 0 (length (parse H input))) (parse H input) = Some st
    /\ tidy H input o = Some r
    /\ (forall item,
          item ∈ entries r <-> is_Some (getEntry (parse H input) item))
    /\ (forall item, item ∈ entries r ->
          exists e, getEntry (heap st) item = Some e
            /\ is_Some (Entry.fieldMap e)
            /\ getEntry (objects r) item
               = Some (if Entry.duplicate e then e
                       else Entry.set_fieldMap None e))
    /\ (forall e, e ∈ entriesOf r ->
          if Entry.duplicate e then is_Some (Entry.fieldMap e)
          else Entry.fieldMap e = None).
Proof.
  destruct (tidy_spec H input o)
    as (st & order & r & Hst & Hinv & Hperm & Hr & _ & _ & Hentries & Hobj).
  assert (Hfm : forall i e, getEntry (heap st) i = Some e ->
                            is_Some (Entry.fieldMap e)).
  { intros i e He. destruct Hinv as (Hkind & Hmaps & _). apply (Hmaps i e); [|done].
    unfold getEntry in He. destruct (heap st !! i) eqn:Hx; [|done].
    assert (Hp : is_Some (parse H input !! i)).
    { specialize (Hkind i). rewrite Hx in Hkind.
      destruct (parse H input !! i); [by eexists|done]. }
    by apply lookup_lt_is_Some_1. }
  assert (Hreturned : forall item, item ∈ entries r ->
            exists e, getEntry (heap st) item = Some e
              /\ is_Some (Entry.fieldMap e)
              /\ getEntry (objects r) item
                 = Some (if Entry.duplicate e then e
                         else Entry.set_fieldMap None e)).
  { intros item Hin. apply Hentries in Hin as [e He]. exists e.
    split; [done|]. split; [by apply (Hfm item)|].
    rewrite (getEntry_written (heap st)) by apply Hobj. by rewrite He. }
  exists st, r. split; [done|]. split; [done|]. split; [|split; [done|]].
  - intros item. rewrite Hentries. destruct Hinv as (Hkind & _).
    specialize (Hkind item). unfold getEntry.
    destruct (heap st !! item) as [[| | |e]|], (parse H input !! item) as [[| | |e']|];
      try done; split; intros [? ?]; try done; by eexists.
  - intros e. unfold entriesOf. rewrite list_elem_of_omap.
    intros (item & Hin & He). destruct (Hreturned item Hin) as (e0 & _ & Hfm0 & He0).
    rewrite He0 in He. injection He as <-.
    destruct (Entry.duplicate e0) eqn:Hdup.
    + by rewrite Hdup.
    + cbn. by rewrite Hdup.
Qed.

(** ** Tidying twice *)

(** C9, on the code.  Whatever the parser, if it reads the two texts below
    as the one entry they show, then [tidy] prints [1--2-3] for the page
    range [1-2-3], and run on that output it prints [1--2--3]: the second
    run does not return the text it was given. *)
Theorem tidy_twice_differs_on_page_ranges (reader : jstring -> store) :
  reader (pagesText "1-2-3") = pagesItems "1-2-3" ->
  reader (pagesText "1--2-3") = pagesItems "1--2-3" ->
  (bibtex <$> tidy (sampleHost reader) (pagesText "1-2-3") plainOptions)
  = Some (pagesText "1--2-3")
  /\ (bibtex <$> tidy (sampleHost reader) (pagesText "1--2-3") plainOptions)
     = Some (pagesText "1--2--3")
  /\ pagesText "1--2-3" <> pagesText "1--2--3".
Proof.
  intros Hfirst Hsecond. unfold tidy. cbn [parse sampleHost].
  rewrite Hfirst, Hsecond.
  split; [|split]; [vm_compute; reflexivity | vm_compute; reflexivity | discriminate].
Qed.

Lemma tidy_twice_differs_on_page_ranges_witness :
  (bibtex <$> tidy (sampleHost pagesReader) (pagesText "1-2-3") plainOptions)
  = Some (pagesText "1--2-3")
  /\ (bibtex <$> tidy (sampleHost pagesReader) (pagesText "1--2-3") plainOptions)
     = Some (pagesText "1--2--3")
  /\ pagesText "1--2-3" <> pagesText "1--2--3".
Proof.
  apply (tidy_twice_differs_on_page_ranges pagesReader); reflexivity.
Defined.

(** ** Examples of the pipeline *)

(** With [merge: ['doi']], a second entry that repeats both the key and the
    DOI of the first is met by the [doi] criterion: it is merged, and the
    [key] criterion, which would only warn, is not reached. *)
Example doi_is_met_before_key :
  (fun r => (code <$> result_warnings r, isDropped (objects r) 1))
  <$> tidy (sampleHost (fun _ => sampleTwins)) [] (mergeOptions [UniqueKey.doi])
  = Some ([DUPLICATE_ENTRY], true).
Proof. reflexivity. Qed.

(** The case of the repository's test: two entries under one key, merged
    by [combine]. *)
Example merge_duplicate_keys :
  (fun r => (bibtex r, code <$> result_warnings r, length (entries r)))
  <$> tidy (sampleHost (fun _ =>
        [EntryItem (Entry.mk (Some (js "sweig42")) (js "book")
           [sampleField "title" "The impossible book" Datatype.braced;
            sampleField "author" "Stefa{n} Sweig" Datatype.braced;
            sampleField "year" "1942" Datatype.number;
            sampleField "month" "mar" Datatype.identifier;
            sampleField "publisher" "Dead Poet Society" Datatype.braced]
           None false);
         EntryItem (Entry.mk (Some (js "sweig42")) (js "book")
           [sampleField "title" "Foo" Datatype.braced;
            sampleField "author" "Bar" Datatype.braced;
            sampleField "n" "1" Datatype.number]
           None false)]))
      [] (mergeOptions [UniqueKey.key])
  = Some (js "@book{sweig42,
  title         = {The impossible book},
  author        = {Stefa{n} Sweig},
  year          = 1942,
  month         = mar,
  publisher     = {Dead Poet Society},
  n             = 1
}
", [DUPLICATE_ENTRY], 2%nat).
Proof. vm_compute. reflexivity. Qed.

(** Every entry is indexed under every configured sort key, with the text
    read from the entry (the empty text when the field is missing): for an
    entry the comparator never falls back on the sentinel. *)
Lemma makeSortIndex_get (H : Host) (sort : list jstring) (item : Entry.t)
    (key : jstring) :
  key ∈ sort ->
  map_get (stripDash key) (makeSortIndex H sort item)
  = Some (sortValue H item (stripDash key)).
Proof.
  unfold makeSortIndex. generalize (@nil (jstring * jstring)).
  induction sort as [|k sort IH]; intros idx Hin.
  - by apply elem_of_nil in Hin.
  - cbn [fold_left]. apply elem_of_cons in Hin as [->|Hin]; [|by apply IH].
    destruct (decide (k ∈ sort)); [by apply IH|]. clear IH.
    assert (Hget : map_get (stripDash k)
                     (map_set (stripDash k) (sortValue H item (stripDash k)) idx)
                   = Some (sortValue H item (stripDash k))).
    { rewrite map_get_set. by rewrite decide_True. }
    revert Hget. generalize (map_set (stripDash k) (sortValue H item (stripDash k)) idx).
    induction sort as [|k' sort IH]; intros idx' Hget; [done|].
    cbn [fold_left]. apply IH.
    + rewrite not_elem_of_cons in n. tauto.
    + rewrite map_get_set. destruct (decide (stripDash k = stripDash k')) as [<-|]; done.
Qed.

(** Under [last] the kept entry is returned with the field list of the
    absorbed entry; its [fieldMap], which the output loop prints, was built
    before the merge and is the one of its own fields. *)
Example last_replaces_the_field_list :
  (fun r => (Entry.fields <$> getEntry (objects r) 0, bibtex r))
  <$> tidy (sampleHost (fun _ => samplePair)) [] lastOptions
  = Some (Some (Entry.fields sampleAbsorbed),
          js "@book{sweig42,
  title         = {The impossible book},
  year          = 1942
}
").
Proof. vm_compute. reflexivity. Qed.

(** * Further properties of the pipeline *)

(** ** White space, again *)

Lemma span_fst_all (p : N -> bool) (s : jstring) :
  forallb p (fst (span p s)) = true.
Proof.
  induction s as [|c s IH]; simpl; [done|].
  destruct (p c) eqn:Hc; [|done]. destruct (span p s). simpl in *.
  by rewrite Hc.
Qed.

Lemma span_app_eq (p : N -> bool) (s : jstring) :
  fst (span p s) ++ snd (span p s) = s.
Proof.
  induction s as [|c s IH]; simpl; [done|].
  destruct (p c); [|done]. destruct (span p s). simpl in *. by rewrite IH.
Qed.

Lemma span_snd_head (p : N -> bool) (s : jstring) :
  match snd (span p s) with c :: _ => p c = false | [] => True end.
Proof.
  induction s as [|c s IH]; simpl; [done|].
  destruct (p c) eqn:Hc; [|done]. by destruct (span p s).
Qed.

Lemma trimStart_noLeadingSpace (s : jstring) :
  noLeadingSpace (trimStart s) = true.
Proof.
  unfold trimStart. pose proof (span_snd_head is_space s) as Hh.
  destruct (snd (span is_space s)); [done|]. simpl. by rewrite Hh.
Qed.

Lemma trimEnd_prefix (s : jstring) :
  exists ws, s = trimEnd s ++ ws /\ forallb is_space ws = true.
Proof.
  unfold trimEnd. exists (reverse (fst (span is_space (reverse s)))). split.
  - rewrite <- reverse_app, span_app_eq. by rewrite reverse_involutive.
  - pose proof (span_fst_all is_space (reverse s)) as Hall.
    apply forallb_forall. intros x Hx. rewrite forallb_forall in Hall.
    apply Hall. apply list_elem_of_In. apply list_elem_of_In in Hx.
    by rewrite elem_of_reverse in Hx.
Qed.

Lemma trimEnd_noTrailingSpace (s : jstring) :
  noLeadingSpace (reverse (trimEnd s)) = true.
Proof.
  unfold trimEnd. rewrite reverse_involutive.
  pose proof (span_snd_head is_space (reverse s)) as Hh.
  destruct (snd (span is_space (reverse s))); [done|]. simpl. by rewrite Hh.
Qed.

Lemma trimEnd_noLeadingSpace (s : jstring) :
  noLeadingSpace s = true -> noLeadingSpace (trimEnd s) = true.
Proof.
  intros Hs. destruct (trimEnd_prefix s) as (ws & Heq & _).
  destruct (trimEnd s) as [|c t]; [done|].
  rewrite Heq in Hs. done.
Qed.

Lemma trim_clean (s : jstring) :
  noLeadingSpace (trim s) = true /\ noLeadingSpace (reverse (trim s)) = true.
Proof.
  unfold trim. split.
  - apply trimEnd_noLeadingSpace, trimStart_noLeadingSpace.
  - apply trimEnd_noTrailingSpace.
Qed.

Lemma trim_elem (s : jstring) (x : N) : x ∈ trim s -> x ∈ s.
Proof.
  unfold trim. intros Hx.
  destruct (trimEnd_prefix (trimStart s)) as (ws & Heq & _).
  assert (Hx' : x ∈ trimStart s) by (rewrite Heq, elem_of_app; by left).
  unfold trimStart in Hx'. rewrite <- (span_app_eq is_space s), elem_of_app.
  by right.
Qed.

Lemma collapseNewlines_no_newline (k : nat) (s : jstring) :
  Chr.newline ∉ replaceAll newline_run_match k s.
Proof.
  revert k. induction s as [|c s IH]; intros k; cbn [replaceAll].
  - apply not_elem_of_nil.
  - destruct k as [|k]; [|apply IH].
    unfold newline_run_match at 1.
    destruct (bool_decide (Chr.newline ∈ (span is_space (c :: s)).1)) eqn:Hnl.
    + cbn [app]. rewrite not_elem_of_cons. split; [done|apply IH].
    + rewrite not_elem_of_cons. split; [|apply IH].
      intros <-. apply bool_decide_eq_false in Hnl. apply Hnl.
      cbn [span]. change (is_space Chr.newline) with true. cbn iota.
      destruct (span is_space s). cbn [fst]. apply list_elem_of_here.
Qed.

Lemma collapseNewlines_single_line (s : jstring) :
  Chr.newline ∉ s -> collapseNewlines s = s.
Proof.
  unfold collapseNewlines. induction s as [|c s IH]; [done|].
  rewrite not_elem_of_cons. intros [Hc Hs]. cbn [replaceAll].
  unfold newline_run_match at 1.
  rewrite bool_decide_eq_false_2; [by rewrite IH|].
  intros Hin. pose proof (span_app_eq is_space (c :: s)) as Heq.
  assert (Hin' : Chr.newline ∈ c :: s).
  { rewrite <- Heq, elem_of_app. by left. }
  apply elem_of_cons in Hin' as [?|?]; done.
Qed.

(** X1.  Whatever the value, the first step of the normaliser leaves no
    newline in it and no white space at either end, and a second
    application changes nothing. *)
Theorem removeWhitespace_single_line (value : jstring) :
  (Chr.newline ∉ removeWhitespace value)
  /\ noLeadingSpace (removeWhitespace value) = true
  /\ noLeadingSpace (reverse (removeWhitespace value)) = true
  /\ removeWhitespace (removeWhitespace value) = removeWhitespace value.
Proof.
  assert (Hnl : Chr.newline ∉ removeWhitespace value).
  { unfold removeWhitespace, collapseNewlines. intros Hin%trim_elem.
    by apply collapseNewlines_no_newline in Hin. }
  destruct (trim_clean (collapseNewlines value)) as [Hl Hr].
  split; [done|]. split; [done|]. split; [done|].
  unfold removeWhitespace at 1. rewrite collapseNewlines_single_line by done.
  unfold removeWhitespace.
  pose proof (trim_spec [] (trim (collapseNewlines value)) []
                eq_refl eq_refl Hl Hr) as Ht.
  cbn [app] in Ht. by rewrite app_nil_r in Ht.
Qed.

(** ** The character escaper, again *)

Lemma escapeFrom_plain (H : Host) (str : jstring) (mode : bool) :
  (forall ch, ch ∈ str -> ch <> Chr.backslash ->
              map_get (hex4 ch) (specialCharacters H) = None) ->
  escapeFrom H mode str = str.
Proof.
  revert mode. induction str as [|ch rest IH]; intros mode Hplain; [done|].
  assert (Hrest : forall m, escapeFrom H m rest = rest).
  { intros m. apply IH. intros c Hc. apply Hplain. by apply list_elem_of_further. }
  cbn [escapeFrom]. destruct mode; [by rewrite Hrest|].
  destruct (N.eqb_spec ch Chr.backslash) as [->|Hne]; [by rewrite Hrest|].
  unfold escapeChar. rewrite Hplain; [|apply list_elem_of_here|done].
  by rewrite Hrest.
Qed.

(** X2.  A text none of whose characters has a row in the table comes out
    of the escaper as it went in, backslashes included. *)
Theorem escape_plain_text (H : Host) (str : jstring) :
  (forall ch, ch ∈ str -> ch <> Chr.backslash ->
              map_get (hex4 ch) (specialCharacters H) = None) ->
  escapeSpecialCharacters H str = str.
Proof. intros Hplain. rewrite escape_is_escapeFrom. by apply escapeFrom_plain. Qed.

Lemma escape_plain_text_witness :
  escapeSpecialCharacters asciiHost (js "Stefa{n} \Sweig\") = js "Stefa{n} \Sweig\".
Proof.
  apply (escape_plain_text asciiHost (js "Stefa{n} \Sweig\")).
  intros ch Hin _. revert ch Hin. apply Forall_forall.
  repeat (constructor; [reflexivity|]). constructor.
Defined.

Lemma escapeFrom_twice (H : Host) (str : jstring) (mode : bool) :
  (forall ch latex,
      ch ∈ str ->
      map_get (hex4 ch) (specialCharacters H) = Some latex -> latex <> [] ->
      escapeSpecialCharacters H latex = latex
      /\ escapeMode_after H latex = false) ->
  escapeFrom H mode (escapeFrom H mode str) = escapeFrom H mode str
  /\ modeFrom mode (escapeFrom H mode str) = modeFrom mode str.
Proof.
  revert mode.
  induction str as [|ch rest IH]; intros mode Htable; [done|].
  assert (Hrest : forall ch latex,
             ch ∈ rest ->
             map_get (hex4 ch) (specialCharacters H) = Some latex ->
             latex <> [] ->
             escapeSpecialCharacters H latex = latex
             /\ escapeMode_after H latex = false).
  { intros c latex Hin. apply Htable. by apply list_elem_of_further. }
  cbn [escapeFrom modeFrom]. destruct mode.
  - cbn [escapeFrom modeFrom]. destruct (IH false Hrest) as [-> ->]. done.
  - destruct (N.eqb_spec ch Chr.backslash) as [->|Hne].
    + cbn [escapeFrom modeFrom]. change (Chr.backslash =? Chr.backslash) with true.
      cbn iota. destruct (IH true Hrest) as [-> ->]. done.
    + rewrite escapeFrom_app, modeFrom_app.
      assert (Hch : escapeFrom H false (escapeChar H ch) = escapeChar H ch
                    /\ modeFrom false (escapeChar H ch) = false).
      { unfold escapeChar.
        destruct (map_get (hex4 ch) (specialCharacters H)) as [[|c latex]|] eqn:Hrow.
        - cbn [escapeFrom modeFrom]. rewrite (proj2 (N.eqb_neq _ _) Hne).
          unfold escapeChar. rewrite Hrow. done.
        - destruct (Htable ch (c :: latex) (list_elem_of_here _ _) Hrow)
            as [He Hm]; [done|].
          by rewrite escape_is_escapeFrom in He; rewrite escapeMode_is_modeFrom in Hm.
        - cbn [escapeFrom modeFrom]. rewrite (proj2 (N.eqb_neq _ _) Hne).
          unfold escapeChar. rewrite Hrow. done. }
      destruct Hch as [-> ->]. destruct (IH false Hrest) as [-> ->]. done.
Qed.

(** X3.  Escaping an escaped text changes nothing when every character of
    the text that has a row in the table is replaced by a text that the
    escaper itself leaves as it is, with the skip mode off at its end: a
    backslash and the character, as for [&], [%] and [#]. *)
Theorem escape_twice (H : Host) (str : jstring) :
  (forall ch latex,
      ch ∈ str ->
      map_get (hex4 ch) (specialCharacters H) = Some latex -> latex <> [] ->
      escapeSpecialCharacters H latex = latex
      /\ escapeMode_after H latex = false) ->
  escapeSpecialCharacters H (escapeSpecialCharacters H str)
  = escapeSpecialCharacters H str.
Proof.
  intros Htable. rewrite !escape_is_escapeFrom.
  by apply escapeFrom_twice.
Qed.

Lemma escape_twice_witness :
  escapeSpecialCharacters asciiHost (escapeSpecialCharacters asciiHost (js "R&D #1 \& 100%"))
  = escapeSpecialCharacters asciiHost (js "R&D #1 \& 100%")
  /\ escapeSpecialCharacters asciiHost (js "R&D #1 \& 100%")
     = js "R\&D \#1 \& 100\%".
Proof.
  split; [|reflexivity].
  apply (escape_twice asciiHost (js "R&D #1 \& 100%")).
  intros ch latex _ Hrow _.
  change (specialCharacters asciiHost)
    with [(js "0023", js "\#"); (js "0025", js "\%"); (js "0026", js "\&")] in Hrow.
  cbn [map_get] in Hrow.
  repeat (destruct (decide _) in Hrow; [injection Hrow as <-; split; reflexivity|]).
  discriminate.
Defined.

(** ** The field map *)

Lemma addField_get (H : Host) (o : Opt.t) (m : jsmap jstring ValueString.t)
    (field : Field.t) (name : jstring) :
  map_get name (addField H o m field)
  = match map_get name m with
    | Some v => Some v
    | None =>
        if bool_decide (name ∈ Opt.omit o) then None
        else if bool_decide (lnameOf H field = name)
             then Some (storedField H o field) else None
    end.
Proof.
  unfold addField. fold (lnameOf H field).
  destruct (bool_decide (lnameOf H field ∈ Opt.omit o)) eqn:Homit; cbn [orb].
  - apply bool_decide_eq_true in Homit.
    destruct (map_get name m); [done|].
    destruct (bool_decide (name ∈ Opt.omit o)) eqn:Hn; [done|].
    apply bool_decide_eq_false in Hn.
    rewrite bool_decide_eq_false_2; [done|]. by intros <-.
  - apply bool_decide_eq_false in Homit.
    unfold map_has. destruct (map_get (lnameOf H field) m) as [v0|] eqn:Hhas.
    + destruct (map_get name m) eqn:Hget; [done|].
      destruct (bool_decide (name ∈ Opt.omit o)); [done|].
      rewrite bool_decide_eq_false_2; [done|]. intros <-. congruence.
    + rewrite map_get_set. destruct (decide (name = lnameOf H field)) as [->|Hne].
      * rewrite Hhas. rewrite bool_decide_eq_false_2 by done.
        by rewrite bool_decide_eq_true_2.
      * destruct (map_get name m); [done|].
        destruct (bool_decide (name ∈ Opt.omit o)); [done|].
        by rewrite bool_decide_eq_false_2.
Qed.

Lemma fold_addField_get (H : Host) (o : Opt.t) (fields : list Field.t)
    (m : jsmap jstring ValueString.t) (name : jstring) :
  map_get name (fold_left (addField H o) fields m)
  = match map_get name m with
    | Some v => Some v
    | None =>
        if bool_decide (name ∈ Opt.omit o) then None
        else storedField H o <$> firstNamed H name fields
    end.
Proof.
  revert m. induction fields as [|field fields IH]; intros m; cbn [fold_left].
  - destruct (map_get name m); [done|]. by destruct (bool_decide _).
  - rewrite IH, addField_get. destruct (map_get name m); [done|].
    destruct (bool_decide (name ∈ Opt.omit o)); [done|].
    unfold firstNamed. cbn [List.filter].
    by destruct (bool_decide (lnameOf H field = name)).
Qed.





(** X6.  Every value of the map is trimmed: it neither begins nor ends
    with white space. *)
Theorem buildFieldMap_values_trimmed (H : Host) (o : Opt.t)
    (fields : list Field.t) (name : jstring) (v : ValueString.t) :
  map_get name (buildFieldMap H o fields) = Some v ->
  noLeadingSpace (ValueString.value v) = true
  /\ noLeadingSpace (reverse (ValueString.value v)) = true.
Proof.
  unfold buildFieldMap. rewrite fold_addField_get. cbn [map_get].
  destruct (bool_decide _); [done|].
  destruct (firstNamed H name fields) as [field|]; [|done].
  intros [= <-]. apply trim_clean.
Qed.

Lemma buildFieldMap_values_trimmed_witness :
  noLeadingSpace (js "The impossible book") = true
  /\ noLeadingSpace (reverse (js "The impossible book")) = true.
Proof.
  apply (buildFieldMap_values_trimmed asciiHost Opt.default
           [sampleField "Title" "  The impossible book
   " Datatype.braced] (js "title")
           (ValueString.mk (js "The impossible book") Datatype.braced)).
  reflexivity.
Defined.

(** ** The warnings *)

Lemma evolves_refl (h : store) : evolves h h.
Proof. intros i. destruct (getEntry h i) as [e|]; [by exists e|done]. Qed.

Lemma evolves_trans (h1 h2 h3 : store) :
  evolves h1 h2 -> evolves h2 h3 -> evolves h1 h3.
Proof.
  intros H12 H23 i. specialize (H12 i). specialize (H23 i).
  destruct (getEntry h1 i) as [e|].
  - destruct H12 as (e' & He' & Hk & Hd). rewrite He' in H23.
    destruct H23 as (e'' & He'' & Hk' & Hd'). exists e''.
    split; [done|]. split; [congruence|]. auto.
  - by rewrite H12 in H23.
Qed.

Lemma evolves_insert (h : store) (j : ref) (e e' : Entry.t) :
  getEntry h j = Some e -> Entry.key e' = Entry.key e ->
  (Entry.duplicate e = true -> Entry.duplicate e' = true) ->
  evolves h (<[j := EntryItem e']> h).
Proof.
  intros Hj Hk Hd i. destruct (decide (i = j)) as [->|Hne].
  - rewrite Hj. exists e'. by erewrite getEntry_insert_eq.
  - rewrite getEntry_insert_ne by done.
    destruct (getEntry h i) as [x|]; [by exists x|done].
Qed.

Lemma evolves_keyless (h h' : store) (i : ref) :
  evolves h h' -> keyless h' i = keyless h i.
Proof.
  intros Hev. specialize (Hev i). unfold keyless.
  destruct (getEntry h i) as [e|].
  - destruct Hev as (e' & -> & -> & _). done.
  - by rewrite Hev.
Qed.

Lemma evolves_isDropped (h h' : store) (i : ref) :
  evolves h h' -> isDropped h i = true -> isDropped h' i = true.
Proof.
  intros Hev. specialize (Hev i). unfold isDropped.
  destruct (getEntry h i) as [e|]; [|done].
  destruct Hev as (e' & -> & _ & Hd). done.
Qed.

Lemma evolves_is_Some (h h' : store) (i : ref) :
  evolves h h' -> is_Some (getEntry h i) -> is_Some (getEntry h' i).
Proof.
  intros Hev [e He]. specialize (Hev i). rewrite He in Hev.
  destruct Hev as (e' & -> & _). by eexists.
Qed.

Lemma soundWarning_evolves (h h' : store) (w : Warning) :
  evolves h h' -> soundWarning h w -> soundWarning h' w.
Proof.
  intros Hev. unfold soundWarning. destruct (code w).
  - intros [(e & He & Hk) Hnone]. split; [|done].
    specialize (Hev (entry w)). rewrite He in Hev.
    destruct Hev as (e' & He' & Hk' & _). exists e'. by rewrite Hk'.
  - intros [Hk Hnone]. split; [|done]. by rewrite (evolves_keyless h h').
  - intros (d & Hd & Hlt & Hsome & Hdrop). exists d.
    split; [done|]. split; [done|].
    split; [by eapply evolves_is_Some|by eapply evolves_isDropped].
Qed.

Lemma applyStrategy_keeps (strategy : MergeStrategy.t) (item d d' : Entry.t) :
  applyStrategy strategy item d = Some d' ->
  Entry.key d' = Entry.key d /\ Entry.duplicate d' = Entry.duplicate d.
Proof.
  destruct strategy; cbn [applyStrategy].
  - by intros [= <-].
  - by intros [= <-].
  - destruct (Entry.fieldMap item) as [[|kv from]|]; cbn [mbind option_bind];
      [by intros [= <-]| |done].
    destruct (Entry.fieldMap d); [|done]. by intros [= <-].
  - destruct (Entry.fieldMap item) as [[|kv from]|]; cbn [mbind option_bind];
      [by intros [= <-]| |done].
    destruct (Entry.fieldMap d); [|done]. by intros [= <-].
Qed.

Lemma indexOf_set_indexOf_eq key m st : indexOf key (set_indexOf key m st) = m.
Proof. by destruct key. Qed.

Lemma indexOf_set_indexOf_ne key key' m st :
  key' <> key -> indexOf key' (set_indexOf key m st) = indexOf key' st.
Proof. by destruct key, key'. Qed.

Lemma heap_set_indexOf key m st : heap (set_indexOf key m st) = heap st.
Proof. by destruct key. Qed.

Lemma warnings_set_indexOf key m st :
  warnings (set_indexOf key m st) = warnings st.
Proof. by destruct key. Qed.

Lemma mergeDuplicate_warns (strategy : MergeStrategy.t) (item d : ref)
    (st st' : State) :
  (d < item)%nat ->
  mergeDuplicate strategy item d st = Some st' ->
  evolves (heap st) (heap st')
  /\ (forall key, indexOf key st' = indexOf key st)
  /\ exists w, warnings st' = warnings st ++ [w]
               /\ code w = DUPLICATE_ENTRY /\ entry w = item
               /\ duplicateOf w = Some d
               /\ soundWarning (heap st') w
               /\ (forall i, isDropped (heap st') i = true ->
                     isDropped (heap st) i = true \/ i = item).
Proof.
  intros Hlt. unfold mergeDuplicate.
  destruct (getEntry (heap st) item) as [e|] eqn:Hitem; [|done].
  cbn [mbind option_bind]. rewrite getEntry_insert_ne by lia.
  destruct (getEntry (heap st) d) as [x|] eqn:Hd; [|done].
  cbn [mbind option_bind].
  destruct (applyStrategy strategy (Entry.set_duplicate true e) x) as [d'|] eqn:Happly;
    [|done].
  cbn [mbind option_bind]. intros [= <-].
  apply applyStrategy_keeps in Happly as [Hkey Hdup].
  set (h1 := <[item := EntryItem (Entry.set_duplicate true e)]> (heap st)).
  assert (Hev1 : evolves (heap st) h1) by (by eapply evolves_insert).
  assert (Hd1 : getEntry h1 d = Some x).
  { unfold h1. rewrite getEntry_insert_ne by lia. done. }
  assert (Hev2 : evolves h1 (<[d := EntryItem d']> h1)).
  { eapply evolves_insert; [done|done|congruence]. }
  split; [by eapply evolves_trans|]. split; [by intros []|].
  eexists. split; [done|]. split; [done|]. split; [done|]. split; [done|].
  split.
  - unfold soundWarning. cbn [code entry duplicateOf heap push_warning set_heap].
    exists d. split; [done|]. split; [done|]. split.
    + erewrite getEntry_insert_eq by done. by eexists.
    + unfold isDropped. rewrite getEntry_insert_ne by lia.
      unfold h1. by erewrite getEntry_insert_eq.
  - cbn [heap push_warning set_heap]. fold h1. intros i Hdrop.
    destruct (decide (i = item)) as [->|Hi]; [by right|]. left.
    revert Hdrop. unfold isDropped. destruct (decide (i = d)) as [->|Hid].
    + erewrite getEntry_insert_eq by done. rewrite Hd. congruence.
    + rewrite getEntry_insert_ne by done. unfold h1.
      by rewrite getEntry_insert_ne by done.
Qed.

Lemma checkUniq_warns (H : Host) (strategy : MergeStrategy.t)
    (criteria : jsmap UniqueKey.t bool) (item : ref) (st st' : State) :
  NoDup criteria.*1 ->
  Forall (fun kb => kb.2 = false -> kb.1 = UniqueKey.key) criteria ->
  (forall key sig d, key ∈ criteria.*1 -> indexOf key st !! sig = Some d ->
                     (d < item)%nat) ->
  (forall key sig d, indexOf key st !! sig = Some d -> (d < S item)%nat) ->
  checkUniq H strategy criteria item st = Some st' ->
  evolves (heap st) (heap st')
  /\ (forall key sig d, indexOf key st' !! sig = Some d -> (d < S item)%nat)
  /\ exists ws, warnings st' = warnings st ++ ws
                /\ Forall (fun w => isMissingKey w = false
                                    /\ soundWarning (heap st') w) ws
                /\ (forall i, isDropped (heap st') i = true ->
                      isDropped (heap st) i = true
                      \/ exists w, w ∈ ws /\ isDuplicateEntry w = true
                                   /\ entry w = i).
Proof.
  revert st. induction criteria as [|[key merge] rest IH];
    intros st Hnd Hflags Hbelow Hbound; cbn [checkUniq].
  { intros [= <-]. split; [apply evolves_refl|]. split; [done|].
    exists []. rewrite app_nil_r. split; [done|]. split; [done|]. by left. }
  cbn [fmap list_fmap fst] in Hnd. apply NoDup_cons in Hnd as [Hfresh Hnd].
  apply Forall_cons in Hflags as [Hflag Hflags].
  destruct (getEntry (heap st) item) as [e|] eqn:Hitem; [|done].
  cbn [mbind option_bind].
  destruct (signature H key e) as [[sig|]|] eqn:Hsig; cbn [mbind option_bind];
    [| |done].
  - destruct (indexOf key st !! sig) as [d|] eqn:Hd.
    + assert (Hlt : (d < item)%nat).
      { apply (Hbelow key sig d); [apply list_elem_of_here|done]. }
      destruct merge.
      * intros Hmerge.
        destruct (mergeDuplicate_warns _ _ _ _ _ Hlt Hmerge)
          as (Hev & Hsame & w & Hw & Hcode & Hentry & _ & Hsound & Hdrops).
        split; [done|]. split.
        { intros key' sig' d'. rewrite Hsame. apply Hbound. }
        exists [w]. split; [done|]. split.
        { constructor; [|done]. unfold isMissingKey. by rewrite Hcode. }
        intros i Hi. destruct (Hdrops i Hi) as [?| ->]; [by left|right].
        exists w. split; [apply list_elem_of_here|].
        unfold isDuplicateEntry. by rewrite Hcode.
      * unfold warnDuplicateKey. rewrite Hitem. cbn [mbind option_bind].
        intros [= <-]. split; [apply evolves_refl|]. split.
        { intros key' sig' d' Hd'. apply (Hbound key' sig' d').
          by destruct key'. }
        eexists [_]. split; [done|]. split; [|by left].
        constructor; [|done].
        split; [done|]. unfold soundWarning.
        cbn [code entry duplicateOf heap push_warning]. split; [|done].
        exists e. split; [done|].
        cbn [snd fst] in Hflag. rewrite (Hflag eq_refl) in Hsig.
        cbn [signature] in Hsig. injection Hsig as Hsig.
        by destruct (truthy (Entry.key e)).
    + intros Hrun.
      destruct (IH (set_indexOf key (<[sig := item]> (indexOf key st)) st))
        as (Hev & Hb & ws & Hws & Hsound & Hdrops); try done.
      * intros key' sig' d' Hin.
        rewrite indexOf_set_indexOf_ne by (intros ->; done).
        intros Hd'. apply (Hbelow key' sig' d'); [|done].
        by apply list_elem_of_further.
      * intros key' sig' d'. destruct (decide (key' = key)) as [->|Hne].
        -- rewrite indexOf_set_indexOf_eq.
           destruct (decide (sig = sig')) as [->|Hs].
           ++ rewrite lookup_insert_eq. intros [= <-]. lia.
           ++ rewrite lookup_insert_ne by done. apply Hbound.
        -- rewrite indexOf_set_indexOf_ne by done. apply Hbound.
      * rewrite heap_set_indexOf in Hev, Hdrops.
        rewrite warnings_set_indexOf in Hws.
        split; [done|]. split; [done|]. by exists ws.
  - intros Hrun. apply IH; try done.
    intros key' sig' d' Hin. apply Hbelow. by apply list_elem_of_further.
Qed.

Lemma filter_none {A : Type} (p : A -> bool) (l : list A) :
  Forall (fun x => p x = false) l -> List.filter p l = [].
Proof. induction 1 as [|x l Hx _ IH]; cbn [List.filter]; [done|by rewrite Hx]. Qed.

Lemma indexItem_warns (H : Host) (o : Opt.t) (criteria : jsmap UniqueKey.t bool)
    (parsed : store) (k : nat) (st st' : State) :
  NoDup criteria.*1 ->
  Forall (fun kb => kb.2 = false -> kb.1 = UniqueKey.key) criteria ->
  warned parsed k st ->
  indexItem H o criteria st k = Some st' ->
  warned parsed (S k) st'.
Proof.
  intros Hnd Hflags (Hev & Hbound & Hsound & Hmissing & Hdrops).
  unfold indexItem, warned. rewrite seq_S, List.filter_app. cbn [List.filter Nat.add].
  rewrite <- (evolves_keyless _ _ k Hev).
  destruct (getEntry (heap st) k) as [e|] eqn:Hitem.
  2:{ intros [= <-]. unfold keyless. rewrite Hitem, app_nil_r.
      split; [done|]. split; [|done].
      intros key sig d Hd. specialize (Hbound key sig d Hd). lia. }
  set (st1 := if truthy (Entry.key e) then st else push_warning _ st).
  set (st2 := set_heap _ st1). intros Hrun.
  assert (Hheap1 : heap st1 = heap st).
  { unfold st1. by destruct (truthy (Entry.key e)). }
  assert (Hmaps : forall key, indexOf key st2 = indexOf key st).
  { intros key. unfold st2, st1. by destruct (truthy (Entry.key e)), key. }
  assert (Hev2 : evolves (heap st) (heap st2)).
  { unfold st2. cbn [heap set_heap]. rewrite Hheap1.
    by eapply evolves_insert. }
  assert (Hdrop2 : forall i, isDropped (heap st2) i = isDropped (heap st) i).
  { intros i. unfold st2. cbn [heap set_heap]. rewrite Hheap1. unfold isDropped.
    destruct (decide (i = k)) as [->|Hne].
    - erewrite getEntry_insert_eq by done. by rewrite Hitem.
    - by rewrite getEntry_insert_ne by done. }
  destruct (checkUniq_warns H (Opt.mergeStrategy o) criteria k st2 st')
    as (Hev' & Hbound' & ws & Hws & Hnew & Hdrops'); try done.
  { intros key sig d _. rewrite Hmaps. apply Hbound. }
  { intros key sig d. rewrite Hmaps. intros Hd.
    specialize (Hbound key sig d Hd). lia. }
  assert (Hall : evolves (heap st) (heap st')) by (by eapply evolves_trans).
  assert (Hw2 : warnings st2
                = warnings st ++ (if truthy (Entry.key e) then []
                                  else [mkWarning MISSING_KEY
                                          (showKey (Entry.key e)
                                             ++ js " does not have an entry key.")
                                          k None])).
  { unfold st2, st1. destruct (truthy (Entry.key e)); [|done].
    cbn [warnings set_heap]. by rewrite app_nil_r. }
  rewrite Hw2 in Hws.
  split; [by eapply evolves_trans|]. split; [done|]. split; [|split].
  - rewrite Hws. apply Forall_app. split; [apply Forall_app; split|].
    + eapply Forall_impl; [exact Hsound|].
      intros w. by apply soundWarning_evolves.
    + destruct (truthy (Entry.key e)) eqn:Hkey; [done|].
      constructor; [|done]. unfold soundWarning. cbn [code entry duplicateOf].
      split; [|done]. rewrite (evolves_keyless _ _ k Hall).
      unfold keyless. by rewrite Hitem, Hkey.
    + eapply Forall_impl; [exact Hnew|]. by intros w [_ ?].
  - rewrite Hws, !List.filter_app, !fmap_app, Hmissing.
    rewrite (filter_none isMissingKey ws)
      by (eapply Forall_impl; [exact Hnew|]; by intros w [? _]).
    rewrite app_nil_r. f_equal. unfold keyless. rewrite Hitem.
    by destruct (truthy (Entry.key e)).
  - intros i Hi. rewrite Hws.
    destruct (Hdrops' i Hi) as [Hold|(w & Hw & Hdup & Hentry)].
    + rewrite Hdrop2 in Hold.
      destruct (Hdrops i Hold) as [?|(w & Hw & Hdup & Hentry)]; [by left|].
      right. exists w. split; [|done]. rewrite !elem_of_app. tauto.
    + right. exists w. split; [|done]. rewrite !elem_of_app. tauto.
Qed.

Lemma forEach_indexItem_warns (H : Host) (o : Opt.t)
    (criteria : jsmap UniqueKey.t bool) (parsed : store) (n k : nat)
    (st st' : State) :
  NoDup criteria.*1 ->
  Forall (fun kb => kb.2 = false -> kb.1 = UniqueKey.key) criteria ->
  warned parsed k st ->
  forEach (indexItem H o criteria) (seq k n) st = Some st' ->
  warned parsed (k + n) st'.
Proof.
  intros Hnd Hflags. revert k st.
  induction n as [|n IH]; intros k st Hinv; cbn [seq forEach].
  - intros [= <-]. by rewrite Nat.add_0_r.
  - destruct (indexItem H o criteria st k) as [st1|] eqn:Hturn; [|done].
    cbn [mbind option_bind]. intros Hrun.
    rewrite <- Nat.add_succ_comm. eapply IH; [|done].
    by eapply indexItem_warns.
Qed.

Lemma set_of_list_NoDup {K : Type} `{EqDecision K} (seen l : list K) :
  NoDup (set_of_list seen l).
Proof.
  revert seen. induction l as [|k l IH]; intros seen; cbn [set_of_list].
  - constructor.
  - destruct (decide (k ∈ seen)); [apply IH|].
    constructor; [|apply IH]. intros Hin.
    apply set_of_list_not_seen in Hin as [Hin _]. apply Hin, list_elem_of_here.
Qed.

Lemma uniqCheck_shape (merge : BoolOrList UniqueKey.t) :
  NoDup (uniqCheck merge).*1
  /\ Forall (fun kb => kb.2 = false -> kb.1 = UniqueKey.key) (uniqCheck merge).
Proof.
  unfold uniqCheck.
  rewrite (requested_criteria (mergeKeys merge) []) by (done || constructor).
  cbn [app fmap list_fmap].
  set (requested := (fun key => (key, true)) <$> set_of_list [] (mergeKeys merge)).
  assert (Hkeys : requested.*1 = set_of_list [] (mergeKeys merge)).
  { unfold requested. rewrite <- list_fmap_compose. apply list_fmap_id. }
  assert (Hnd : NoDup requested.*1) by (rewrite Hkeys; apply set_of_list_NoDup).
  assert (Htrue : Forall (fun kb : UniqueKey.t * bool =>
                            kb.2 = false -> kb.1 = UniqueKey.key) requested).
  { unfold requested. apply Forall_fmap, Forall_forall. by intros key _. }
  destruct (map_has UniqueKey.key requested) eqn:Hhas; [done|].
  split; [by apply map_set_NoDup|].
  rewrite map_set_fresh.
  - apply Forall_app. split; [done|]. by constructor.
  - intros Hin. apply map_has_elem in Hin. congruence.
Qed.

Lemma indexItems_warns (H : Host) (o : Opt.t) (parsed : store) (st : State) :
  indexItems H o (seq 0 (length parsed)) parsed = Some st ->
  warned parsed (length parsed) st.
Proof.
  unfold indexItems. intros Hrun.
  destruct (uniqCheck_shape (Opt.merge o)) as [Hnd Hflags].
  apply (forEach_indexItem_warns H o _ parsed (length parsed) 0
           (mkState parsed ∅ ∅ ∅ ∅ []) st Hnd Hflags); [|done].
  split; [apply evolves_refl|]. split.
  { intros key sig d Hd. destruct key; cbn in Hd; by rewrite lookup_empty in Hd. }
  split; [done|]. split; [done|]. intros i Hi. by left.
Qed.

Lemma evolves_written (h h' : store) :
  (forall i, h' !! i = written <$> h !! i) -> evolves h h'.
Proof.
  intros Hlook i. rewrite (getEntry_written h h' i (Hlook i)).
  destruct (getEntry h i) as [e|]; [|done]. eexists. split; [done|].
  by destruct (Entry.duplicate e) eqn:E.
Qed.

Lemma isDropped_written (h h' : store) (i : ref) :
  (forall i, h' !! i = written <$> h !! i) -> isDropped h' i = isDropped h i.
Proof.
  intros Hlook. unfold isDropped. rewrite (getEntry_written h h' i (Hlook i)).
  destruct (getEntry h i) as [e|]; [|done]. cbn.
  by destruct (Entry.duplicate e) eqn:E.
Qed.

(** X7.  Every warning that [tidy] returns is true of the objects it
    returns with it: the entry of
    a MISSING_KEY warning has no key; the entry of a DUPLICATE_KEY warning
    has one; a DUPLICATE_ENTRY warning names an entry that carries the
    duplicate flag, and with it the entry it was merged into, which stands
    before it in the input. *)
Theorem warnings_are_sound (H : Host) (input : jstring) (o : Opt.t) :
  exists r, tidy H input o = Some r
            /\ Forall (soundWarning (objects r)) (result_warnings r).
Proof.
  destruct (tidy_spec H input o)
    as (st & order & r & Hst & _ & _ & Hr & _ & Hw & _ & Hobj).
  exists r. split; [done|]. rewrite Hw.
  destruct (indexItems_warns H o _ st Hst) as (_ & _ & Hsound & _).
  eapply Forall_impl; [exact Hsound|]. intros w.
  apply soundWarning_evolves. by apply evolves_written.
Qed.

(** X8.  Whatever the configuration, the MISSING_KEY warnings are, in
    their order, one for each entry of the input that has no key or an empty
    one, in the order of the input. *)
Theorem missing_keys_are_reported_in_order (H : Host) (input : jstring) (o : Opt.t) :
  exists r, tidy H input o = Some r
            /\ entry <$> List.filter isMissingKey (result_warnings r)
               = List.filter (keyless (parse H input))
                   (seq 0 (length (parse H input))).
Proof.
  destruct (tidy_spec H input o)
    as (st & order & r & Hst & _ & _ & Hr & _ & Hw & _ & Hobj).
  exists r. split; [done|]. rewrite Hw.
  by destruct (indexItems_warns H o _ st Hst) as (_ & _ & _ & Hmissing & _).
Qed.

(** X9.  An entry carries the duplicate flag in the result exactly
    when a DUPLICATE_ENTRY warning names it (or when the parser had flagged
    it): nothing is dropped without a warning, and no such warning is given
    for an entry that is kept. *)
Theorem dropped_entries_are_reported (H : Host) (input : jstring) (o : Opt.t) :
  exists r, tidy H input o = Some r
            /\ forall item,
                 isDropped (objects r) item = true <->
                 isDropped (parse H input) item = true
                 \/ exists w, w ∈ result_warnings r
                              /\ isDuplicateEntry w = true /\ entry w = item.
Proof.
  destruct (tidy_spec H input o)
    as (st & order & r & Hst & _ & _ & Hr & _ & Hw & _ & Hobj).
  exists r. split; [done|]. rewrite Hw. intros item.
  rewrite (isDropped_written _ _ item Hobj).
  destruct (indexItems_warns H o _ st Hst) as (Hev & _ & Hsound & _ & Hdrops).
  split; [apply Hdrops|]. intros [Hparsed|(w & Hin & Hdup & <-)].
  - by eapply evolves_isDropped.
  - rewrite Forall_forall in Hsound. specialize (Hsound w Hin).
    unfold soundWarning in Hsound. unfold isDuplicateEntry in Hdup.
    destruct (code w); try done. by destruct Hsound as (d & _ & _ & _ & ?).
Qed.

Lemma fromCriterion_further criteria kb w :
  fromCriterion criteria w -> fromCriterion (kb :: criteria) w.
Proof.
  unfold fromCriterion. destruct (code w); [| done |];
    intros [key Hin]; exists key; by apply list_elem_of_further.
Qed.

Lemma checkUniq_codes (H : Host) (strategy : MergeStrategy.t)
    (criteria : jsmap UniqueKey.t bool) (item : ref) (st st' : State) :
  checkUniq H strategy criteria item st = Some st' ->
  exists ws, warnings st' = warnings st ++ ws
             /\ Forall (fromCriterion criteria) ws.
Proof.
  revert st. induction criteria as [|[key merge] rest IH]; intros st;
    cbn [checkUniq].
  { intros [= <-]. exists []. by rewrite app_nil_r. }
  destruct (getEntry (heap st) item) as [e|] eqn:Hitem; [|done].
  cbn [mbind option_bind].
  destruct (signature H key e) as [[sig|]|]; cbn [mbind option_bind]; [| |done].
  - destruct (indexOf key st !! sig) as [d|].
    + destruct merge.
      * unfold mergeDuplicate. rewrite Hitem. cbn [mbind option_bind].
        destruct (getEntry _ d); [|done]. cbn [mbind option_bind].
        destruct (applyStrategy _ _ _); [|done]. cbn [mbind option_bind].
        intros [= <-]. eexists [_]. split; [done|]. constructor; [|done].
        exists key. apply list_elem_of_here.
      * unfold warnDuplicateKey. rewrite Hitem. cbn [mbind option_bind].
        intros [= <-]. eexists [_]. split; [done|]. constructor; [|done].
        exists key. apply list_elem_of_here.
    + intros Hrun. destruct (IH _ Hrun) as (ws & Hws & Hfrom).
      rewrite warnings_set_indexOf in Hws. exists ws. split; [done|].
      eapply Forall_impl; [exact Hfrom|]. intros w. apply fromCriterion_further.
  - intros Hrun. destruct (IH _ Hrun) as (ws & Hws & Hfrom).
    exists ws. split; [done|].
    eapply Forall_impl; [exact Hfrom|]. intros w. apply fromCriterion_further.
Qed.

Lemma indexItem_codes (H : Host) (o : Opt.t) (criteria : jsmap UniqueKey.t bool)
    (item : ref) (st st' : State) :
  Forall (fromCriterion criteria) (warnings st) ->
  indexItem H o criteria st item = Some st' ->
  Forall (fromCriterion criteria) (warnings st').
Proof.
  intros Hold. unfold indexItem.
  destruct (getEntry (heap st) item) as [e|]; [|by intros [= <-]].
  intros Hrun. apply checkUniq_codes in Hrun as (ws & -> & Hfrom).
  apply Forall_app. split; [|done]. cbn [warnings set_heap].
  destruct (truthy (Entry.key e)); [done|]. cbn [warnings push_warning].
  apply Forall_app. split; [done|]. by constructor.
Qed.

Lemma forEach_indexItem_codes (H : Host) (o : Opt.t)
    (criteria : jsmap UniqueKey.t bool) (items : list ref) (st st' : State) :
  Forall (fromCriterion criteria) (warnings st) ->
  forEach (indexItem H o criteria) items st = Some st' ->
  Forall (fromCriterion criteria) (warnings st').
Proof.
  revert st. induction items as [|item items IH]; intros st Hold; cbn [forEach].
  - by intros [= <-].
  - destruct (indexItem H o criteria st item) as [st1|] eqn:Hturn; [|done].
    cbn [mbind option_bind]. apply IH. by eapply indexItem_codes.
Qed.

Lemma uniqCheck_requested (merge : BoolOrList UniqueKey.t) (key : UniqueKey.t) :
  (key, true) ∈ uniqCheck merge -> key ∈ mergeKeys merge.
Proof.
  unfold uniqCheck.
  rewrite (requested_criteria (mergeKeys merge) []) by (done || constructor).
  cbn [app fmap list_fmap].
  set (requested := (fun key => (key, true)) <$> set_of_list [] (mergeKeys merge)).
  assert (Hreq : (key, true) ∈ requested -> key ∈ mergeKeys merge).
  { unfold requested. rewrite list_elem_of_fmap. intros (k & [= ->] & Hin).
    by apply set_of_list_not_seen in Hin as [_ ?]. }
  destruct (map_has UniqueKey.key requested) eqn:Hhas; [done|].
  rewrite map_set_fresh.
  - rewrite elem_of_app, list_elem_of_singleton. intros [?|?]; [auto|done].
  - intros Hin. apply map_has_elem in Hin. congruence.
Qed.

Lemma set_of_list_elem {K : Type} `{EqDecision K} (seen l : list K) (k : K) :
  k ∈ l -> k ∉ seen -> k ∈ set_of_list seen l.
Proof.
  revert seen. induction l as [|k0 l IH]; intros seen Hin Hseen.
  { by apply elem_of_nil in Hin. }
  cbn [set_of_list]. apply elem_of_cons in Hin as [->|Hin].
  - rewrite decide_False by done. apply list_elem_of_here.
  - destruct (decide (k0 ∈ seen)); [by apply IH|].
    destruct (decide (k = k0)) as [->|Hne]; [apply list_elem_of_here|].
    apply list_elem_of_further, IH; [done|].
    rewrite not_elem_of_cons. done.
Qed.

Lemma uniqCheck_unrequested (merge : BoolOrList UniqueKey.t) (key : UniqueKey.t) :
  (key, false) ∈ uniqCheck merge -> UniqueKey.key ∉ mergeKeys merge.
Proof.
  unfold uniqCheck.
  rewrite (requested_criteria (mergeKeys merge) []) by (done || constructor).
  cbn [app fmap list_fmap].
  set (requested := (fun key => (key, true)) <$> set_of_list [] (mergeKeys merge)).
  assert (Hkeys : requested.*1 = set_of_list [] (mergeKeys merge)).
  { unfold requested. rewrite <- list_fmap_compose. apply list_fmap_id. }
  assert (Hreq : (key, false) ∉ requested).
  { unfold requested. rewrite list_elem_of_fmap. by intros (k & [= ] & _). }
  destruct (map_has UniqueKey.key requested) eqn:Hhas; [done|].
  intros _ Hin. assert (Hnot : map_has UniqueKey.key requested <> true) by congruence.
  apply Hnot, map_has_elem. rewrite Hkeys.
  apply set_of_list_elem; [done|apply not_elem_of_nil].
Qed.

Lemma indexItems_codes (H : Host) (o : Opt.t) (parsed : store) (st : State) :
  indexItems H o (seq 0 (length parsed)) parsed = Some st ->
  Forall (fromCriterion (uniqCheck (Opt.merge o))) (warnings st).
Proof. unfold indexItems. by apply forEach_indexItem_codes. Qed.

(** X10.  With [merge] off no DUPLICATE_ENTRY warning is given and no
    entry is flagged: the flags are those of the parsed items. *)
Theorem unmerged_entries_are_kept (H : Host) (input : jstring) (o : Opt.t) :
  Opt.merge o = IsFalse ->
  exists r, tidy H input o = Some r
            /\ Forall (fun w => isDuplicateEntry w = false) (result_warnings r)
            /\ forall item,
                 isDropped (objects r) item = isDropped (parse H input) item.
Proof.
  intros Hmerge.
  destruct (tidy_spec H input o)
    as (st & order & r & Hst & _ & _ & Hr & _ & Hw & _ & Hobj).
  exists r. split; [done|]. rewrite Hw.
  pose proof (indexItems_codes H o _ st Hst) as Hcodes.
  assert (Hnone : Forall (fun w => isDuplicateEntry w = false) (warnings st)).
  { eapply Forall_impl; [exact Hcodes|]. intros w.
    unfold fromCriterion, isDuplicateEntry. destruct (code w); try done.
    intros [key Hin]. apply uniqCheck_requested in Hin.
    rewrite Hmerge in Hin. by apply elem_of_nil in Hin. }
  split; [done|]. intros item. rewrite (isDropped_written _ _ item Hobj).
  destruct (indexItems_warns H o _ st Hst) as (Hev & _ & _ & _ & Hdrops).
  destruct (isDropped (parse H input) item) eqn:Hparsed.
  - by eapply evolves_isDropped.
  - destruct (isDropped (heap st) item) eqn:Hitem; [|done].
    destruct (Hdrops item Hitem) as [?|(w & Hin & Hdup & _)]; [congruence|].
    rewrite Forall_forall in Hnone. by rewrite (Hnone w Hin) in Hdup.
Qed.

Lemma unmerged_entries_are_kept_witness :
  Opt.merge Opt.default = IsFalse
  /\ exists r, tidy (sampleHost (fun _ => sampleTwins)) [] Opt.default = Some r
               /\ Forall (fun w => isDuplicateEntry w = false) (result_warnings r)
               /\ forall item,
                    isDropped (objects r) item
                    = isDropped (parse (sampleHost (fun _ => sampleTwins)) []) item.
Proof.
  split; [reflexivity|].
  apply (unmerged_entries_are_kept (sampleHost (fun _ => sampleTwins)) []
           Opt.default).
  reflexivity.
Defined.

(** X11.  When [key] is among the criteria of [merge], no DUPLICATE_KEY
    warning is given. *)
Theorem merging_on_key_gives_no_duplicate_key_warning
    (H : Host) (input : jstring) (o : Opt.t) :
  UniqueKey.key ∈ mergeKeys (Opt.merge o) ->
  exists r, tidy H input o = Some r
            /\ Forall (fun w => code w <> DUPLICATE_KEY) (result_warnings r).
Proof.
  intros Hmerge.
  destruct (tidy_spec H input o)
    as (st & order & r & Hst & _ & _ & Hr & _ & Hw & _ & Hobj).
  exists r. split; [done|]. rewrite Hw.
  pose proof (indexItems_codes H o _ st Hst) as Hcodes.
  eapply Forall_impl; [exact Hcodes|]. intros w.
  unfold fromCriterion. destruct (code w); try done.
  intros [key Hin] _. by apply uniqCheck_unrequested in Hin.
Qed.

Lemma merging_on_key_gives_no_duplicate_key_warning_witness :
  UniqueKey.key ∈ mergeKeys (Opt.merge lastOptions)
  /\ exists r, tidy (sampleHost (fun _ => sampleTwins)) [] lastOptions = Some r
               /\ Forall (fun w => code w <> DUPLICATE_KEY) (result_warnings r).
Proof.
  split; [apply list_elem_of_here|].
  apply (merging_on_key_gives_no_duplicate_key_warning
           (sampleHost (fun _ => sampleTwins)) [] lastOptions).
  apply list_elem_of_here.
Defined.

(** ** The key as the only criterion *)

Lemma find_app_first {A : Type} (p : A -> bool) (l1 l2 : list A) :
  List.find p (l1 ++ l2)
  = match List.find p l1 with Some x => Some x | None => List.find p l2 end.
Proof.
  induction l1 as [|x l1 IH]; cbn [app List.find]; [done|].
  by destruct (p x).
Qed.

Lemma evolves_key (h h' : store) (i : ref) :
  evolves h h' -> Entry.key <$> getEntry h' i = Entry.key <$> getEntry h i.
Proof.
  intros Hev. specialize (Hev i). destruct (getEntry h i) as [e|].
  - destruct Hev as (e' & -> & Hk & _). cbn. by rewrite Hk.
  - by rewrite Hev.
Qed.

Lemma indexItem_keyIndexed (H : Host) (o : Opt.t) (merge : bool)
    (parsed : store) (k : nat) (st st' : State) :
  warned parsed k st ->
  keyIndexed merge parsed k st ->
  indexItem H o [(UniqueKey.key, merge)] st k = Some st' ->
  keyIndexed merge parsed (S k) st'.
Proof.
  intros (Hev & Hbound & _) (Hkeys & Hhits & Hcodes).
  pose proof (evolves_key _ _ k Hev) as Hkey.
  unfold hits in Hhits, Hcodes.
  unfold indexItem, keyIndexed, repeatedKeys, hits.
  rewrite seq_S, omap_app. cbn [Nat.add omap list_omap].
  assert (Hfind : forall sig,
             List.find (hasKey parsed sig) (seq 0 k ++ [k])
             = match List.find (hasKey parsed sig) (seq 0 k) with
               | Some d => Some d
               | None => if hasKey parsed sig k then Some k else None
               end).
  { intros sig. rewrite find_app_first. cbn [List.find]. done. }
  destruct (getEntry (heap st) k) as [e|] eqn:Hitem.
  2:{ intros [= <-]. cbn in Hkey.
      assert (Hnone : getEntry parsed k = None)
        by (by destruct (getEntry parsed k)).
      unfold firstWithKey. rewrite Hnone. cbn [fmap option_fmap].
      rewrite app_nil_r. split; [|done].
      intros sig Hsig. rewrite Hfind, <- Hkeys by done.
      unfold hasKey. rewrite Hnone. cbn.
      rewrite bool_decide_eq_false_2 by done. by destruct (keys st !! sig). }
  destruct (getEntry parsed k) as [e0|] eqn:Hparsed; [|done].
  cbn in Hkey. injection Hkey as Hkey.
  assert (Hhas : forall sig, hasKey parsed sig k
                             = bool_decide (Entry.key e = Some sig)).
  { intros sig. unfold hasKey. rewrite Hparsed. cbn. rewrite <- Hkey.
    apply bool_decide_ext. split; congruence. }
  unfold firstWithKey. rewrite Hparsed, <- Hkey.
  cbn [checkUniq heap set_heap].
  erewrite getEntry_insert_eq
    by (by destruct (truthy (Entry.key e))).
  cbn [mbind option_bind signature].
  change (Entry.key (Entry.set_fieldMap _ e)) with (Entry.key e).
  destruct (Entry.key e) as [[|c sig0]|] eqn:Hk; cbn [truthy mbind option_bind].
  - (* an empty key *)
    intros [= <-]. cbn [keys warnings set_heap push_warning fmap option_fmap].
    rewrite app_nil_r, List.filter_app. cbn [List.filter isMissingKey code negb].
    rewrite app_nil_r. split; [|done].
    intros sig Hsig. rewrite Hfind, Hhas, <- Hkeys by done.
    rewrite bool_decide_eq_false_2 by congruence. by destruct (keys st !! sig).
  - (* a key *)
    cbn [indexOf keys set_heap].
    rewrite (Hkeys (c :: sig0)) by done.
    destruct (List.find (hasKey parsed (c :: sig0)) (seq 0 k)) as [d|] eqn:Hfirst.
    + assert (Hsame : forall sig, sig <> [] ->
                 keys st !! sig = List.find (hasKey parsed sig) (seq 0 k ++ [k])).
      { intros sig Hsig. rewrite Hfind, Hhas, <- Hkeys by done.
        destruct (keys st !! sig) eqn:Hlook; [done|].
        rewrite bool_decide_eq_false_2; [done|].
        intros [= <-]. rewrite Hkeys in Hlook by done. congruence. }
      assert (Hlt : (d < k)%nat).
      { apply (Hbound UniqueKey.key (c :: sig0) d). cbn [indexOf].
        by rewrite Hkeys. }
      cbn [fmap option_fmap]. destruct merge.
      * intros Hmerge.
        destruct (mergeDuplicate_warns _ _ _ _ _ Hlt Hmerge)
          as (_ & Hmaps & w & Hw & Hcode & Hentry & Hdup & _).
        assert (Hmiss : negb (isMissingKey w) = true)
          by (unfold isMissingKey; by rewrite Hcode).
        rewrite Hw. cbn [warnings set_heap].
        rewrite List.filter_app, !fmap_app. cbn [List.filter].
        rewrite Hmiss. cbn [fmap list_fmap fst snd].
        rewrite Hentry, Hdup. split; [|split].
        -- intros sig Hsig. rewrite <- Hsame by done.
           pose proof (Hmaps UniqueKey.key) as Hm.
           cbn [indexOf keys set_heap] in Hm. by rewrite Hm.
        -- by rewrite Hhits.
        -- apply Forall_app. split; [done|]. by constructor.
      * unfold warnDuplicateKey. cbn [heap set_heap].
        erewrite getEntry_insert_eq by done. cbn [mbind option_bind].
        intros [= <-]. cbn [keys warnings set_heap push_warning].
        rewrite List.filter_app, !fmap_app. cbn [List.filter isMissingKey code negb].
        cbn [fmap list_fmap fst snd entry duplicateOf].
        split; [done|]. split; [by rewrite Hhits|].
        apply Forall_app. split; [done|]. by constructor.
    + intros [= <-]. cbn [keys warnings set_heap set_indexOf fmap option_fmap].
      rewrite app_nil_r. split; [|done].
      intros sig Hsig. rewrite Hfind, Hhas.
      destruct (decide (sig = c :: sig0)) as [->|Hne].
      * rewrite lookup_insert_eq, Hfirst. by rewrite bool_decide_eq_true_2.
      * rewrite lookup_insert_ne by done. rewrite <- Hkeys by done.
        rewrite bool_decide_eq_false_2 by congruence.
        by destruct (keys st !! sig).
  - (* no key *)
    intros [= <-]. cbn [keys warnings set_heap push_warning fmap option_fmap].
    rewrite app_nil_r, List.filter_app. cbn [List.filter isMissingKey code negb].
    rewrite app_nil_r. split; [|done].
    intros sig Hsig. rewrite Hfind, Hhas, <- Hkeys by done.
    rewrite bool_decide_eq_false_2 by congruence. by destruct (keys st !! sig).
Qed.

Lemma forEach_indexItem_keyIndexed (H : Host) (o : Opt.t) (merge : bool)
    (parsed : store) (n k : nat) (st st' : State) :
  warned parsed k st ->
  keyIndexed merge parsed k st ->
  forEach (indexItem H o [(UniqueKey.key, merge)]) (seq k n) st = Some st' ->
  keyIndexed merge parsed (k + n) st'.
Proof.
  revert k st. induction n as [|n IH]; intros k st Hwarned Hinv;
    cbn [seq forEach].
  - intros [= <-]. by rewrite Nat.add_0_r.
  - destruct (indexItem H o _ st k) as [st1|] eqn:Hturn; [|done].
    cbn [mbind option_bind]. intros Hrun.
    rewrite <- Nat.add_succ_comm. eapply IH; [| |done].
    + eapply indexItem_warns; [| |done|done].
      * apply NoDup_singleton.
      * constructor; [|done]. cbn. by destruct merge.
    + by eapply indexItem_keyIndexed.
Qed.

Lemma indexItems_keyIndexed (H : Host) (o : Opt.t) (merge : bool)
    (parsed : store) (st : State) :
  uniqCheck (Opt.merge o) = [(UniqueKey.key, merge)] ->
  indexItems H o (seq 0 (length parsed)) parsed = Some st ->
  keyIndexed merge parsed (length parsed) st.
Proof.
  unfold indexItems. intros ->.
  apply (forEach_indexItem_keyIndexed H o merge parsed (length parsed) 0
           (mkState parsed ∅ ∅ ∅ ∅ [])).
  - split; [apply evolves_refl|]. split.
    { intros key sig d Hd. destruct key; cbn in Hd; by rewrite lookup_empty in Hd. }
    split; [done|]. split; [done|]. intros i Hi. by left.
  - split; [|done]. intros sig _. cbn. by rewrite lookup_empty.
Qed.

Lemma hits_of_code (q : Warning -> bool) (c : WarningCode) (ws : list Warning) :
  c <> MISSING_KEY ->
  (forall w, q w = true <-> code w = c) ->
  Forall (fun w => code w = c)
    (List.filter (fun w => negb (isMissingKey w)) ws) ->
  List.filter q ws = List.filter (fun w => negb (isMissingKey w)) ws.
Proof.
  intros Hc Hq. induction ws as [|w ws IH]; cbn [List.filter]; [done|].
  assert (Hm : negb (isMissingKey w)
               = match code w with MISSING_KEY => false | _ => true end)
    by (unfold isMissingKey; by destruct (code w)).
  rewrite Hm. destruct (code w) eqn:Hcode.
  - intros [Hw Hrest]%Forall_cons. rewrite (proj2 (Hq w)) by congruence.
    by rewrite IH.
  - intros Hrest. destruct (q w) eqn:Hqw; [|by apply IH].
    apply Hq in Hqw. congruence.
  - intros [Hw Hrest]%Forall_cons. rewrite (proj2 (Hq w)) by congruence.
    by rewrite IH.
Qed.

(** X12.  With [merge] off the DUPLICATE_KEY warnings are, in their
    order, one for each entry whose key (not empty) is the key of an entry
    before it, in the order of the input. *)
Theorem repeated_keys_are_warned_of (H : Host) (input : jstring) (o : Opt.t) :
  Opt.merge o = IsFalse ->
  exists r, tidy H input o = Some r
            /\ entry <$> List.filter isDuplicateKey (result_warnings r)
               = (repeatedKeys (parse H input) (length (parse H input))).*1.
Proof.
  intros Hmerge.
  destruct (tidy_spec H input o)
    as (st & order & r & Hst & _ & _ & Hr & _ & Hw & _ & Hobj).
  exists r. split; [done|]. rewrite Hw.
  destruct (indexItems_keyIndexed H o false (parse H input) st) as (_ & Hhits & Hcodes);
    [by rewrite Hmerge|done|].
  unfold hits in *.
  rewrite (hits_of_code isDuplicateKey DUPLICATE_KEY); [|done| |done].
  - apply (f_equal (fmap fst)) in Hhits.
    rewrite <- !list_fmap_compose in Hhits. exact Hhits.
  - intros w. unfold isDuplicateKey. by destruct (code w).
Qed.

Lemma repeated_keys_are_warned_of_witness :
  Opt.merge Opt.default = IsFalse
  /\ exists r, tidy (sampleHost (fun _ => sampleTwins)) [] Opt.default = Some r
               /\ entry <$> List.filter isDuplicateKey (result_warnings r)
                  = (repeatedKeys (parse (sampleHost (fun _ => sampleTwins)) [])
                       (length (parse (sampleHost (fun _ => sampleTwins)) []))).*1.
Proof.
  split; [reflexivity|].
  apply (repeated_keys_are_warned_of (sampleHost (fun _ => sampleTwins)) []
           Opt.default).
  reflexivity.
Defined.

(** X13.  With [merge: ['key']] the DUPLICATE_ENTRY warnings are, in
    their order, one for each entry whose key (not empty) is the key of an
    entry before it; each names as [duplicateOf] the first entry under that
    key; and these entries are the ones flagged as duplicates. *)
Theorem repeated_keys_merge_into_the_first (H : Host) (input : jstring)
    (o : Opt.t) :
  Opt.merge o = IsList [UniqueKey.key] ->
  exists r, tidy H input o = Some r
            /\ (fun w => (entry w, duplicateOf w))
               <$> List.filter isDuplicateEntry (result_warnings r)
               = (fun p => (p.1, Some p.2))
                 <$> repeatedKeys (parse H input) (length (parse H input))
            /\ forall item,
                 isDropped (objects r) item = true <->
                 isDropped (parse H input) item = true
                 \/ is_Some (firstWithKey (parse H input) item).
Proof.
  intros Hmerge.
  destruct (tidy_spec H input o)
    as (st & order & r & Hst & _ & _ & Hr & _ & Hw & _ & Hobj).
  exists r. split; [done|]. rewrite Hw.
  destruct (indexItems_keyIndexed H o true (parse H input) st) as (_ & Hhits & Hcodes);
    [by rewrite Hmerge|done|].
  destruct (indexItems_warns H o _ st Hst) as (Hev & _ & Hsound & _ & Hdrops).
  unfold hits in *.
  assert (Hfilter : List.filter isDuplicateEntry (warnings st)
                    = List.filter (fun w => negb (isMissingKey w)) (warnings st)).
  { apply (hits_of_code isDuplicateEntry DUPLICATE_ENTRY); [done| |done].
    intros w. unfold isDuplicateEntry. by destruct (code w). }
  rewrite Hfilter. split; [done|]. intros item.
  rewrite (isDropped_written _ _ item Hobj).
  assert (Hrepeat : is_Some (firstWithKey (parse H input) item)
                    <-> exists w, w ∈ warnings st
                                  /\ isDuplicateEntry w = true /\ entry w = item).
  { split.
    - intros [d Hd].
      assert (Hin : (item, Some d)
                    ∈ (fun p : ref * ref => (p.1, Some p.2))
                      <$> repeatedKeys (parse H input) (length (parse H input))).
      { apply list_elem_of_fmap. exists (item, d). split; [done|].
        unfold repeatedKeys. apply list_elem_of_omap. exists item.
        rewrite Hd. split; [|done]. apply elem_of_seq.
        unfold firstWithKey in Hd.
        destruct (getEntry (parse H input) item) eqn:Hitem; [|done].
        unfold getEntry in Hitem.
        destruct (parse H input !! item) eqn:Hlook; [|done].
        apply lookup_lt_Some in Hlook. lia. }
      rewrite <- Hhits in Hin. apply list_elem_of_fmap in Hin as (w & [= -> _] & Hin).
      exists w. rewrite <- Hfilter in Hin.
      apply list_elem_of_In, filter_In in Hin as [Hin ?].
      by rewrite <- list_elem_of_In in Hin.
    - intros (w & Hin & Hdup & <-).
      assert (Hhit : (entry w, duplicateOf w)
                     ∈ (fun w => (entry w, duplicateOf w))
                       <$> List.filter (fun w => negb (isMissingKey w))
                             (warnings st)).
      { apply list_elem_of_fmap. exists w. split; [done|].
        rewrite <- Hfilter. apply list_elem_of_In, filter_In.
        by rewrite <- list_elem_of_In. }
      rewrite Hhits in Hhit. apply list_elem_of_fmap in Hhit as ([i d] & [= Hi _] & Hp).
      unfold repeatedKeys in Hp. apply list_elem_of_omap in Hp as (j & _ & Hj).
      destruct (firstWithKey (parse H input) j) eqn:Hfirst; [|done].
      injection Hj as <- <-. cbn in Hi. rewrite Hi, Hfirst. by eexists. }
  rewrite Hrepeat. split; [apply Hdrops|].
  intros [Hparsed|(w & Hin & Hdup & <-)].
  - by eapply evolves_isDropped.
  - rewrite Forall_forall in Hsound. specialize (Hsound w Hin).
    unfold soundWarning in Hsound. unfold isDuplicateEntry in Hdup.
    destruct (code w); try done. by destruct Hsound as (d & _ & _ & _ & ?).
Qed.

Lemma repeated_keys_merge_into_the_first_witness :
  Opt.merge lastOptions = IsList [UniqueKey.key]
  /\ exists r, tidy (sampleHost (fun _ => sampleTwins)) [] lastOptions = Some r
       /\ (fun w => (entry w, duplicateOf w))
          <$> List.filter isDuplicateEntry (result_warnings r)
          = (fun p => (p.1, Some p.2))
            <$> repeatedKeys (parse (sampleHost (fun _ => sampleTwins)) [])
                  (length (parse (sampleHost (fun _ => sampleTwins)) []))
       /\ forall item,
            isDropped (objects r) item = true <->
            isDropped (parse (sampleHost (fun _ => sampleTwins)) []) item = true
            \/ is_Some (firstWithKey (parse (sampleHost (fun _ => sampleTwins)) [])
                          item).
Proof.
  split; [reflexivity|].
  apply (repeated_keys_merge_into_the_first (sampleHost (fun _ => sampleTwins))
           [] lastOptions).
  reflexivity.
Defined.

(** ** Comments travel with the entry that follows them *)

Lemma fold_insert_lookup {V : Type} (v : V) (l : list ref) (m : gmap ref V)
    (k : ref) :
  fold_left (fun m meta => <[meta := v]> m) l m !! k
  = if decide (k ∈ l) then Some v else m !! k.
Proof.
  revert m. induction l as [|a l IH]; intros m; cbn [fold_left].
  - rewrite decide_False; [done|apply not_elem_of_nil].
  - rewrite IH. destruct (decide (k ∈ l)) as [Hin|Hnotin].
    + rewrite decide_True; [done|by apply list_elem_of_further].
    + destruct (decide (k = a)) as [->|Hne].
      * rewrite decide_True by apply list_elem_of_here.
        by rewrite lookup_insert_eq.
      * rewrite decide_False by (rewrite not_elem_of_cons; done).
        by rewrite lookup_insert_ne.
Qed.

Lemma sortIndexStep_frame (H : Host) (sort : list jstring) (h : store)
    (l : list ref) (st : gmap ref (jsmap jstring jstring) * list ref) (k : ref) :
  k ∉ l -> k ∉ st.2 ->
  (fold_left (sortIndexStep H sort h) l st).1 !! k = st.1 !! k.
Proof.
  revert st. induction l as [|item l IH]; intros [sortIndexes preceedingMeta];
    [done|].
  rewrite not_elem_of_cons. intros [Hne Hl] Hmeta. cbn [fold_left snd fst] in *.
  rewrite IH; [|done|].
  - unfold sortIndexStep. destruct (getEntry h item); cbn [fst]; [|done].
    rewrite fold_insert_lookup, decide_False
      by (by rewrite elem_of_reverse).
    by rewrite lookup_insert_ne.
  - unfold sortIndexStep. destruct (getEntry h item); cbn [snd].
    + apply not_elem_of_nil.
    + rewrite elem_of_app, list_elem_of_singleton. tauto.
Qed.

Lemma sortIndexStep_metas (H : Host) (sort : list jstring) (h : store)
    (metas : list ref) (st : gmap ref (jsmap jstring jstring) * list ref) :
  Forall (fun meta => getEntry h meta = None) metas ->
  fold_left (sortIndexStep H sort h) metas st = (st.1, st.2 ++ metas).
Proof.
  intros Hmetas. revert st.
  induction Hmetas as [|meta metas Hmeta _ IH]; intros [sortIndexes preceedingMeta];
    cbn [fold_left fst snd].
  - by rewrite app_nil_r.
  - rewrite IH. unfold sortIndexStep. rewrite Hmeta. cbn [fst snd].
    by rewrite <- app_assoc.
Qed.

(** The items on the stack when an entry is met are given its index. *)
Lemma makeSortIndexes_block (H : Host) (sort : list jstring) (h : store)
    (before metas after : list ref) (item : ref) (e : Entry.t) (k : ref) :
  NoDup (before ++ metas ++ item :: after) ->
  Forall (fun meta => getEntry h meta = None) metas ->
  getEntry h item = Some e ->
  k ∈ metas ++ [item] ->
  makeSortIndexes H sort h (before ++ metas ++ item :: after) !! k
  = Some (makeSortIndex H sort e).
Proof.
  intros Hnd Hmetas Hitem Hk. unfold makeSortIndexes.
  rewrite !fold_left_app. cbn [fold_left].
  destruct (fold_left (sortIndexStep H sort h) before (∅, []))
    as [sortIndexes preceedingMeta].
  rewrite (sortIndexStep_metas H sort h metas) by done. cbn [fst snd].
  assert (Hafter : k ∉ after).
  { apply NoDup_app in Hnd as (_ & _ & Hnd).
    change (item :: after) with ([item] ++ after) in Hnd.
    rewrite (assoc_L (++) metas [item] after) in Hnd.
    apply NoDup_app in Hnd as (_ & Hsep & _). by apply Hsep. }
  rewrite sortIndexStep_frame; [|done|].
  - unfold sortIndexStep. rewrite Hitem. cbn [fst].
    rewrite fold_insert_lookup.
    apply elem_of_app in Hk as [Hk| ->%list_elem_of_singleton].
    + rewrite decide_True; [done|].
      rewrite elem_of_reverse, elem_of_app. by right.
    + destruct (decide _); [done|]. by rewrite lookup_insert_eq.
  - unfold sortIndexStep. rewrite Hitem. cbn [snd]. apply not_elem_of_nil.
Qed.

Lemma compareBy_same_index (H : Host)
    (sortIndexes : gmap ref (jsmap jstring jstring)) (sortKey : jstring)
    (a b x : ref) :
  sortIndexes !! a = sortIndexes !! b ->
  compareBy H sortIndexes sortKey a x = compareBy H sortIndexes sortKey b x
  /\ compareBy H sortIndexes sortKey x a = compareBy H sortIndexes sortKey x b.
Proof.
  intros Hsame. unfold compareBy, indexValue. unfold jsmap in *.
  by rewrite Hsame.
Qed.

Lemma compositeCompare_same_index (H : Host)
    (sortIndexes : gmap ref (jsmap jstring jstring)) (sort : list jstring)
    (a b x : ref) :
  sortIndexes !! a = sortIndexes !! b ->
  compositeCompare H sortIndexes sort a x = compositeCompare H sortIndexes sort b x
  /\ compositeCompare H sortIndexes sort x a = compositeCompare H sortIndexes sort x b.
Proof.
  intros Hsame. induction sort as [|sortKey rest [IH1 IH2]]; [done|].
  destruct (compareBy_same_index H sortIndexes sortKey a b x Hsame) as [E1 E2].
  cbn [compositeCompare]. unfold lexCompare. by rewrite E1, E2, IH1, IH2.
Qed.

Lemma filter_all {A : Type} (p : A -> bool) (l : list A) :
  Forall (fun x => p x = true) l -> List.filter p l = l.
Proof.
  induction 1 as [|x l Hx _ IH]; cbn [List.filter]; [done|].
  by rewrite Hx, IH.
Qed.

(** A list in order is its items before [a], then those the comparator does
    not tell apart from [a], then those after. *)
Lemma sorted_ties_together {A : Type} (cmp : A -> A -> Z) (a : A) (s : list A) :
  consistent cmp ->
  StronglySorted (fun x y => (cmp x y <= 0)%Z) s ->
  s = List.filter (fun x => (cmp x a <? 0)%Z) s
      ++ tiesOf cmp a s
      ++ List.filter (fun x => (0 <? cmp x a)%Z) s.
Proof.
  intros Hc. unfold tiesOf.
  induction 1 as [|x s Hs IH Hx]; [done|]. cbn [List.filter].
  pose proof (proj1 Hc x a) as Sxa.
  destruct (Z.ltb_spec (cmp x a) 0) as [Hlt|Hge].
  { destruct (Z.eqb_spec (cmp a x) 0); [lia|].
    destruct (Z.ltb_spec 0 (cmp x a)); [lia|].
    cbn [app]. by rewrite <- IH. }
  assert (Hnone : List.filter (fun x => (cmp x a <? 0)%Z) s = []).
  { apply filter_none. eapply Forall_impl; [exact Hx|]. intros y Hy.
    cbn beta in *. apply Z.ltb_ge.
    pose proof (proj1 Hc y a) as Sya. pose proof (proj2 Hc a x y) as T1.
    pose proof (proj2 Hc x y a) as T2.
    pose proof (proj2 Hc y a x) as T3. pose proof (proj1 Hc x y) as Sxy.
    pose proof (proj1 Hc a y) as Say. lia. }
  rewrite Hnone in *. cbn [app] in *.
  destruct (Z.eqb_spec (cmp a x) 0) as [Heq|Hne].
  - destruct (Z.ltb_spec 0 (cmp x a)); [lia|]. cbn [app]. by rewrite <- IH.
  - destruct (Z.ltb_spec 0 (cmp x a)) as [Hgt|]; [|lia].
    assert (Hafter : Forall (fun y => (0 < cmp y a)%Z) s).
    { eapply Forall_impl; [exact Hx|]. intros y Hy. cbn beta in *.
      pose proof (proj2 Hc x y a) as T2. lia. }
    rewrite (filter_none (fun y => (cmp a y =? 0)%Z) s).
    + cbn [app]. rewrite filter_all; [done|].
      eapply Forall_impl; [exact Hafter|]. intros y Hy. by apply Z.ltb_lt.
    + eapply Forall_impl; [exact Hafter|]. intros y Hy. cbn beta in *.
      apply Z.eqb_neq. pose proof (proj1 Hc y a). lia.
Qed.

(** X14.  The comments, strings and preambles that stand directly
    before an entry stand directly before it after the sort as well, in the
    same order, whatever the sort keys: they are given the entry's sort
    index, and the sort is stable. *)
Theorem comments_stay_before_their_entry (H : Host) (sort : list jstring)
    (h : store) (before metas after : list ref) (item : ref) :
  consistent (localeCompare H) ->
  NoDup (before ++ metas ++ item :: after) ->
  Forall (fun meta => getEntry h meta = None) metas ->
  is_Some (getEntry h item) ->
  exists before' after',
    sortItems H sort h (before ++ metas ++ item :: after)
    = before' ++ metas ++ item :: after'.
Proof.
  intros Hc Hnd Hmetas [e Hitem].
  set (items := before ++ metas ++ item :: after).
  set (sortIndexes := makeSortIndexes H sort h items).
  set (cmp := compositeCompare H sortIndexes sort).
  assert (Hcmp : consistent cmp) by (by apply compositeCompare_consistent).
  unfold sortItems. fold sortIndexes. rewrite sortPasses_composite by done.
  fold cmp.
  destruct (array_sort_stable cmp items Hcmp) as (_ & Hsorted & Hties).
  rewrite (sorted_ties_together cmp item _ Hcmp Hsorted), Hties.
  assert (Hblock : forall k, k ∈ metas ++ [item] -> (cmp item k =? 0)%Z = true).
  { intros k Hk. apply Z.eqb_eq.
    assert (Hsame : sortIndexes !! k = sortIndexes !! item).
    { unfold sortIndexes, items.
      rewrite !(makeSortIndexes_block H sort h before metas after item e);
        try done.
      rewrite elem_of_app, list_elem_of_singleton. by right. }
    unfold cmp.
    rewrite (proj2 (compositeCompare_same_index H sortIndexes sort k item item
                      Hsame)).
    by apply consistent_refl. }
  unfold tiesOf, items.
  change (item :: after) with ([item] ++ after).
  rewrite !List.filter_app.
  rewrite (filter_all _ metas), (filter_all _ [item]).
  - exists (List.filter (fun x => (cmp x item <? 0)%Z)
              (array_sort cmp (before ++ metas ++ [item] ++ after))
            ++ List.filter (fun x => (cmp item x =? 0)%Z) before),
           (List.filter (fun x => (cmp item x =? 0)%Z) after
            ++ List.filter (fun x => (0 <? cmp x item)%Z)
                 (array_sort cmp (before ++ metas ++ [item] ++ after))).
    by rewrite <- !app_assoc.
  - constructor; [|done]. apply Hblock.
    rewrite elem_of_app, list_elem_of_singleton. by right.
  - apply Forall_forall. intros k Hk. apply Hblock.
    rewrite elem_of_app. by left.
Qed.

Lemma comments_stay_before_their_entry_witness :
  consistent (localeCompare asciiHost)
  /\ NoDup ([0] ++ [1; 2] ++ 3 :: [4])%nat
  /\ Forall (fun meta => getEntry [sampleDated; CommentItem (js "one");
                                   CommentItem (js "two"); sampleUndated;
                                   CommentItem (js "end")] meta = None)
       [1; 2]%nat
  /\ is_Some (getEntry [sampleDated; CommentItem (js "one");
                        CommentItem (js "two"); sampleUndated;
                        CommentItem (js "end")] 3%nat)
  /\ exists before' after',
       sortItems asciiHost [js "key"]
         [sampleDated; CommentItem (js "one"); CommentItem (js "two");
          sampleUndated; CommentItem (js "end")]
         ([0] ++ [1; 2] ++ 3 :: [4])%nat
       = before' ++ [1; 2]%nat ++ 3%nat :: after'.
Proof.
  assert (Hc : consistent (localeCompare asciiHost))
    by apply codeUnitCompare_consistent.
  assert (Hnd : NoDup ([0] ++ [1; 2] ++ 3 :: [4])%nat).
  { apply (bool_decide_unpack _). vm_compute. exact I. }
  assert (Hmetas : Forall (fun meta =>
                      getEntry [sampleDated; CommentItem (js "one");
                                CommentItem (js "two"); sampleUndated;
                                CommentItem (js "end")] meta = None)
                     [1; 2]%nat).
  { repeat constructor. }
  assert (Hitem : is_Some (getEntry [sampleDated; CommentItem (js "one");
                                     CommentItem (js "two"); sampleUndated;
                                     CommentItem (js "end")] 3%nat)).
  { by eexists. }
  split; [exact Hc|]. split; [exact Hnd|]. split; [exact Hmetas|].
  split; [exact Hitem|].
  exact (comments_stay_before_their_entry asciiHost [js "key"] _
           [0]%nat [1; 2]%nat [4]%nat 3%nat Hc Hnd Hmetas Hitem).
Defined.

(** ** The order of the fields *)

Lemma set_of_list_app {K : Type} `{EqDecision K} (seen l1 l2 : list K) :
  set_of_list seen (l1 ++ l2)
  = set_of_list seen l1 ++ set_of_list (l1 ++ seen) l2.
Proof.
  revert seen. induction l1 as [|k l1 IH]; intros seen; [done|].
  cbn [app set_of_list]. destruct (decide (k ∈ seen)) as [Hin|Hnotin].
  - rewrite IH. f_equal. apply set_of_list_ext. intros x.
    rewrite elem_of_cons, !elem_of_app. split; [tauto|].
    intros [->|?]; tauto.
  - cbn [app]. rewrite IH. do 2 f_equal. apply set_of_list_ext. intros x.
    rewrite elem_of_cons, !elem_of_app, elem_of_cons. tauto.
Qed.

Lemma set_of_list_NoDup_filter {K : Type} `{EqDecision K} (seen l : list K) :
  NoDup l ->
  set_of_list seen l = List.filter (fun k => bool_decide (k ∉ seen)) l.
Proof.
  intros Hnd. revert seen.
  induction Hnd as [|k l Hk Hnd IH]; intros seen; [done|].
  cbn [set_of_list List.filter]. destruct (decide (k ∈ seen)) as [Hin|Hnotin].
  - rewrite bool_decide_eq_false_2 by tauto. apply IH.
  - rewrite bool_decide_eq_true_2 by done. f_equal. rewrite IH.
    apply filter_ext_in. intros x Hx. apply bool_decide_ext.
    rewrite not_elem_of_cons. apply list_elem_of_In in Hx.
    split; [tauto|]. intros ?. split; [|done]. by intros ->.
Qed.

Lemma concat_fmap_filter {A B : Type} (f : A -> list B) (p : A -> bool)
    (l : list A) :
  (forall x, p x = false -> f x = []) ->
  concat (f <$> l) = concat (f <$> List.filter p l).
Proof.
  intros Hf. induction l as [|x l IH]; [done|].
  cbn [fmap list_fmap concat List.filter]. destruct (p x) eqn:Hp.
  - cbn [fmap list_fmap concat]. by rewrite IH.
  - by rewrite (Hf x Hp).
Qed.

Lemma written_names (o : Opt.t) (fieldMap : jsmap jstring ValueString.t) :
  NoDup (map_keys fieldMap) ->
  List.filter (fun k => map_has k fieldMap)
    (set_of_list [] (sortFieldsOf o ++ map_keys fieldMap))
  = fieldOrder (sortFieldsOf o) fieldMap.
Proof.
  intros Hnd. unfold fieldOrder.
  rewrite set_of_list_app, List.filter_app, app_nil_r. f_equal.
  rewrite set_of_list_NoDup_filter by done. apply filter_all.
  apply Forall_forall. intros k Hk.
  apply list_elem_of_In, filter_In in Hk as [Hk _].
  apply map_has_elem. by apply list_elem_of_In.
Qed.

Lemma fieldOrder_Permutation (sortFields : list jstring)
    (fieldMap : jsmap jstring ValueString.t) :
  NoDup (map_keys fieldMap) ->
  fieldOrder sortFields fieldMap ≡ₚ map_keys fieldMap.
Proof.
  intros Hnd. unfold fieldOrder. apply NoDup_Permutation; [|done|].
  - apply NoDup_app. split; [|split].
    + clear. generalize (set_of_list_NoDup [] sortFields).
      induction 1 as [|a l Ha _ IH]; cbn [List.filter]; [constructor|].
      destruct (map_has a fieldMap); [|done]. constructor; [|done].
      rewrite list_elem_of_In, filter_In, <- list_elem_of_In. tauto.
    + intros k Hk Hk'.
      apply list_elem_of_In, filter_In in Hk as [Hk _].
      apply list_elem_of_In, filter_In in Hk' as [_ Hk'].
      apply bool_decide_eq_true in Hk'. apply Hk'.
      apply list_elem_of_In in Hk. by apply set_of_list_not_seen in Hk as [_ ?].
    + revert Hnd. generalize (map_keys fieldMap).
      induction 1 as [|a l Ha _ IH]; cbn [List.filter]; [constructor|].
      destruct (bool_decide _); [|done]. constructor; [|done].
      rewrite list_elem_of_In, filter_In, <- list_elem_of_In. tauto.
  - intros k. rewrite elem_of_app, !list_elem_of_In, !filter_In,
      <- !list_elem_of_In, bool_decide_eq_true, map_has_elem.
    unfold map_keys. split; [tauto|]. intros Hk.
    destruct (decide (k ∈ sortFields)) as [Hin|Hnotin]; [left|right; done].
    split; [|done]. apply set_of_list_elem; [done|apply not_elem_of_nil].
Qed.

(** X15.  The serialiser writes the fields of an entry each once: first
    the names of [sortFields] that the entry has, in the order of
    [sortFields], then the other fields in their order in the entry. *)
Theorem fields_are_written_once_in_order (H : Host) (o : Opt.t)
    (item : Entry.t) (fieldMap : jsmap jstring ValueString.t) :
  NoDup (map_keys fieldMap) ->
  renderEntry H o item fieldMap
  = [Chr.at_sign] ++ toLowerCase H (Entry.type item) ++ [Chr.lbrace]
    ++ (if truthy (Entry.key item) then default [] (Entry.key item) else [])
    ++ concat (renderField H o fieldMap <$> fieldOrder (sortFieldsOf o) fieldMap)
    ++ [Chr.newline; Chr.rbrace; Chr.newline]
  /\ fieldOrder (sortFieldsOf o) fieldMap ≡ₚ map_keys fieldMap.
Proof.
  intros Hnd. split; [|by apply fieldOrder_Permutation].
  unfold renderEntry. do 4 f_equal.
  rewrite <- written_names by done. f_equal.
  apply concat_fmap_filter. intros k Hk. unfold renderField, map_has in *.
  by destruct (map_get k fieldMap).
Qed.

Lemma fields_are_written_once_in_order_witness :
  NoDup (map_keys [(js "year", ValueString.mk (js "1998") Datatype.braced);
                   (js "title", ValueString.mk (js "T") Datatype.braced)])
  /\ exists names,
       names ≡ₚ [js "year"; js "title"]
       /\ renderEntry asciiHost
            (sortFieldsOptions ["title"; "author"]%string)
            sampleKept
            [(js "year", ValueString.mk (js "1998") Datatype.braced);
             (js "title", ValueString.mk (js "T") Datatype.braced)]
          = [Chr.at_sign] ++ toLowerCase asciiHost (Entry.type sampleKept)
            ++ [Chr.lbrace]
            ++ (if truthy (Entry.key sampleKept)
                then default [] (Entry.key sampleKept) else [])
            ++ concat (renderField asciiHost
                         (sortFieldsOptions ["title"; "author"]%string)
                         [(js "year", ValueString.mk (js "1998") Datatype.braced);
                          (js "title", ValueString.mk (js "T") Datatype.braced)]
                       <$> names)
            ++ [Chr.newline; Chr.rbrace; Chr.newline].
Proof.
  assert (Hnd : NoDup (map_keys
                   [(js "year", ValueString.mk (js "1998") Datatype.braced);
                    (js "title", ValueString.mk (js "T") Datatype.braced)])).
  { apply (bool_decide_unpack _). vm_compute. exact I. }
  split; [exact Hnd|].
  destruct (fields_are_written_once_in_order asciiHost
              (sortFieldsOptions ["title"; "author"]%string)
              sampleKept _ Hnd) as [Htext Hperm].
  eexists. split; [exact Hperm|exact Htext].
Defined.

(** ** Underscores in a URL *)

Lemma encodeUnderscores_none (k : nat) (s : jstring) :
  Chr.underscore ∉ replaceAll underscore_match k s.
Proof.
  revert k. induction s as [|c s IH]; intros k; cbn [replaceAll].
  - apply not_elem_of_nil.
  - destruct k as [|k]; [|apply IH]. unfold underscore_match at 1.
    assert (Hcode : Chr.underscore ∉ js "\%5F").
    { intros Hin. apply (bool_decide_pack _) in Hin. by vm_compute in Hin. }
    destruct (N.eqb_spec c Chr.underscore) as [->|Hc].
    { rewrite elem_of_app. intros [?|?]; [done|]. by eapply IH. }
    destruct s as [|d s].
    { rewrite not_elem_of_cons. split; [done|apply IH]. }
    destruct ((c =? Chr.backslash) && (d =? Chr.underscore)).
    + rewrite elem_of_app. intros [?|?]; [done|]. by eapply IH.
    + rewrite not_elem_of_cons. split; [done|apply IH].
Qed.

Lemma encodeUnderscores_plain (s : jstring) :
  Chr.underscore ∉ s -> replaceAll underscore_match 0 s = s.
Proof.
  induction s as [|c s IH]; [done|].
  rewrite not_elem_of_cons. intros [Hc Hs]. cbn [replaceAll].
  unfold underscore_match at 1. rewrite (proj2 (N.eqb_neq _ _)) by done.
  destruct s as [|d s]; [done|].
  apply not_elem_of_cons in Hs as Hd. destruct Hd as [Hd _].
  rewrite (proj2 (N.eqb_neq d _)) by done. rewrite andb_false_r.
  by rewrite IH.
Qed.

Lemma firstNamed_name (H : Host) (name : jstring) (fields : list Field.t)
    (field : Field.t) :
  firstNamed H name fields = Some field -> lnameOf H field = name.
Proof.
  unfold firstNamed. induction fields as [|f fields IH]; [done|].
  cbn [List.filter]. destruct (bool_decide (lnameOf H f = name)) eqn:Hf.
  - intros [= <-]. by apply bool_decide_eq_true in Hf.
  - exact IH.
Qed.

(** X16.  With [encodeUrls] on and [escape] off, the value that the field
    map holds for [url] has no underscore, unless it is a concatenation
    (whose raw text is stored as it is); and encoding the underscores of an
    encoded text changes nothing. *)
Theorem encoded_url_has_no_underscore (H : Host) (o : Opt.t)
    (fields : list Field.t) (v : ValueString.t) (val : jstring) :
  Opt.encodeUrls o = true -> Opt.escape o = false ->
  map_get (js "url") (buildFieldMap H o fields) = Some v ->
  ValueString.datatype v <> Datatype.concatinate ->
  (Chr.underscore ∉ ValueString.value v)
  /\ encodeUnderscores (encodeUnderscores val) = encodeUnderscores val.
Proof.
  intros Hencode Hescape Hget Hdatatype. split.
  - unfold buildFieldMap in Hget. rewrite fold_addField_get in Hget.
    cbn [map_get] in Hget. destruct (bool_decide _); [done|].
    destruct (firstNamed H (js "url") fields) as [field|] eqn:Hfirst; [|done].
    apply firstNamed_name in Hfirst.
    injection Hget as <-. unfold storedField in *.
    cbn [ValueString.value ValueString.datatype] in *.
    intros Hin%trim_elem. revert Hin. rewrite Hfirst. unfold normalizeValue.
    destruct (Field.datatype field); try done;
      unfold laterSteps; rewrite Hencode, Hescape;
      rewrite (bool_decide_eq_true_2 (js "url" = js "url")) by done;
      rewrite (bool_decide_eq_false_2 (js "url" = js "pages")) by done;
      cbn [andb]; apply encodeUnderscores_none.
  - unfold encodeUnderscores. apply encodeUnderscores_plain.
    apply encodeUnderscores_none.
Qed.

Lemma encoded_url_has_no_underscore_witness :
  Opt.encodeUrls urlOptions = true /\ Opt.escape urlOptions = false
  /\ map_get (js "url")
       (buildFieldMap asciiHost urlOptions
          [sampleField "URL" "http://a.b/c_d\_e" Datatype.braced])
     = Some (ValueString.mk (js "http://a.b/c\%5Fd\%5Fe") Datatype.braced)
  /\ Datatype.braced <> Datatype.concatinate
  /\ (Chr.underscore ∉ js "http://a.b/c\%5Fd\%5Fe")
  /\ encodeUnderscores (encodeUnderscores (js "a_b")) = encodeUnderscores (js "a_b").
Proof.
  split; [reflexivity|]. split; [reflexivity|]. split; [reflexivity|].
  split; [discriminate|].
  apply (encoded_url_has_no_underscore asciiHost urlOptions
           [sampleField "URL" "http://a.b/c_d\_e" Datatype.braced]
           (ValueString.mk (js "http://a.b/c\%5Fd\%5Fe") Datatype.braced)
           (js "a_b")); [reflexivity|reflexivity|reflexivity|discriminate].
Defined.

(** The raw text of a concatenation is stored as it is. *)
Example concatenated_url_keeps_its_underscores :
  map_get (js "url")
    (buildFieldMap asciiHost urlOptions
       [Field.mk (js "url") (js "base/a_b") (js "base # {/a_b}")
          Datatype.concatinate])
  = Some (ValueString.mk (js "base # {/a_b}") Datatype.concatinate).
Proof. reflexivity. Qed.

(** ** The enclosing braces *)

Lemma forallb_reverse {A : Type} (p : A -> bool) (l : list A) :
  forallb p (reverse l) = forallb p l.
Proof.
  apply eq_true_iff_eq. rewrite !forallb_forall. split; intros Hl x Hx;
    apply Hl; apply list_elem_of_In; apply list_elem_of_In in Hx;
    by rewrite elem_of_reverse in *.
Qed.

Lemma stripBraces_plain (val : jstring) :
  forallb no_brace val = true -> stripBraces val = val.
Proof.
  destruct val as [|c rest]; [done|]. cbn [forallb stripBraces].
  intros [Hc _]%andb_prop. unfold no_brace in Hc.
  apply negb_true_iff, orb_false_iff in Hc as [-> _].
  by destruct (reverse rest).
Qed.

Lemma stripBraces_enclosed (val : jstring) :
  stripBraces val <> val ->
  val = Chr.lbrace :: stripBraces val ++ [Chr.rbrace]
  /\ forallb no_brace (stripBraces val) = true.
Proof.
  unfold stripBraces. destruct val as [|c rest]; [done|].
  destruct (reverse rest) as [|d rinner] eqn:Hrev; [done|].
  destruct ((c =? Chr.lbrace) && (d =? Chr.rbrace) && forallb _ rinner)
    eqn:Hmatch; [|done].
  intros _. apply andb_prop in Hmatch as [[Hc Hd]%andb_prop Hinner].
  apply N.eqb_eq in Hc as ->. apply N.eqb_eq in Hd as ->.
  split.
  - f_equal. rewrite <- (reverse_involutive rest), Hrev. by rewrite reverse_cons.
  - by rewrite forallb_reverse.
Qed.

(** X17.  The double-brace rule removes one enclosing pair of braces,
    from a value that has no other brace, and leaves every other value as it
    is: a value that it changes was its result in braces, the result has no
    brace, and a second application changes nothing. *)
Theorem stripBraces_once (val inner : jstring) :
  (forallb no_brace inner = true ->
   stripBraces (Chr.lbrace :: inner ++ [Chr.rbrace]) = inner)
  /\ (stripBraces val <> val ->
      val = Chr.lbrace :: stripBraces val ++ [Chr.rbrace]
      /\ forallb no_brace (stripBraces val) = true)
  /\ stripBraces (stripBraces val) = stripBraces val.
Proof.
  split; [|split; [apply stripBraces_enclosed|]].
  - intros Hinner. cbn [stripBraces]. rewrite reverse_app. cbn [reverse app].
    change (reverse [Chr.rbrace]) with [Chr.rbrace]. cbn [app].
    rewrite !N.eqb_refl. cbn [andb].
    change (fun x => negb ((x =? Chr.lbrace) || (x =? Chr.rbrace)))
      with no_brace.
    by rewrite forallb_reverse, Hinner, reverse_involutive.
  - destruct (decide (stripBraces val = val)) as [Heq|Hne];
      [rewrite Heq; exact Heq|].
    apply stripBraces_plain. by apply stripBraces_enclosed.
Qed.

(** ** The order of the output *)



Lemma endsWith_withFinalNewline (bibtex : jstring) :
  endsWith [Chr.newline] (withFinalNewline bibtex) = true.
Proof.
  unfold withFinalNewline.
  destruct (endsWith [Chr.newline] bibtex) eqn:Hends; [done|].
  unfold endsWith. apply bool_decide_eq_true.
  rewrite length_app. cbn [length].
  rewrite drop_app_length'; [done|lia].
Qed.

(** What [tidy] returns, read off the state the first loop ends in. *)
Lemma tidy_order_spec (H : Host) (input : jstring) (o : Opt.t) :
  exists st r,
    indexItems H o (seq 0 (length (parse H input))) (parse H input) = Some st
    /\ tidy H input o = Some r
    /\ bibtex r
       = withFinalNewline
           (concat (itemText H o (heap st)
                    <$> finalOrder H o (heap st) (length (parse H input))))
    /\ endsWith [Chr.newline] (bibtex r) = true
    /\ entries r
       = List.filter
           (fun item => bool_decide (is_Some (getEntry (parse H input) item)))
           (finalOrder H o (heap st) (length (parse H input)))
    /\ result_warnings r = warnings st
    /\ (forall i, objects r !! i = written <$> heap st !! i).
Proof.
  destruct (tidy_spec H input o)
    as (st & _ & r & Hst & Hinv & _ & Hr & _ & Hw & _ & Hobj).
  exists st, r. split; [done|]. split; [done|].
  set (parsed := parse H input) in *.
  set (order := finalOrder H o (heap st) (length parsed)).
  assert (Hperm : order ≡ₚ seq 0 (length parsed)).
  { unfold order, finalOrder. destruct (sortOf o); [|done].
    apply sortPasses_Permutation. }
  destruct (writeItems_spec H o order [] (heap st)) as (h' & Hrun & _).
  { rewrite Hperm. apply NoDup_seq. }
  { intros i e Hi He _. destruct Hinv as (_ & Hmaps & _).
    apply (Hmaps i e); [|done]. rewrite Hperm, elem_of_seq in Hi. lia. }
  unfold tidy, tidyItems in Hr. fold parsed in Hr. rewrite Hst in Hr.
  cbn [mbind option_bind] in Hr. unfold writeItems in Hr.
  change (match sortOf o with
          | Some sort => sortItems H sort (heap st) (seq 0 (length parsed))
          | None => seq 0 (length parsed)
          end) with order in Hr.
  rewrite Hrun in Hr. cbn [mbind option_bind app] in Hr.
  injection Hr as <-. cbn [bibtex entries objects result_warnings] in *.
  split; [done|]. split; [apply endsWith_withFinalNewline|].
  split; [|done].
  apply filter_ext_in. intros item _. apply bool_decide_ext.
  rewrite (getEntry_written (heap st) h' item (Hobj item)), fmap_is_Some.
  destruct Hinv as (Hkind & _). specialize (Hkind item). unfold getEntry.
  destruct (heap st !! item) as [[| | |?]|], (parsed !! item) as [[| | |?]|];
    cbn in Hkind; try done; split; intros [? ?]; done || by eexists.
Qed.

(** X19.  The text is the texts of the items in the order of the sort
    (the order of the input when [sort] is off), and it ends with a newline;
    the returned entries are the entries of the input in the same order. *)
Theorem tidy_writes_in_the_final_order (H : Host) (input : jstring) (o : Opt.t) :
  exists st r,
    indexItems H o (seq 0 (length (parse H input))) (parse H input) = Some st
    /\ tidy H input o = Some r
    /\ bibtex r
       = withFinalNewline
           (concat (itemText H o (heap st)
                    <$> finalOrder H o (heap st) (length (parse H input))))
    /\ endsWith [Chr.newline] (bibtex r) = true
    /\ entries r
       = List.filter
           (fun item => bool_decide (is_Some (getEntry (parse H input) item)))
           (finalOrder H o (heap st) (length (parse H input))).
Proof.
  destruct (tidy_order_spec H input o)
    as (st & r & Hst & Hr & Htext & Hends & Hentries & _).
  by exists st, r.
Qed.

(** ** The strategy [last] against the strategy [first] *)

Lemma sameButFields_lookup (h h' : store) (i : ref) :
  sameButFields h h' -> withoutFields <$> h !! i = withoutFields <$> h' !! i.
Proof.
  intros Hsame. rewrite <- !list_lookup_fmap. unfold sameButFields in Hsame.
  by rewrite Hsame.
Qed.

Lemma sameButFields_getEntry (h h' : store) (i : ref) :
  sameButFields h h' ->
  Entry.set_fields [] <$> getEntry h i = Entry.set_fields [] <$> getEntry h' i.
Proof.
  intros Hsame%(sameButFields_lookup _ _ i). unfold getEntry.
  destruct (h !! i) as [[| | |e]|], (h' !! i) as [[| | |e']|];
    cbn [fmap option_fmap option_map withoutFields] in Hsame; try done.
  cbn [fmap option_fmap option_map]. congruence.
Qed.

Lemma sameButFields_length (h h' : store) :
  sameButFields h h' -> length h = length h'.
Proof.
  intros Hsame. apply (f_equal length) in Hsame.
  by rewrite !length_fmap in Hsame.
Qed.

Lemma sameButFields_insert (h h' : store) (i : ref) (x y : BibTeXItem) :
  sameButFields h h' -> withoutFields x = withoutFields y ->
  sameButFields (<[i := x]> h) (<[i := y]> h').
Proof.
  unfold sameButFields. intros Hsame Hxy.
  by rewrite !list_fmap_insert, Hsame, Hxy.
Qed.

Lemma insert_agree (h h' : store) (k i : ref) (x : BibTeXItem) :
  length h = length h' -> h !! i = h' !! i ->
  <[k := x]> h !! i = <[k := x]> h' !! i.
Proof.
  intros Hlen Hi. destruct (decide (i = k)) as [->|Hne].
  - destruct (decide (k < length h)%nat).
    + rewrite !list_lookup_insert_eq by lia. done.
    + rewrite !lookup_ge_None_2; [done| |]; rewrite length_insert; lia.
  - by rewrite !list_lookup_insert_ne.
Qed.

Lemma mergeDuplicate_inStep (item d : ref) (st st' st1 st1' : State) :
  inStep item st st' -> (d < item)%nat ->
  mergeDuplicate MergeStrategy.last item d st = Some st1 ->
  mergeDuplicate MergeStrategy.first item d st' = Some st1' ->
  inStep (S item) st1 st1'.
Proof.
  intros (Hsame & Hexact & Hmaps & Hwarn) Hlt. unfold mergeDuplicate.
  assert (Hitem : getEntry (heap st) item = getEntry (heap st') item).
  { unfold getEntry. by rewrite (Hexact item). }
  rewrite <- Hitem.
  destruct (getEntry (heap st) item) as [e|]; [|done].
  cbn [mbind option_bind]. rewrite !getEntry_insert_ne by lia.
  pose proof (sameButFields_getEntry _ _ d Hsame) as Hd.
  destruct (getEntry (heap st) d) as [x|], (getEntry (heap st') d) as [x'|];
    cbn [fmap option_fmap option_map] in Hd; try done.
  assert (Hd' : Entry.set_fields [] x = Entry.set_fields [] x') by congruence.
  clear Hd. rename Hd' into Hd. cbn [mbind option_bind applyStrategy].
  intros Hrun Hrun'. apply (inj Some) in Hrun, Hrun'. subst st1 st1'.
  unfold inStep. cbn [heap warnings set_heap push_warning].
  assert (Hkey : Entry.key x = Entry.key x')
    by (apply (f_equal Entry.key) in Hd; exact Hd).
  split; [|split; [|split]].
  - apply sameButFields_insert; [by apply sameButFields_insert|].
    cbn [withoutFields]. f_equal. exact Hd.
  - intros i Hi. rewrite !list_lookup_insert_ne by lia. apply Hexact. lia.
  - intros key. specialize (Hmaps key). by destruct key.
  - by rewrite Hwarn, Hkey.
Qed.

Lemma inStep_set_indexOf (k : nat) (key : UniqueKey.t) (m : gmap jstring ref)
    (st st' : State) :
  inStep k st st' -> inStep k (set_indexOf key m st) (set_indexOf key m st').
Proof.
  intros (Hsame & Hexact & Hmaps & Hwarn).
  split; [by destruct key|]. split; [by destruct key|]. split; [|by destruct key].
  intros key'. specialize (Hmaps key'). by destruct key, key'.
Qed.

Lemma inStep_further (k : nat) (st st' : State) :
  inStep k st st' -> inStep (S k) st st'.
Proof.
  intros (Hsame & Hexact & Hmaps & Hwarn). split; [done|].
  split; [|done]. intros i Hi. apply Hexact. lia.
Qed.

Lemma checkUniq_inStep (H : Host) (criteria : jsmap UniqueKey.t bool)
    (item : ref) (st st' st1 st1' : State) :
  NoDup criteria.*1 ->
  (forall key sig d, key ∈ criteria.*1 -> indexOf key st !! sig = Some d ->
                     (d < item)%nat) ->
  inStep item st st' ->
  checkUniq H MergeStrategy.last criteria item st = Some st1 ->
  checkUniq H MergeStrategy.first criteria item st' = Some st1' ->
  inStep (S item) st1 st1'.
Proof.
  revert st st'. induction criteria as [|[key merge] rest IH];
    intros st st' Hnd Hbelow Hin; cbn [checkUniq].
  { intros [= <-] [= <-]. by apply inStep_further. }
  cbn [fmap list_fmap fst] in Hnd. apply NoDup_cons in Hnd as [Hfresh Hnd].
  pose proof Hin as (Hsame & Hexact & Hmaps & Hwarn).
  assert (Hitem : getEntry (heap st) item = getEntry (heap st') item).
  { unfold getEntry. by rewrite (Hexact item). }
  rewrite <- Hitem, <- (Hmaps key).
  destruct (getEntry (heap st) item) as [e|] eqn:He; [|done].
  cbn [mbind option_bind].
  destruct (signature H key e) as [[sig|]|]; cbn [mbind option_bind]; [| |done].
  - destruct (indexOf key st !! sig) as [d|] eqn:Hd.
    + destruct merge.
      * apply mergeDuplicate_inStep; [done|].
        apply (Hbelow key sig d); [apply list_elem_of_here|done].
      * unfold warnDuplicateKey. rewrite <- Hitem, He. cbn [mbind option_bind].
        intros [= <-] [= <-]. apply inStep_further.
        split; [done|]. split; [done|]. split; [done|].
        cbn [warnings push_warning]. by rewrite Hwarn.
    + apply IH; [done| |by apply inStep_set_indexOf].
      intros key' sig' d' Hkey'.
      rewrite indexOf_set_indexOf_ne by (intros ->; done).
      apply Hbelow. by apply list_elem_of_further.
  - apply IH; [done| |done].
    intros key' sig' d' Hkey'. apply Hbelow. by apply list_elem_of_further.
Qed.

Lemma buildFieldMap_strategy (H : Host) (strategy : MergeStrategy.t) (o : Opt.t)
    (fields : list Field.t) :
  buildFieldMap H (Opt.set_mergeStrategy strategy o) fields
  = buildFieldMap H o fields.
Proof. by destruct o. Qed.

Lemma indexItem_inStep (H : Host) (o : Opt.t)
    (criteria : jsmap UniqueKey.t bool) (k : nat) (st st' st1 st1' : State) :
  NoDup criteria.*1 ->
  (forall key sig d, indexOf key st !! sig = Some d -> (d < k)%nat) ->
  inStep k st st' ->
  indexItem H (Opt.set_mergeStrategy MergeStrategy.last o) criteria st k
  = Some st1 ->
  indexItem H (Opt.set_mergeStrategy MergeStrategy.first o) criteria st' k
  = Some st1' ->
  inStep (S k) st1 st1'.
Proof.
  intros Hnd Hbound Hin. pose proof Hin as (Hsame & Hexact & Hmaps & Hwarn).
  unfold indexItem.
  assert (Hitem : getEntry (heap st) k = getEntry (heap st') k).
  { unfold getEntry. by rewrite (Hexact k). }
  rewrite <- Hitem.
  destruct (getEntry (heap st) k) as [e|] eqn:He.
  2:{ intros [= <-] [= <-]. by apply inStep_further. }
  rewrite !buildFieldMap_strategy.
  change (Opt.mergeStrategy (Opt.set_mergeStrategy MergeStrategy.last o))
    with MergeStrategy.last.
  change (Opt.mergeStrategy (Opt.set_mergeStrategy MergeStrategy.first o))
    with MergeStrategy.first.
  apply checkUniq_inStep; [done| |].
  - intros key sig d _ Hd. apply (Hbound key sig d). revert Hd.
    by destruct (truthy (Entry.key e)), key.
  - split; [|split; [|split]].
    + cbn [heap set_heap]. destruct (truthy (Entry.key e));
        by apply sameButFields_insert.
    + intros i Hi. cbn [heap set_heap].
      destruct (truthy (Entry.key e)); cbn [heap push_warning];
        (apply insert_agree; [by apply sameButFields_length|by apply Hexact]).
    + intros key. specialize (Hmaps key).
      by destruct (truthy (Entry.key e)), key.
    + cbn [warnings set_heap]. destruct (truthy (Entry.key e)); [done|].
      cbn [warnings push_warning]. by rewrite Hwarn.
Qed.

Lemma forEach_indexItem_inStep (H : Host) (o : Opt.t)
    (criteria : jsmap UniqueKey.t bool) (parsed : store) (n k : nat)
    (st st' st1 st1' : State) :
  NoDup criteria.*1 ->
  Forall (fun kb => kb.2 = false -> kb.1 = UniqueKey.key) criteria ->
  warned parsed k st ->
  inStep k st st' ->
  forEach (indexItem H (Opt.set_mergeStrategy MergeStrategy.last o) criteria)
    (seq k n) st = Some st1 ->
  forEach (indexItem H (Opt.set_mergeStrategy MergeStrategy.first o) criteria)
    (seq k n) st' = Some st1' ->
  inStep (k + n) st1 st1'.
Proof.
  intros Hnd Hflags. revert k st st'.
  induction n as [|n IH]; intros k st st' Hwarned Hin; cbn [seq forEach].
  - intros [= <-] [= <-]. by rewrite Nat.add_0_r.
  - destruct (indexItem H (Opt.set_mergeStrategy MergeStrategy.last o)
                criteria st k) as [st2|] eqn:Hturn; [|done].
    destruct (indexItem H (Opt.set_mergeStrategy MergeStrategy.first o)
                criteria st' k) as [st2'|] eqn:Hturn'; [|done].
    cbn [mbind option_bind]. rewrite <- Nat.add_succ_comm.
    apply IH.
    + by eapply indexItem_warns.
    + eapply indexItem_inStep; [done| |done|done|done].
      by destruct Hwarned as (_ & Hbound & _).
Qed.

Lemma indexItems_inStep (H : Host) (o : Opt.t) (parsed : store)
    (st st' : State) :
  indexItems H (Opt.set_mergeStrategy MergeStrategy.last o)
    (seq 0 (length parsed)) parsed = Some st ->
  indexItems H (Opt.set_mergeStrategy MergeStrategy.first o)
    (seq 0 (length parsed)) parsed = Some st' ->
  sameButFields (heap st) (heap st') /\ warnings st = warnings st'.
Proof.
  unfold indexItems.
  change (Opt.merge (Opt.set_mergeStrategy MergeStrategy.last o))
    with (Opt.merge o).
  change (Opt.merge (Opt.set_mergeStrategy MergeStrategy.first o))
    with (Opt.merge o).
  intros Hrun Hrun'. destruct (uniqCheck_shape (Opt.merge o)) as [Hnd Hflags].
  destruct (forEach_indexItem_inStep H o _ parsed (length parsed) 0
              (mkState parsed ∅ ∅ ∅ ∅ []) (mkState parsed ∅ ∅ ∅ ∅ []) st st'
              Hnd Hflags) as (Hsame & _ & _ & Hwarn); try done.
  split; [apply evolves_refl|]. split.
  { intros key sig d Hd. destruct key; cbn in Hd; by rewrite lookup_empty in Hd. }
  split; [done|]. split; [done|]. intros i Hi. by left.
Qed.

Lemma makeSortIndex_fields (H : Host) (sort : list jstring) (e e' : Entry.t) :
  Entry.set_fields [] e = Entry.set_fields [] e' ->
  makeSortIndex H sort e = makeSortIndex H sort e'.
Proof.
  intros Hsame.
  assert (Hvalue : forall key, sortValue H e key = sortValue H e' key).
  { intros key. unfold sortValue.
    change (Entry.key e) with (Entry.key (Entry.set_fields [] e)).
    change (Entry.type e) with (Entry.type (Entry.set_fields [] e)).
    change (Entry.fieldMap e) with (Entry.fieldMap (Entry.set_fields [] e)).
    by rewrite Hsame. }
  unfold makeSortIndex. generalize (@nil (jstring * jstring)).
  induction sort as [|key sort IH]; intros idx; [done|].
  cbn [fold_left]. by rewrite Hvalue, IH.
Qed.

Lemma sortIndexStep_sameButFields (H : Host) (sort : list jstring)
    (h h' : store) (acc : gmap ref (jsmap jstring jstring) * list ref)
    (item : ref) :
  sameButFields h h' ->
  sortIndexStep H sort h acc item = sortIndexStep H sort h' acc item.
Proof.
  intros Hsame. unfold sortIndexStep. destruct acc as [sortIndexes preceedingMeta].
  pose proof (sameButFields_getEntry _ _ item Hsame) as Hitem.
  destruct (getEntry h item) as [e|], (getEntry h' item) as [e'|];
    cbn [fmap option_fmap option_map] in Hitem; try done.
  assert (Hee : Entry.set_fields [] e = Entry.set_fields [] e') by congruence.
  by rewrite (makeSortIndex_fields H sort e e' Hee).
Qed.

Lemma sortItems_sameButFields (H : Host) (sort : list jstring) (h h' : store)
    (items : list ref) :
  sameButFields h h' -> sortItems H sort h items = sortItems H sort h' items.
Proof.
  intros Hsame. unfold sortItems, makeSortIndexes.
  assert (Hfold : forall acc,
             fold_left (sortIndexStep H sort h) items acc
             = fold_left (sortIndexStep H sort h') items acc).
  { induction items as [|item items IH]; intros acc; [done|].
    cbn [fold_left]. by rewrite (sortIndexStep_sameButFields H sort h h'), IH. }
  by rewrite Hfold.
Qed.

Lemma itemText_sameButFields (H : Host) (o : Opt.t) (h h' : store) (item : ref) :
  sameButFields h h' -> itemText H o h item = itemText H o h' item.
Proof.
  intros Hsame%(sameButFields_lookup _ _ item). unfold itemText.
  destruct (h !! item) as [[| | |e]|], (h' !! item) as [[| | |e']|];
    cbn [fmap option_fmap option_map withoutFields] in Hsame; try done;
    try (injection Hsame; intros; subst; done).
  assert (Hee : Entry.set_fields [] e = Entry.set_fields [] e') by congruence.
  unfold renderEntry.
  change (Entry.key e) with (Entry.key (Entry.set_fields [] e)).
  change (Entry.type e) with (Entry.type (Entry.set_fields [] e)).
  change (Entry.fieldMap e) with (Entry.fieldMap (Entry.set_fields [] e)).
  change (Entry.duplicate e) with (Entry.duplicate (Entry.set_fields [] e)).
  by rewrite Hee.
Qed.

Lemma itemText_strategy (H : Host) (strategy : MergeStrategy.t) (o : Opt.t)
    (h : store) (item : ref) :
  itemText H (Opt.set_mergeStrategy strategy o) h item = itemText H o h item.
Proof. by destruct o. Qed.

Lemma written_sameButFields (x y : BibTeXItem) :
  withoutFields x = withoutFields y ->
  withoutFields (written x) = withoutFields (written y).
Proof.
  destruct x as [| | |e], y as [| | |e']; cbn [withoutFields written];
    try congruence.
  intros Hsame.
  assert (Hee : Entry.set_fields [] e = Entry.set_fields [] e') by congruence.
  assert (Hdup : Entry.duplicate e = Entry.duplicate e')
    by (apply (f_equal Entry.duplicate) in Hee; exact Hee).
  rewrite <- Hdup. destruct (Entry.duplicate e); cbn [withoutFields]; [done|].
  f_equal. apply (f_equal (Entry.set_fieldMap None)) in Hee. exact Hee.
Qed.

(** C4, on the code.  Under [last] the merge replaces the raw field list
    of the kept entry and nothing else: the [fieldMap] of the entry, which
    the sort and the output loop read and which is built once, stays as it
    was.  So, whatever the input and the other options, the text, the
    warnings and the entries that [tidy] returns under [last] are those it
    returns under [first]; the returned objects differ at most in their raw
    field lists.  The kept entry's fields are not replaced in what is
    written. *)
Theorem last_writes_what_first_writes (H : Host) (input : jstring) (o : Opt.t)
    (r r' : Result) :
  tidy H input (Opt.set_mergeStrategy MergeStrategy.last o) = Some r ->
  tidy H input (Opt.set_mergeStrategy MergeStrategy.first o) = Some r' ->
  bibtex r = bibtex r'
  /\ result_warnings r = result_warnings r'
  /\ entries r = entries r'
  /\ sameButFields (objects r) (objects r').
Proof.
  intros Hr Hr'.
  destruct (tidy_order_spec H input (Opt.set_mergeStrategy MergeStrategy.last o))
    as (st & r0 & Hst & Hr0 & Htext & _ & Hentries & Hwarn & Hobj).
  destruct (tidy_order_spec H input (Opt.set_mergeStrategy MergeStrategy.first o))
    as (st' & r0' & Hst' & Hr0' & Htext' & _ & Hentries' & Hwarn' & Hobj').
  assert (r0 = r) as -> by congruence. assert (r0' = r') as -> by congruence.
  destruct (indexItems_inStep H o _ st st' Hst Hst') as [Hsame Hwarnings].
  assert (Horder :
            finalOrder H (Opt.set_mergeStrategy MergeStrategy.last o) (heap st)
              (length (parse H input))
            = finalOrder H (Opt.set_mergeStrategy MergeStrategy.first o)
                (heap st') (length (parse H input))).
  { unfold finalOrder.
    change (sortOf (Opt.set_mergeStrategy MergeStrategy.last o)) with (sortOf o).
    change (sortOf (Opt.set_mergeStrategy MergeStrategy.first o)) with (sortOf o).
    destruct (sortOf o); [|done]. by apply sortItems_sameButFields. }
  split; [|split; [|split]].
  - rewrite Htext, Htext', Horder. do 2 f_equal.
    apply list_fmap_ext. intros _ item _.
    rewrite !itemText_strategy. by apply itemText_sameButFields.
  - by rewrite Hwarn, Hwarn'.
  - by rewrite Hentries, Hentries', Horder.
  - unfold sameButFields. apply list_eq. intros i.
    rewrite !list_lookup_fmap, Hobj, Hobj'.
    pose proof (sameButFields_lookup _ _ i Hsame) as Hi.
    destruct (heap st !! i) as [x|], (heap st' !! i) as [y|];
      cbn [fmap option_fmap option_map] in *; try done.
    f_equal. apply written_sameButFields. congruence.
Qed.

Lemma last_writes_what_first_writes_witness :
  exists r r',
    tidy (sampleHost (fun _ => samplePair)) [] lastOptions = Some r
    /\ tidy (sampleHost (fun _ => samplePair)) []
         (Opt.set_mergeStrategy MergeStrategy.first (mergeOptions [UniqueKey.key]))
       = Some r'
    /\ (bibtex r = bibtex r'
        /\ result_warnings r = result_warnings r'
        /\ entries r = entries r'
        /\ sameButFields (objects r) (objects r'))
    /\ bibtex r = js "@book{sweig42,
  title         = {The impossible book},
  year          = 1942
}
"
    /\ Entry.fields <$> getEntry (objects r) 0 = Some (Entry.fields sampleAbsorbed)
    /\ Entry.fields <$> getEntry (objects r') 0 = Some (Entry.fields sampleKept).
Proof.
  eexists _, _. split; [vm_compute; reflexivity|].
  split; [vm_compute; reflexivity|].
  split; [|split; [|split]]; [|vm_compute; reflexivity..].
  apply (last_writes_what_first_writes (sampleHost (fun _ => samplePair)) []
           (mergeOptions [UniqueKey.key])); vm_compute; reflexivity.
Defined.
